(** * emd2mrc: a shallow embedding of [core.py] and of the worker of [GUI.py]

    The pipeline regroups micrographs by the last token of their file name,
    finds the [.emd] container of each image, reads the [AlphaTilt] angle out
    of the container's metadata text, sorts the images of a group by angle and
    stacks them into one volume.

    Python values are modelled as follows.
    - [str] is a list of Unicode code points ([text]); the methods of [str]
      the code calls ([split], [join], [lower], [replace], [rfind]) are
      functions on such lists.
    - [pathlib.Path] is a record of an anchor and a list of parts (POSIX
      flavour).
    - [float] is an IEEE 754 binary64 value, a [spec_float] of the Standard
      Library with [prec = 53] and [emax = 1024].
    - An exception is a value of [exn]; code that can raise returns a
      [result].
    - The file system, the HDF5 library and the image decoder are the fields
      of a record [World]. *)

From Stdlib Require Import String Ascii.
From Stdlib Require Import List Bool Arith ZArith NArith Lia.
From Stdlib Require Import Permutation Sorted.
From Stdlib Require Import Floats.SpecFloat.
Import ListNotations.

Set Implicit Arguments.

(* ===================================================================== *)
(** * Python strings                                                      *)
(* ===================================================================== *)

Module PyStr.

(** A character is a code point. *)
Definition char := N.
Definition text := list char.

(** ASCII literals of the source, written as Rocq strings. *)
Definition t (s : string) : text := map N_of_ascii (list_ascii_of_string s).
Arguments t s%_string.

Definition dquote : char := 34%N.
Definition space : char := 32%N.
Definition underscore : char := 95%N.
Definition dot : char := 46%N.
Definition slash : char := 47%N.
Definition colon : char := 58%N.
Definition hyphen_minus : char := 45%N.
Definition plus_sign : char := 43%N.
(** U+2212 MINUS SIGN, the first character of the capture group of the
    pattern in [extract_alpha_tilt_from_emd]. *)
Definition minus_sign : char := 8722%N.

Definition char_eqb (a b : char) : bool := N.eqb a b.

Fixpoint text_eqb (a b : text) : bool :=
  match a, b with
  | [], [] => true
  | x :: a', y :: b' => char_eqb x y && text_eqb a' b'
  | _, _ => false
  end.

Definition in_range (lo hi c : N) : bool := (N.leb lo c && N.leb c hi)%N.

(** [Py_UNICODE_ISSPACE]: the code points for which [str.isspace] holds.
    [str.split()] without argument splits on them, and so does [\s] in a
    [str] pattern of [re]. *)
Definition isspace (c : char) : bool :=
  in_range 9 13 c || in_range 28 32 c || N.eqb c 133 || N.eqb c 160
  || N.eqb c 5760 || in_range 8192 8202 c || N.eqb c 8232 || N.eqb c 8233
  || N.eqb c 8239 || N.eqb c 8287 || N.eqb c 12288.

(** The code points of the digit zero of every decimal-digit block (general
    category Nd, Unicode 14 as shipped with CPython 3.11); the nine code
    points that follow each of them are the digits one to nine. *)
Definition decimal_zeros : list N :=
  [48; 1632; 1776; 1984; 2406; 2534; 2662; 2790; 2918; 3046; 3174; 3302;
   3430; 3558; 3664; 3792; 3872; 4160; 4240; 6112; 6160; 6470; 6608; 6784;
   6800; 6992; 7088; 7232; 7248; 42528; 43216; 43264; 43472; 43504; 43600;
   44016; 65296; 66720; 68912; 69734; 69872; 69942; 70096; 70384; 70736;
   70864; 71248; 71360; 71472; 71904; 72016; 72784; 73040; 73120; 92768;
   92864; 93008; 120782; 120792; 120802; 120812; 120822; 123200; 123632;
   125264; 130032]%N.

(** [Py_UNICODE_TODECIMAL]: the value of a decimal digit, [None] for any
    other code point. [\d] in a [str] pattern matches exactly the code points
    that have one, and [float] reads them as that digit. *)
Definition todecimal (c : char) : option N :=
  match find (fun z => in_range z (z + 9) c) decimal_zeros with
  | Some z => Some (c - z)%N
  | None => None
  end.

Definition isdecimal (c : char) : bool :=
  match todecimal c with Some _ => true | None => false end.

(** ASCII lower-casing. *)
Definition ascii_lower (c : char) : char :=
  if in_range 65 90 c then (c + 32)%N else c.

(** [name.lower()], as far as the test ["metadata" in name.lower()] can
    observe it: [str.lower] maps a code point to one of the letters of
    [metadata] only when the code point is that letter in either ASCII case,
    so the needle is found in [name.lower()] exactly when it is found in the
    name with its ASCII capitals lowered. *)
Definition lower (s : text) : text := map ascii_lower s.

Fixpoint startswith (prefix s : text) : bool :=
  match prefix, s with
  | [], _ => true
  | p :: prefix', c :: s' => char_eqb p c && startswith prefix' s'
  | _ :: _, [] => false
  end.

(** [needle in s] *)
Fixpoint contains (needle s : text) : bool :=
  startswith needle s ||
  match s with
  | [] => false
  | _ :: s' => contains needle s'
  end.

(** [s.split()]: the maximal runs of characters that are not white space.
    [cur] is the token being read, in reverse. *)
Fixpoint split_aux (cur : text) (s : text) : list text :=
  match s with
  | [] => match cur with [] => [] | _ => [rev cur] end
  | c :: s' =>
      if isspace c then
        match cur with
        | [] => split_aux [] s'
        | _ => rev cur :: split_aux [] s'
        end
      else split_aux (c :: cur) s'
  end.

Definition split (s : text) : list text := split_aux [] s.

(** [sep.join(l)] *)
Fixpoint join (sep : text) (l : list text) : text :=
  match l with
  | [] => []
  | [x] => x
  | x :: l' => x ++ sep ++ join sep l'
  end.

(** [s.replace(a, b)] for one-character [a] and [b]. *)
Definition replace (a b : char) (s : text) : text :=
  map (fun c => if char_eqb c a then b else c) s.

(** [s.rfind(c)]: the highest index of [c] in [s], [None] for Python's -1. *)
Fixpoint rfind (c : char) (s : text) : option nat :=
  match s with
  | [] => None
  | x :: s' =>
      match rfind c s' with
      | Some i => Some (S i)
      | None => if char_eqb x c then Some 0 else None
      end
  end.

(** [a < b] on strings: the order of the code points, a proper prefix
    first. *)
Fixpoint text_ltb (a b : text) : bool :=
  match a, b with
  | _, [] => false
  | [], _ :: _ => true
  | x :: a', y :: b' => N.ltb x y || (N.eqb x y && text_ltb a' b')
  end.

Fixpoint lstrip (s : text) : text :=
  match s with
  | c :: s' => if isspace c then lstrip s' else s
  | [] => []
  end.

(** [s.strip()] *)
Definition strip (s : text) : text := rev (lstrip (rev (lstrip s))).

(** [tokens[-1]] of a non-empty list (the default is never returned where
    the code indexes). *)
Definition last_item (l : list text) : text := last l [].

(** [l[:-1]] *)
Definition slice_drop_last (A : Type) (l : list A) : list A :=
  firstn (length l - 1) l.

(** [str(n)] for a natural number. *)
Fixpoint uint_digits (d : Decimal.uint) : text :=
  match d with
  | Decimal.Nil => []
  | Decimal.D0 d' => 48%N :: uint_digits d'
  | Decimal.D1 d' => 49%N :: uint_digits d'
  | Decimal.D2 d' => 50%N :: uint_digits d'
  | Decimal.D3 d' => 51%N :: uint_digits d'
  | Decimal.D4 d' => 52%N :: uint_digits d'
  | Decimal.D5 d' => 53%N :: uint_digits d'
  | Decimal.D6 d' => 54%N :: uint_digits d'
  | Decimal.D7 d' => 55%N :: uint_digits d'
  | Decimal.D8 d' => 56%N :: uint_digits d'
  | Decimal.D9 d' => 57%N :: uint_digits d'
  end.

Definition str_of_nat (n : nat) : text := uint_digits (Nat.to_uint n).

End PyStr.
Import PyStr.

(* ===================================================================== *)
(** * pathlib                                                             *)
(* ===================================================================== *)

Module Pathlib.

(** A pure POSIX path: the anchor (empty, [/] or [//]) and the parts below
    it. *)
Record Path := mkPath { anchor : text; parts : list text }.

Definition path_eqb (p q : Path) : bool :=
  text_eqb (anchor p) (anchor q)
  && (fix go (a b : list text) : bool :=
        match a, b with
        | [], [] => true
        | x :: a', y :: b' => text_eqb x y && go a' b'
        | _, _ => false
        end) (parts p) (parts q).

(** Splitting on [/]. [cur] is the component being read, in reverse. *)
Fixpoint split_slash (cur : text) (s : text) : list text :=
  match s with
  | [] => [rev cur]
  | c :: s' =>
      if char_eqb c slash then rev cur :: split_slash [] s'
      else split_slash (c :: cur) s'
  end.

(** The parts of a path string: empty components and [.] are dropped. *)
Definition parse_parts (s : text) : list text :=
  filter (fun x => negb (text_eqb x []) && negb (text_eqb x [dot]))
         (split_slash [] s).

(** Exactly two leading slashes are kept as the anchor [//], any other
    number of them is the root [/]. *)
Definition parse_anchor (s : text) : text :=
  match s with
  | a :: b :: c :: _ =>
      if char_eqb a slash then
        if char_eqb b slash && negb (char_eqb c slash) then [slash; slash]
        else [slash]
      else []
  | [a; b] =>
      if char_eqb a slash then
        if char_eqb b slash then [slash; slash] else [slash]
      else []
  | [a] => if char_eqb a slash then [slash] else []
  | [] => []
  end.

(** [Path(s)] *)
Definition parse_path (s : text) : Path :=
  mkPath (parse_anchor s) (parse_parts s).

(** [p.name]: the last part, the empty string when there is none. *)
Definition name (p : Path) : text := last (parts p) [].

(** [p.suffix] and [p.stem]: the name is cut at its last dot, unless that
    dot is the first or the last character of the name. *)
Definition suffix (p : Path) : text :=
  let n := name p in
  match rfind dot n with
  | Some i => if (0 <? i) && (i <? length n - 1) then skipn i n else []
  | None => []
  end.

Definition stem (p : Path) : text :=
  let n := name p in
  match rfind dot n with
  | Some i => if (0 <? i) && (i <? length n - 1) then firstn i n else n
  | None => n
  end.

(** [p / s] for a string [s]. *)
Definition joinpath (p : Path) (s : text) : Path :=
  if startswith [slash] s then parse_path s
  else mkPath (anchor p) (parts p ++ parse_parts s).

(** The path of the directory entry [n] of [p], as [glob] makes it. *)
Definition child (p : Path) (n : text) : Path :=
  mkPath (anchor p) (parts p ++ [n]).

(** [str(p)] *)
Definition path_str (p : Path) : text :=
  match anchor p, parts p with
  | [], [] => [dot]
  | a, ps => a ++ join [slash] ps
  end.

(** [fnmatch] for patterns made of literal characters and [*]. *)
Definition star : char := 42%N.

Fixpoint fnmatch (pat : text) : text -> bool :=
  match pat with
  | [] => fun n => match n with [] => true | _ => false end
  | c :: pat' =>
      if char_eqb c star then
        fix any (n : text) : bool :=
          fnmatch pat' n || match n with [] => false | _ :: n' => any n' end
      else
        fun n =>
          match n with
          | [] => false
          | d :: n' => char_eqb d c && fnmatch pat' n'
          end
  end.

End Pathlib.
Import Pathlib.


(* ===================================================================== *)
(** * Exceptions                                                          *)
(* ===================================================================== *)

(** A raised exception: its class and the [repr] of its arguments. *)
Inductive exn : Type := Exc (cls : text) (args : text).

(** [repr(e)] *)
Definition repr_exn (e : exn) : text :=
  match e with Exc cls args => cls ++ t "(" ++ args ++ t ")" end.

(** The outcome of code that returns a value or raises. *)
Inductive result (A : Type) : Type :=
| Ok (a : A)
| Raise (e : exn).
Arguments Ok {A} a.
Arguments Raise {A} e.

(** [ValueError(msg)] and [TypeError(msg)] for a message without quotes. *)
Definition ValueError (msg : text) : exn :=
  Exc (t "ValueError") (t "'" ++ msg ++ t "'").
Definition TypeError (msg : text) : exn :=
  Exc (t "TypeError") (t "'" ++ msg ++ t "'").
Definition OverflowError (msg : text) : exn :=
  Exc (t "OverflowError") (t "'" ++ msg ++ t "'").

(* ===================================================================== *)
(** * Floats                                                              *)
(* ===================================================================== *)

Module PyFloat.

Definition prec : Z := 53.
Definition emax : Z := 1024.

(** A Python [float]. *)
Definition float := spec_float.

(** The float nearest to [a / b] (ties to even), for [0 <= a] and [0 < b]:
    Python's [a / b] on two such [int]s, and the value [float] gives to the
    decimal numeral of numerator [a] and denominator [b = 10^k]. *)
Definition round_quotient (neg : bool) (a b : Z) : float :=
  match a with
  | Z0 => S754_zero neg
  | _ =>
      let '(q, e, l) := SFdiv_core_binary prec emax a 0 b 0 in
      binary_round_aux prec emax neg q e l
  end.

(** [float(n)] for an [int] *)
Definition float_of_Z (n : Z) : float := binary_normalize prec emax n 0 false.

Definition truediv (a b : Z) : float := round_quotient false a b.
Definition mul (x y : float) : float := SFmul prec emax x y.

(** [x < y], the comparison [list.sort] applies to the keys. *)
Definition ltb (x y : float) : bool := SFltb x y.
(** [x == y] *)
Definition eqb (x y : float) : bool := SFeqb x y.
(** [x <= y] *)
Definition leb (x y : float) : bool := SFleb x y.

(** The integer part of a finite [x] (truncation towards zero), and 0 for
    an infinity and a NaN. *)
Definition trunc (x : float) : Z :=
  match x with
  | S754_finite s m e =>
      cond_Zopp s
        (match e with
         | Zneg p => Z.shiftr (Zpos m) (Zpos p)
         | _ => Z.shiftl (Zpos m) e
         end)
  | _ => 0
  end.

(** [int(x)]: the integer part of a finite [x]; an infinity and a NaN
    raise. *)
Definition int_of_float (x : float) : result Z :=
  match x with
  | S754_infinity _ =>
      Raise (OverflowError (t "cannot convert float infinity to integer"))
  | S754_nan => Raise (ValueError (t "cannot convert float NaN to integer"))
  | _ => Ok (trunc x)
  end.

(** [int(a / b * scale)], where [int] does not raise: the code calls [int]
    on a ratio of two counts times 50, 100 or a percentage only, and these
    products are finite (lemmas [percent_of_count] and [progress_cb_int]). *)
Definition percent (a b scale : Z) : Z :=
  trunc (mul (truediv a b) (float_of_Z scale)).

(** The digits at the head of a string, as their values, and the rest. *)
Fixpoint take_digits (s : text) : list N * text :=
  match s with
  | [] => ([], [])
  | c :: s' =>
      match todecimal c with
      | Some d => let '(ds, r) := take_digits s' in (d :: ds, r)
      | None => ([], s)
      end
  end.

Definition digits_value (ds : list N) : Z :=
  fold_left (fun acc d => (10 * acc + Z.of_N d)%Z) ds 0%Z.

(** [float(s)] on the strings made of minus signs, dots and decimal digits:
    an optional ASCII sign, digits, optionally a dot and more digits, at
    least one digit in all, and nothing else; any other such string is a
    [ValueError], U+2212 included, which [float] does not read as a sign.
    The forms [float] accepts beyond these contain a letter, an underscore
    or white space, which the capture group of the pattern never holds
    (lemma [search_alphatilt_group]). The message of the error, which names
    the string, is cut short: the visitor drops it. *)
Definition py_float (s : text) : result float :=
  let '(neg, s1) :=
    match s with
    | c :: s' =>
        if char_eqb c hyphen_minus then (true, s')
        else if char_eqb c plus_sign then (false, s')
        else (false, s)
    | [] => (false, s)
    end in
  let '(ip, s2) := take_digits s1 in
  let '(fp, s3) :=
    match s2 with
    | c :: s' => if char_eqb c dot then take_digits s' else ([], s2)
    | [] => ([], s2)
    end in
  match ip ++ fp, s3 with
  | _ :: _, [] =>
      Ok (round_quotient neg (digits_value (ip ++ fp))
                         (10 ^ Z.of_nat (length fp)))
  | _, _ => Raise (ValueError (t "could not convert string to float"))
  end.

End PyFloat.
Import PyFloat.

(* ===================================================================== *)
(** * Regular expressions                                                 *)
(* ===================================================================== *)

Module Sre.

Inductive atom : Type :=
| Lit (c : char)      (* a literal character *)
| Space               (* \s *)
| Digit.              (* \d *)

(** The patterns the code uses: quantifiers apply to single atoms and are
    greedy. *)
Inductive regex : Type :=
| Eps
| One (a : atom)
| Opt (a : atom)      (* a? *)
| Star (a : atom)     (* a* *)
| Plus (a : atom)     (* a+ *)
| Seq (r1 r2 : regex)
| Group (r : regex).  (* ( r ) *)

(** A literal under [re.IGNORECASE], for a pattern character that is ASCII
    or has no case: the character itself, its other ASCII case, and the
    letters [re] adds to [i], [s] and [k] (U+0130 and U+0131, U+017F,
    U+212A). *)
Definition lit_match (p c : char) : bool :=
  let lo := ascii_lower p in
  char_eqb c lo || char_eqb (ascii_lower c) lo
  || (char_eqb lo 105%N && (char_eqb c 304%N || char_eqb c 305%N))
  || (char_eqb lo 115%N && char_eqb c 383%N)
  || (char_eqb lo 107%N && char_eqb c 8490%N).

Definition atom_match (a : atom) (c : char) : bool :=
  match a with
  | Lit p => lit_match p c
  | Space => isspace c
  | Digit => isdecimal c
  end.

Section Matcher.
Variable A : Type.

(** Greedy repetition: as many characters as match, giving one back at a
    time while the rest of the pattern fails. *)
Fixpoint star_k (f : char -> bool) (k : text -> option A) (s : text)
  : option A :=
  match s with
  | c :: s' =>
      if f c then
        match star_k f k s' with
        | Some r => Some r
        | None => k s
        end
      else k s
  | [] => k []
  end.

(** [match_k r s g k]: match [r] at the head of [s] and hand what is left
    of [s] and the text of the group to the continuation [k]; the first
    success in the order of a backtracking matcher is the answer. *)
Fixpoint match_k (r : regex) (s : text) (g : option text)
         (k : text -> option text -> option A) : option A :=
  match r with
  | Eps => k s g
  | One a =>
      match s with
      | c :: s' => if atom_match a c then k s' g else None
      | [] => None
      end
  | Opt a =>
      match s with
      | c :: s' =>
          if atom_match a c then
            match k s' g with
            | Some x => Some x
            | None => k s g
            end
          else k s g
      | [] => k s g
      end
  | Star a => star_k (atom_match a) (fun s' => k s' g) s
  | Plus a =>
      match s with
      | c :: s' =>
          if atom_match a c
          then star_k (atom_match a) (fun s' => k s' g) s'
          else None
      | [] => None
      end
  | Seq r1 r2 => match_k r1 s g (fun s' g' => match_k r2 s' g' k)
  | Group r1 =>
      match_k r1 s g
              (fun s' _ => k s' (Some (firstn (length s - length s') s)))
  end.
End Matcher.

(** A match object, reduced to [group(1)] ([None] when the group took no
    part in the match). *)
Definition match_at (r : regex) (s : text) : option (option text) :=
  match_k r s None (fun _ g => Some g).

(** [re.search(r, s, re.IGNORECASE)]: the match at the leftmost position
    that has one. *)
Fixpoint search (r : regex) (s : text) : option (option text) :=
  match match_at r s with
  | Some g => Some g
  | None =>
      match s with
      | [] => None
      | _ :: s' => search r s'
      end
  end.

(** A run of literal characters. *)
Fixpoint lits (s : text) : regex :=
  match s with
  | [] => Eps
  | c :: s' => Seq (One (Lit c)) (lits s')
  end.

End Sre.
Import Sre.


(* ===================================================================== *)
(** * The world outside the program                                       *)
(* ===================================================================== *)

(** A node of an HDF5 container as [visititems] hands it to the visitor:
    its full name, whether it is an [h5py.Dataset], and the text
    [obj[()].flatten().tobytes().decode("utf-8", errors="ignore")], or the
    exception one of these steps raises. *)
Record H5Node := mkNode {
  node_name : text;
  node_is_dataset : bool;
  node_text : result text
}.

(** A decoded image, [np.array(Image.open(p).convert("F"))]: a 2D array. *)
Record Array2 := mkArray2 {
  shape : nat * nat;
  pixels : list float
}.

(** A volume: the 2D arrays along axis 0. *)
Definition Volume := list Array2.

Record World := mkWorld {
  (** the names of the entries of a directory in the order the system
      enumerates them; [None] if the path is not a directory that can be
      read *)
  scandir : Path -> option (list text);
  (** [p.exists()] *)
  path_exists : Path -> bool;
  (** [h5py.File(p, "r")] and the nodes of the file in the order of
      [visititems], or the exception opening raises *)
  h5py_File : Path -> result (list H5Node);
  (** [np.array(Image.open(p).convert("F"))] *)
  image_open : Path -> result Array2;
  (** [mrcfile.new(str(p), overwrite=True)] after the [mkdir] of the parent,
      up to the end of the [with] block *)
  mrc_write : Path -> Volume -> result unit
}.

Definition shape_eqb (a b : nat * nat) : bool :=
  Nat.eqb (fst a) (fst b) && Nat.eqb (snd a) (snd b).

(** [np.stack(l, axis=0)] *)
Definition np_stack (l : list Array2) : result Volume :=
  match l with
  | [] => Raise (ValueError (t "need at least one array to stack"))
  | a :: l' =>
      if forallb (fun b => shape_eqb (shape b) (shape a)) l' then Ok l
      else Raise (ValueError (t "all input arrays must have the same shape"))
  end.

(** [list.sort(key=...)] and [sorted(..., key=...)]: a stable sort,
    ascending for [<] on the keys. An element goes before the first element
    of the sorted tail whose key is not below its own. *)
Section Sort.
Variables A K : Type.
Variable lt : K -> K -> bool.
Variable key : A -> K.

Fixpoint insert (x : A) (l : list A) : list A :=
  match l with
  | [] => [x]
  | y :: l' =>
      if lt (key y) (key x) then y :: insert x l' else x :: y :: l'
  end.

Fixpoint sort (l : list A) : list A :=
  match l with
  | [] => []
  | x :: l' => insert x (sort l')
  end.
End Sort.

(* ===================================================================== *)
(** * core.py                                                             *)
(* ===================================================================== *)

Module core.

(** The pattern of the [re.search] of the visitor: the key [alphatilt]
    between double quotes, [\s*], a colon, [\s*], an optional double quote,
    the capture group [−?-?\d+\.?\d*] and an optional double quote. *)
Definition alphatilt_re : regex :=
  Seq (lits (dquote :: t "alphatilt" ++ [dquote]))
 (Seq (Star Space)
 (Seq (One (Lit colon))
 (Seq (Star Space)
 (Seq (Opt (Lit dquote))
 (Seq (Group
         (Seq (Opt (Lit minus_sign))
         (Seq (Opt (Lit hyphen_minus))
         (Seq (Plus Digit)
         (Seq (Opt (Lit dot))
              (Star Digit))))))
      (Opt (Lit dquote))))))).

(** The body of the [try] of the visitor on the text of a node: the new
    value of [alpha_tilt], or the exception. *)
Definition parse_alpha_tilt (txt : text) : result (option float) :=
  match search alphatilt_re txt with
  | None => Ok None
  | Some (Some g) =>
      match py_float g with
      | Ok a => Ok (Some a)
      | Raise e => Raise e
      end
  | Some None => Raise (TypeError (t "float() argument must be a string"))
  end.

(** One call of [visitor(name, obj)], as a function of [alpha_tilt] before
    the call to [alpha_tilt] after it. The visitor returns [None] always, so
    [visititems] calls it on every node. *)
Definition visitor (alpha_tilt : option float) (n : H5Node) : option float :=
  match alpha_tilt with
  | Some _ => alpha_tilt
  | None =>
      if negb (node_is_dataset n) then None
      else if negb (contains (t "metadata") (lower (node_name n))) then None
      else
        match node_text n with
        | Raise _ => None                   (* except Exception: pass *)
        | Ok txt =>
            match parse_alpha_tilt txt with
            | Ok a => a
            | Raise _ => None               (* except Exception: pass *)
            end
        end
  end.

Definition extract_alpha_tilt_from_emd (w : World) (emd_path : Path)
  : result (option float) :=
  match h5py_File w emd_path with
  | Raise e => Raise e
  | Ok nodes => Ok (fold_left visitor nodes None)
  end.

Definition extract_source_from_filename (filename : text) : text :=
  let stem := stem (parse_path filename) in
  let tokens := split stem in
  match tokens with
  | [] => []
  | _ => last_item tokens
  end.

(** An insertion-ordered [dict] from source to list of paths. *)
Definition Groups := list (text * list Path).

Fixpoint get (groups : Groups) (k : text) : option (list Path) :=
  match groups with
  | [] => None
  | (k', v) :: groups' => if text_eqb k k' then Some v else get groups' k
  end.

(** [groups.setdefault(source, []).append(img)] *)
Fixpoint setdefault_append (groups : Groups) (source : text) (img : Path)
  : Groups :=
  match groups with
  | [] => [(source, [img])]
  | (k, v) :: groups' =>
      if text_eqb source k then (k, v ++ [img]) :: groups'
      else (k, v) :: setdefault_append groups' source img
  end.

(** [image_dir.glob(pattern)] for a pattern without a directory part: the
    entries of the directory whose names match; nothing when the directory
    cannot be listed. *)
Definition glob (w : World) (dir : Path) (pattern : text) : list Path :=
  match scandir w dir with
  | None => []
  | Some entries => map (child dir) (filter (fnmatch pattern) entries)
  end.

Definition image_patterns : list text :=
  [t "*.png"; t "*.jpg"; t "*.jpeg"; t "*.tif"; t "*.tiff"].

Definition scan_images (w : World) (image_dir : Path) : list Path :=
  fold_left (fun images ext => images ++ glob w image_dir ext)
            image_patterns [].

Definition group_images_by_source (w : World) (image_dir : Path)
  : result Groups :=
  let images := scan_images w image_dir in
  Ok (fold_left
        (fun groups img =>
           setdefault_append groups (extract_source_from_filename (name img))
                             img)
        images []).

Definition find_matching_emd (w : World) (img_path emd_dir : Path)
  : option Path :=
  let stem := stem img_path in
  let tokens := split stem in
  if length tokens <? 2 then None
  else
    let emd_stem := join [space] (slice_drop_last tokens) in
    let emd_path := joinpath emd_dir (emd_stem ++ t ".emd") in
    if path_exists w emd_path then Some emd_path else None.

(** ** The stack assembler *)

(** The callbacks of [load_images_sorted_by_alpha]. A call of [log_cb] or
    of [progress_cb] is recorded as an event of type [E]; [None] stands for
    an argument left at its default. [cancel_flag] is read at successive
    instants: its answer to the [n]-th poll of a run is [cancel n]. *)
Record Callbacks (E : Type) := mkCallbacks {
  log_cb : option (text -> E);
  progress_cb : option (Z -> E);
  cancel_flag : option (nat -> bool)
}.

(** What has happened so far, in order: the calls of the log and progress
    callbacks, and the polls of the cancellation flag with their answers;
    [polls] counts the latter. *)
Inductive entry (E : Type) : Type :=
| Emitted (e : E)
| Polled (answer : bool).
Arguments Emitted {E} e.
Arguments Polled {E} answer.

Record Trace (E : Type) := mkTrace {
  entries : list (entry E);
  polls : nat
}.

Section Assembler.
Variable E : Type.
Variable w : World.
Variable emd_dir : Path.
Variable cb : Callbacks E.

Definition emit_log (s : text) (tr : Trace E) : Trace E :=
  match log_cb cb with
  | Some f => mkTrace (entries tr ++ [Emitted (f s)]) (polls tr)
  | None => tr
  end.

Definition emit_progress (p : Z) (tr : Trace E) : Trace E :=
  match progress_cb cb with
  | Some f => mkTrace (entries tr ++ [Emitted (f p)]) (polls tr)
  | None => tr
  end.

(** [cancel_flag is not None and cancel_flag()] *)
Definition poll (tr : Trace E) : bool * Trace E :=
  match cancel_flag cb with
  | Some c =>
      let answer := c (polls tr) in
      (answer, mkTrace (entries tr ++ [Polled answer]) (S (polls tr)))
  | None => (false, tr)
  end.

(** U+26A0 U+FE0F, the warning sign of the log lines. *)
Definition warning_sign : text := [9888; 65039]%N.

(** How the first loop ends: the records, a [return None], or an
    exception. *)
Inductive collected : Type :=
| Records (records : list (float * Path))
| Cancelled
| Failed (e : exn).

(** The first loop, from index [idx] on. *)
Fixpoint collect (total idx : nat) (image_files : list Path)
         (records : list (float * Path)) (tr : Trace E)
  : collected * Trace E :=
  match image_files with
  | [] => (Records records, tr)
  | img_path :: rest =>
      let '(c, tr) := poll tr in
      if c then (Cancelled, tr)
      else
        match find_matching_emd w img_path emd_dir with
        | None =>
            collect total (S idx) rest records
              (emit_log (warning_sign ++ t " EMD not found for: "
                                      ++ name img_path) tr)
        | Some emd_path =>
            match extract_alpha_tilt_from_emd w emd_path with
            | Raise e => (Failed e, tr)
            | Ok None =>
                collect total (S idx) rest records
                  (emit_log (warning_sign ++ t " AlphaTilt not found for: "
                                          ++ name emd_path) tr)
            | Ok (Some alpha) =>
                collect total (S idx) rest (records ++ [(alpha, img_path)])
                  (emit_progress
                     (percent (Z.of_nat idx + 1)
                              (Z.max (Z.of_nat total) 1) 50) tr)
            end
        end
  end.

(** The second loop, from index [j] on; [n] is [len(records)]. *)
Fixpoint stack_loop (n j : nat) (records : list (float * Path))
         (stack : list Array2) (tr : Trace E)
  : result (option (list Array2)) * Trace E :=
  match records with
  | [] => (Ok (Some stack), tr)
  | (alpha, img_path) :: rest =>
      let '(c, tr) := poll tr in
      if c then (Ok None, tr)
      else
        match image_open w img_path with
        | Raise e => (Raise e, tr)
        | Ok img =>
            stack_loop n (S j) rest (stack ++ [img])
              (emit_progress
                 (50 + percent (Z.of_nat j + 1) (Z.max (Z.of_nat n) 1) 50)
                 tr)
        end
  end.

Definition load_images_sorted_by_alpha (image_files : list Path)
           (tr : Trace E) : result (option Volume) * Trace E :=
  let total := length image_files in
  match collect total 0 image_files [] tr with
  | (Cancelled, tr) => (Ok None, tr)
  | (Failed e, tr) => (Raise e, tr)
  | (Records records, tr) =>
      match records with
      | [] => (Ok None, tr)
      | _ =>
          let records := sort ltb (@fst float Path) records in
          match stack_loop (length records) 0 records [] tr with
          | (Ok (Some stack), tr) =>
              match np_stack stack with
              | Ok v => (Ok (Some v), tr)
              | Raise e => (Raise e, tr)
              end
          | (Ok None, tr) => (Ok None, tr)
          | (Raise e, tr) => (Raise e, tr)
          end
      end
  end.
End Assembler.

(** [write_mrc(stack, output_path)] *)
Definition write_mrc (w : World) (stack : Volume) (output_path : Path)
  : result unit :=
  mrc_write w output_path stack.

End core.
Import core.

(* ===================================================================== *)
(** * core.py: the grouper when a lookup is refused                       *)
(* ===================================================================== *)

(** A [World] answers every lookup of a path: the path is a directory that
    lists, or it is not. [Path.glob] asks more of the system: it first calls
    [is_dir()] on the directory, which takes the errors ENOENT, ENOTDIR,
    EBADF and ELOOP of [stat] as "not a directory" and lets every other
    [OSError] through, such as ENAMETOOLONG for a name that is too long and
    EACCES below a directory that cannot be searched. [stat_error] gives the
    exception of such a [stat], if there is one; [world] says what the system
    answers otherwise. *)
Record FileSystem := mkFileSystem {
  world : World;
  stat_error : Path -> option exn
}.

Module Os.

(** [image_dir.glob(pattern)], consumed by [images.extend]: the exception of
    [is_dir()], or the entries that match. *)
Definition glob (fs : FileSystem) (dir : Path) (pattern : text)
  : result (list Path) :=
  match stat_error fs dir with
  | Some e => Raise e
  | None => Ok (core.glob (world fs) dir pattern)
  end.

Definition scan_images (fs : FileSystem) (image_dir : Path)
  : result (list Path) :=
  fold_left (fun images ext =>
               match images with
               | Raise e => Raise e
               | Ok images =>
                   match glob fs image_dir ext with
                   | Raise e => Raise e
                   | Ok found => Ok (images ++ found)
                   end
               end)
            image_patterns (Ok []).

Definition group_images_by_source (fs : FileSystem) (image_dir : Path)
  : result Groups :=
  match scan_images fs image_dir with
  | Raise e => Raise e
  | Ok images =>
      Ok (fold_left
            (fun groups img =>
               setdefault_append groups
                 (extract_source_from_filename (name img)) img)
            images [])
  end.

End Os.

(* ===================================================================== *)
(** * GUI.py                                                              *)
(* ===================================================================== *)

Module GUI.

(** What a run of the worker does that can be seen from outside: the
    signals it emits and the volumes it writes. *)
Inductive effect : Type :=
| log (s : text)
| progress (p : Z)
| finished
| error (msg : text)
| wrote (out_path : Path) (stack : Volume).

Record Worker := mkWorker {
  emd_dir : Path;
  output_dir : Path;
  selected_sources : list text;
  groups : Groups;
  (** [self._cancel] as [is_cancelled] finds it at its successive calls *)
  is_cancelled : nat -> bool
}.

Section Run.
Variable w : World.
Variable self : Worker.

Definition emit (e : effect) (tr : Trace effect) : Trace effect :=
  mkTrace (entries tr ++ [Emitted e]) (polls tr).

(** [progress_cb] of the [i]-th source *)
Definition progress_cb_of (total_sources i : nat) (p : Z) : effect :=
  let base := percent (Z.of_nat i) (Z.of_nat total_sources) 100 in
  let span := percent 1 (Z.of_nat total_sources) 100 in
  progress (Z.min 100 (base + trunc (mul (truediv p 100) (float_of_Z span)))).

Definition callbacks_of (total_sources i : nat) : Callbacks effect :=
  mkCallbacks (Some log) (Some (progress_cb_of total_sources i))
              (Some (is_cancelled self)).

(** The [for] loop of [run] from the [i]-th source on: the exception that
    ends it, if any, and the trace. *)
Fixpoint run_loop (total_sources i : nat) (sources : list text)
         (tr : Trace effect) : option exn * Trace effect :=
  match sources with
  | [] => (None, tr)
  | source :: rest =>
      let c := is_cancelled self (polls tr) in
      let tr := mkTrace (entries tr ++ [Polled c]) (S (polls tr)) in
      if c then (None, emit (log ([128721%N] ++ t " Cancelled.")) tr)
      else
        let files :=
          match get (groups self) source with
          | Some l => l
          | None => []
          end in
        let tr :=
          emit (log ([10%N; 127919%N] ++ t " Processing data source: "
                       ++ source ++ t " (" ++ str_of_nat (length files)
                       ++ t " images)")) tr in
        match load_images_sorted_by_alpha w (emd_dir self)
                (callbacks_of total_sources i) files tr with
        | (Raise e, tr) => (Some e, tr)
        | (Ok None, tr) =>
            run_loop total_sources (S i) rest
              (emit (log (warning_sign
                            ++ t " Invalid data source, skipping.")) tr)
        | (Ok (Some stack), tr) =>
            let out_name := replace space underscore source in
            let out_path :=
              joinpath (output_dir self) (out_name ++ t ".mrc") in
            match write_mrc w stack out_path with
            | Raise e => (Some e, tr)
            | Ok _ =>
                run_loop total_sources (S i) rest
                  (emit (log ([9989%N] ++ t " Successfully generated: "
                                ++ path_str out_path))
                        (emit (wrote out_path stack) tr))
            end
        end
  end.

(** [Worker.run] *)
Definition run : Trace effect :=
  let tr := mkTrace [] 0 in
  let total_sources := length (selected_sources self) in
  if Nat.eqb total_sources 0
  then emit (error (t "No data sources selected.")) tr
  else
    match run_loop total_sources 0 (selected_sources self) tr with
    | (Some e, tr) => emit (error (repr_exn e)) tr
    | (None, tr) => emit finished (emit (progress 100) tr)
    end.
End Run.

(** What [scan_sources] does to the window. *)
Inductive ui : Type :=
| warning_box (title msg : text)
| append_log (s : text)
| list_clear
| list_add (label : text) (data : text).

(** [MainWindow.scan_sources]: from the text of the directory field and
    [self.groups] to the calls on the widgets and the new [self.groups], or
    the exception that leaves the slot. *)
Definition scan_sources (w : World) (image_edit : text) (groups : Groups)
  : result (list ui * Groups) :=
  let image_dir := parse_path (strip image_edit) in
  if negb (path_exists w image_dir)
  then Ok ([warning_box (t "Path error")
                        (t "Image directory does not exist.")], groups)
  else
    match group_images_by_source w image_dir with
    | Raise e => Raise e
    | Ok groups =>
        Ok ([append_log ([128269%N] ++ t " Scanning image files"
                                    ++ [8230%N]);
             list_clear]
            ++ map (fun kv =>
                      list_add (fst kv ++ t "   ("
                                  ++ str_of_nat (length (snd kv))
                                  ++ t " images)") (fst kv))
                   (sort text_ltb (@fst text (list Path)) groups)
            ++ [append_log ([128193%N] ++ t " Found "
                              ++ str_of_nat (length groups)
                              ++ t " data sources.")],
            groups)
    end.

End GUI.

(* ===================================================================== *)
(** * GUI.py: the window                                                  *)
(* ===================================================================== *)

(** [MainWindow] of GUI.py: the fields of the window and the state of its
    widgets as the slots read and write them, and the slots as functions of
    that state. What Qt does between the calls of the slots (clicks, edits,
    the delivery of the signals of the worker) is the events below. *)
Module MainWindow.

(** The [Worker] object as the window holds it. Its flag [_cancel] is what
    [is_cancelled] answers at the polls of a run. *)
Record WorkerObject := mkWorkerObject {
  image_dir : Path;
  emd_dir : Path;
  output_dir : Path;
  selected_sources : list text;
  groups : Groups;
  _cancel : bool
}.

(** [Worker.__init__] *)
Definition Worker_init (image_dir emd_dir output_dir : Path)
           (selected_sources : list text) (groups : Groups) : WorkerObject :=
  mkWorkerObject image_dir emd_dir output_dir selected_sources groups false.

(** [Worker.cancel] *)
Definition Worker_cancel (self : WorkerObject) : WorkerObject :=
  mkWorkerObject (image_dir self) (emd_dir self) (output_dir self)
                 (selected_sources self) (groups self) true.

(** The worker of a run, for the answers [c] its flag gives at the
    successive polls. *)
Definition running (self : WorkerObject) (c : nat -> bool) : GUI.Worker :=
  GUI.mkWorker (emd_dir self) (output_dir self) (selected_sources self)
               (groups self) c.

(** A [QThread]: started or not. *)
Record QThread := mkQThread { started : bool }.

(** A [QListWidgetItem]: its text, its data for [Qt.UserRole] and whether
    it is selected. *)
Record Item := mkItem {
  item_text : text;
  item_data : text;
  item_selected : bool
}.

(** A [QMessageBox] that was shown. *)
Inductive dialog : Type :=
| information (title msg : text)
| warning (title msg : text)
| critical (title msg : text).

Record Window := mkWindow {
  self_groups : Groups;
  self_thread : option QThread;
  self_worker : option WorkerObject;
  (** the texts of the three [QLineEdit] *)
  image_edit : text;
  emd_edit : text;
  out_edit : text;
  (** whether each button is enabled *)
  scan_btn : bool;
  run_btn : bool;
  cancel_btn : bool;
  list_widget : list Item;
  (** the value last given to the progress bar, if any *)
  progress : option Z;
  (** the lines appended to the log *)
  log : list text;
  (** the message boxes shown so far *)
  dialogs : list dialog
}.

(** [MainWindow.__init__] *)
Definition init : Window :=
  mkWindow [] None None (t "data/NiSi") (t "data/NiSi") (t "mrc_output")
           true true false [] None [] [].

Definition set_groups (g : Groups) (win : Window) : Window :=
  mkWindow g (self_thread win) (self_worker win) (image_edit win)
           (emd_edit win) (out_edit win) (scan_btn win) (run_btn win)
           (cancel_btn win) (list_widget win) (progress win) (log win)
           (dialogs win).

Definition set_list (l : list Item) (win : Window) : Window :=
  mkWindow (self_groups win) (self_thread win) (self_worker win)
           (image_edit win) (emd_edit win) (out_edit win) (scan_btn win)
           (run_btn win) (cancel_btn win) l (progress win) (log win)
           (dialogs win).

Definition set_edits (image emd out : text) (win : Window) : Window :=
  mkWindow (self_groups win) (self_thread win) (self_worker win)
           image emd out (scan_btn win) (run_btn win) (cancel_btn win)
           (list_widget win) (progress win) (log win) (dialogs win).

(** [self.progress.setValue(v)] *)
Definition set_progress (v : Z) (win : Window) : Window :=
  mkWindow (self_groups win) (self_thread win) (self_worker win)
           (image_edit win) (emd_edit win) (out_edit win) (scan_btn win)
           (run_btn win) (cancel_btn win) (list_widget win) (Some v)
           (log win) (dialogs win).

(** [append_log] *)
Definition append_log (s : text) (win : Window) : Window :=
  mkWindow (self_groups win) (self_thread win) (self_worker win)
           (image_edit win) (emd_edit win) (out_edit win) (scan_btn win)
           (run_btn win) (cancel_btn win) (list_widget win) (progress win)
           (log win ++ [s]) (dialogs win).

(** [QMessageBox.information], [warning] and [critical] *)
Definition show (d : dialog) (win : Window) : Window :=
  mkWindow (self_groups win) (self_thread win) (self_worker win)
           (image_edit win) (emd_edit win) (out_edit win) (scan_btn win)
           (run_btn win) (cancel_btn win) (list_widget win) (progress win)
           (log win) (dialogs win ++ [d]).

(** One call on a widget among those [scan_sources] makes. *)
Definition apply_ui (win : Window) (u : GUI.ui) : Window :=
  match u with
  | GUI.warning_box title msg => show (warning title msg) win
  | GUI.append_log s => append_log s win
  | GUI.list_clear => set_list [] win
  | GUI.list_add label data =>
      set_list (list_widget win ++ [mkItem label data false]) win
  end.

(** The slot [scan_sources] *)
Definition scan_sources (w : World) (win : Window) : result Window :=
  match GUI.scan_sources w (image_edit win) (self_groups win) with
  | Raise e => Raise e
  | Ok (calls, groups) => Ok (fold_left apply_ui calls (set_groups groups win))
  end.

(** The data of [self.list_widget.selectedItems()]. Qt does not say in
    which order it gives the selected items; they are taken in the order of
    the list, and no statement below depends on it. *)
Definition selected_data (win : Window) : list text :=
  map item_data (filter item_selected (list_widget win)).

(** The slot [start] *)
Definition start (w : World) (win : Window) : result Window :=
  match self_thread win with
  | Some _ =>
      Ok (show (information (t "Running") (t "Task is already running."))
               win)
  | None =>
      let image_dir := parse_path (strip (image_edit win)) in
      let emd_dir := parse_path (strip (emd_edit win)) in
      let out_dir := parse_path (strip (out_edit win)) in
      if negb (path_exists w image_dir) then
        Ok (show (warning (t "Path error")
                          (t "Image directory does not exist.")) win)
      else if negb (path_exists w emd_dir) then
        Ok (show (warning (t "Path error")
                          (t "EMD directory does not exist.")) win)
      else
        match
          match self_groups win with
          | [] => group_images_by_source w image_dir
          | _ => Ok (self_groups win)
          end
        with
        | Raise e => Raise e
        | Ok groups =>
            let win := set_groups groups win in
            match selected_data win with
            | [] =>
                Ok (show (warning
                            (t "No selection")
                            (t "Please select one or more data sources in the list."))
                         win)
            | selected =>
                Ok (mkWindow
                      groups (Some (mkQThread true))
                      (Some (Worker_init image_dir emd_dir out_dir selected
                                         groups))
                      (image_edit win) (emd_edit win) (out_edit win)
                      false false true (list_widget win) (Some 0%Z)
                      (log win ++ [9654%N :: t " Generating"])
                      (dialogs win))
            end
        end
  end.

(** The slot [cancel] *)
Definition cancel (win : Window) : Window :=
  match self_worker win with
  | Some worker =>
      append_log
        (9209%N :: t " Cancelling...")
        (mkWindow (self_groups win) (self_thread win)
                  (Some (Worker_cancel worker))
                  (image_edit win) (emd_edit win) (out_edit win)
                  (scan_btn win) (run_btn win) (cancel_btn win)
                  (list_widget win) (progress win) (log win) (dialogs win))
  | None => win
  end.

(** [cleanup_thread] *)
Definition cleanup_thread (win : Window) : Window :=
  mkWindow (self_groups win) None None
           (image_edit win) (emd_edit win) (out_edit win)
           true true false (list_widget win) (progress win) (log win)
           (dialogs win).

(** The slot [on_finished] *)
Definition on_finished (win : Window) : Window :=
  show (information (t "Complete") (t "MRC generation is complete."))
       (cleanup_thread (append_log ([10%N; 127881%N] ++ t " Completed") win)).

(** The slot [on_error] *)
Definition on_error (msg : text) (win : Window) : Window :=
  show (critical (t "Error") msg)
       (cleanup_thread (append_log (10060%N :: t " Error: " ++ msg) win)).

(** [_browse_image], [_browse_emd] and [_browse_out] for the directory [d]
    the dialog returns (empty when it is dismissed). *)
Definition browse_image (d : text) (win : Window) : Window :=
  match d with
  | [] => win
  | _ => set_edits d (emd_edit win) (out_edit win) win
  end.

Definition browse_emd (d : text) (win : Window) : Window :=
  match d with
  | [] => win
  | _ => set_edits (image_edit win) d (out_edit win) win
  end.

Definition browse_out (d : text) (win : Window) : Window :=
  match d with
  | [] => win
  | _ => set_edits (image_edit win) (emd_edit win) d win
  end.

(** A click on the [i]-th item of the list, which is in
    [MultiSelection] mode: the item is selected or deselected. *)
Fixpoint toggle (i : nat) (l : list Item) : list Item :=
  match l, i with
  | [], _ => []
  | it :: l', 0 =>
      mkItem (item_text it) (item_data it) (negb (item_selected it)) :: l'
  | it :: l', S i' => it :: toggle i' l'
  end.

(** What happens to the window: the user types in a field, picks a
    directory, clicks on an item or on a button, or a signal of the worker
    is delivered. *)
Inductive event : Type :=
| type_image (s : text)
| type_emd (s : text)
| type_out (s : text)
| pick_image (d : text)
| pick_emd (d : text)
| pick_out (d : text)
| click_item (i : nat)
| click_scan
| click_run
| click_cancel
| worker_log (s : text)
| worker_progress (v : Z)
| worker_finished
| worker_error (msg : text).

Definition step (w : World) (win : Window) (ev : event) : result Window :=
  match ev with
  | type_image s => Ok (set_edits s (emd_edit win) (out_edit win) win)
  | type_emd s => Ok (set_edits (image_edit win) s (out_edit win) win)
  | type_out s => Ok (set_edits (image_edit win) (emd_edit win) s win)
  | pick_image d => Ok (browse_image d win)
  | pick_emd d => Ok (browse_emd d win)
  | pick_out d => Ok (browse_out d win)
  | click_item i => Ok (set_list (toggle i (list_widget win)) win)
  | click_scan => scan_sources w win
  | click_run => start w win
  | click_cancel => Ok (cancel win)
  | worker_log s => Ok (append_log s win)
  | worker_progress v => Ok (set_progress v win)
  | worker_finished => Ok (on_finished win)
  | worker_error msg => Ok (on_error msg win)
  end.

(** The window after a sequence of events, from the state [win]. *)
Fixpoint steps (w : World) (win : Window) (evs : list event)
  : result Window :=
  match evs with
  | [] => Ok win
  | ev :: evs' =>
      match step w win ev with
      | Ok win' => steps w win' evs'
      | Raise e => Raise e
      end
  end.

(** The signals of a trace of the worker, as events of the window. *)
Definition signals (l : list (entry GUI.effect)) : list event :=
  flat_map (fun en => match en with
                      | Emitted (GUI.log s) => [worker_log s]
                      | Emitted (GUI.progress v) => [worker_progress v]
                      | Emitted GUI.finished => [worker_finished]
                      | Emitted (GUI.error msg) => [worker_error msg]
                      | _ => []
                      end) l.

(** *** Notions on the state of the window *)

(** The window is idle, or one worker runs: the buttons, the thread and the
    worker agree. *)
Definition consistent (win : Window) : Prop :=
  match self_thread win with
  | None =>
      self_worker win = None /\ run_btn win = true /\ scan_btn win = true
      /\ cancel_btn win = false
  | Some th =>
      started th = true /\ self_worker win <> None /\ run_btn win = false
      /\ scan_btn win = false /\ cancel_btn win = true
  end.

(** The sources of the list are keys of the mapping, and so are the
    sources of the worker, of which there is one at least. *)
Definition sources_known (win : Window) : Prop :=
  Forall (fun it => In (item_data it) (map fst (self_groups win)))
         (list_widget win)
  /\ match self_worker win with
     | Some worker =>
         selected_sources worker <> []
         /\ Forall (fun s => In s (map fst (groups worker)))
                   (selected_sources worker)
     | None => True
     end.

End MainWindow.

(* ===================================================================== *)
(** * Notions used in the statements                                      *)
(* ===================================================================== *)

(** A token: not empty, and without white space. *)
Definition is_token (tok : text) : Prop :=
  tok <> [] /\ Forall (fun c => isspace c = false) tok.

(** A name that can be the name of a directory entry: no slash in it. *)
Definition no_slash (s : text) : Prop := ~ In slash s.

(** [s.endswith(suf)] *)
Definition endswith (suf s : text) : bool := startswith (rev suf) (rev s).

(** The extensions the grouper scans for. *)
Definition image_extensions : list text :=
  [t "png"; t "jpg"; t "jpeg"; t "tif"; t "tiff"].

(** The name ends with a dot and one of the extensions. *)
Definition has_image_extension (n : text) : bool :=
  existsb (fun e => endswith (dot :: e) n) image_extensions.

(** The entries of a directory, none when it cannot be listed. *)
Definition listing (w : World) (dir : Path) : list text :=
  match scandir w dir with
  | Some entries => entries
  | None => []
  end.

(** What a pattern can consume: [consumes r g s g'] when [r] matches the
    whole of [s] and turns the text of the group from [g] into [g']. *)
Inductive consumes : regex -> option text -> text -> option text -> Prop :=
| consumes_eps g : consumes Eps g [] g
| consumes_one a c g : atom_match a c = true -> consumes (One a) g [c] g
| consumes_opt_none a g : consumes (Opt a) g [] g
| consumes_opt_some a c g :
    atom_match a c = true -> consumes (Opt a) g [c] g
| consumes_star a s g :
    Forall (fun c => atom_match a c = true) s -> consumes (Star a) g s g
| consumes_plus a c s g :
    atom_match a c = true -> Forall (fun c => atom_match a c = true) s ->
    consumes (Plus a) g (c :: s) g
| consumes_seq r1 r2 g s1 g1 s2 g2 :
    consumes r1 g s1 g1 -> consumes r2 g1 s2 g2 ->
    consumes (Seq r1 r2) g (s1 ++ s2) g2
| consumes_group r g s g1 :
    consumes r g s g1 -> consumes (Group r) g s (Some s).

(** The strings the capture group of the pattern can hold: an optional
    U+2212, an optional ASCII minus, one decimal digit or more, an optional
    dot and decimal digits. *)
Definition group_shape (g : text) : Prop :=
  exists m h ip d fp,
    g = m ++ h ++ ip ++ d ++ fp
    /\ (m = [] \/ m = [minus_sign])
    /\ (h = [] \/ h = [hyphen_minus])
    /\ ip <> [] /\ Forall (fun c => isdecimal c = true) ip
    /\ (d = [] \/ d = [dot])
    /\ Forall (fun c => isdecimal c = true) fp.

(** The text [rest] does not begin with the character class [f]. *)
Definition not_headed (f : char -> bool) (rest : text) : Prop :=
  match rest with
  | [] => True
  | c :: _ => f c = false
  end.

(** The place of a float that is not a NaN in the order of the floats, as
    a triple compared lexicographically: the class (infinities, negative,
    zero, positive), then exponent and mantissa, both negated for a negative
    float. The two zeros have the same place. *)
Definition float_key (x : float) : Z * Z * Z :=
  match x with
  | S754_infinity true => (-2, 0, 0)
  | S754_finite true m e => (-1, - e, Zneg m)
  | S754_zero _ => (0, 0, 0)
  | S754_finite false m e => (1, e, Zpos m)
  | S754_infinity false => (2, 0, 0)
  | S754_nan => (3, 0, 0)
  end%Z.

Definition key_lt (a b : Z * Z * Z) : Prop :=
  let '(a1, a2, a3) := a in
  let '(b1, b2, b3) := b in
  (a1 < b1 \/ (a1 = b1 /\ (a2 < b2 \/ (a2 = b2 /\ a3 < b3))))%Z.

Definition not_nan (x : float) : Prop := x <> S754_nan.

(** A finite float [x] with [0 <= x < 2^K], and not the negative zero. *)
Definition small (K : Z) (x : float) : Prop :=
  match x with
  | S754_zero false => True
  | S754_finite false m e => (Zdigits2 (Zpos m) + e <= K)%Z
  | _ => False
  end.

(** The angle of an image: its container is found, opens and holds an
    angle. *)
Definition angle_of (w : World) (emd_dir img_path : Path) : option float :=
  match find_matching_emd w img_path emd_dir with
  | None => None
  | Some emd_path =>
      match extract_alpha_tilt_from_emd w emd_path with
      | Ok (Some alpha) => Some alpha
      | _ => None
      end
  end.

(** The matched images of a group with their angles, in input order. *)
Definition matched (w : World) (emd_dir : Path) (image_files : list Path)
  : list (float * Path) :=
  flat_map (fun img_path =>
              match angle_of w emd_dir img_path with
              | Some alpha => [(alpha, img_path)]
              | None => []
              end) image_files.

(** A cancellation predicate that is never true, or none at all. *)
Definition never_cancelled (E : Type) (cb : Callbacks E) : Prop :=
  forall c, cancel_flag cb = Some c -> forall n, c n = false.

(** The traces a run with callbacks [cb] can add when [n] polls were made
    before and [m] polls after: calls of the two sinks, and polls answered
    by the cancellation predicate at the successive instants. *)
Inductive generated (E : Type) (cb : Callbacks E)
  : nat -> list (entry E) -> nat -> Prop :=
| gen_nil n : generated cb n [] n
| gen_log n f s l m :
    log_cb cb = Some f -> generated cb n l m ->
    generated cb n (Emitted (f s) :: l) m
| gen_progress n g p l m :
    progress_cb cb = Some g -> generated cb n l m ->
    generated cb n (Emitted (g p) :: l) m
| gen_poll n c l m :
    cancel_flag cb = Some c -> generated cb (S n) l m ->
    generated cb n (Polled (c n) :: l) m.

(** A piece of trace whose last entry is the one poll answered true. *)
Definition ends_cancelled (E : Type) (new : list (entry E)) : Prop :=
  exists mid, new = mid ++ [Polled true] /\ ~ In (Polled true) mid.

(** What a trace and an outcome have to do with one another: the run adds
    [new] to the trace, and a poll answered true is the last thing that
    happens, with an outcome for which [stop] holds. *)
Definition run_shape (E : Type) (cb : Callbacks E) (A : Type)
           (stop : A -> Prop) (tr : Trace E) (out : A * Trace E) : Prop :=
  exists new,
    entries (snd out) = entries tr ++ new
    /\ generated cb (polls tr) new (polls (snd out))
    /\ (In (Polled true) new -> stop (fst out) /\ ends_cancelled new).

(** A run from the trace [tr] to the trace [tr'] made [k] polls that were
    answered false and stopped at the next one, answered true: that poll is
    the last entry of its trace. *)
Definition stopped_at (E : Type) (k : nat) (tr tr' : Trace E) : Prop :=
  polls tr' = polls tr + k + 1
  /\ exists mid,
      entries tr' = entries tr ++ mid ++ [Polled true]
      /\ ~ In (Polled true) mid.

(** No volume is written after a poll was answered true. *)
Definition no_write_after_cancel (l : list (entry GUI.effect)) : Prop :=
  forall pre post out_path stack,
    l = pre ++ Emitted (GUI.wrote out_path stack) :: post ->
    ~ In (Polled true) pre.

(** The signals that end a run. *)
Definition is_terminal (en : entry GUI.effect) : bool :=
  match en with
  | Emitted GUI.finished => true
  | Emitted (GUI.error _) => true
  | _ => false
  end.

(** What the assembler adds to the trace of the worker: polls, log lines
    and progress values. *)
Definition from_assembler (en : entry GUI.effect) : bool :=
  match en with
  | Polled _ => true
  | Emitted (GUI.log _) => true
  | Emitted (GUI.progress _) => true
  | _ => false
  end.

(** An entry that is not the writing of a volume. *)
Definition not_a_write (en : entry GUI.effect) : bool :=
  match en with
  | Emitted (GUI.wrote _ _) => false
  | _ => true
  end.

(** Once set, the flag stays set. *)
Definition monotone (c : nat -> bool) : Prop :=
  forall i j, i <= j -> c i = true -> c j = true.

(** The value a [dict] holds for a key whose items are [l]: none for no
    item. *)
Definition group_value (l : list Path) : option (list Path) :=
  match l with
  | [] => None
  | _ => Some l
  end.

(** The images of a list that the classifier sends to [k]. *)
Definition classified (k : text) (images : list Path) : list Path :=
  filter (fun img => text_eqb (extract_source_from_filename (name img)) k)
         images.

(** The grouping loop on a list of images. *)
Definition grouping (images : list Path) : Groups :=
  fold_left
    (fun groups img =>
       setdefault_append groups (extract_source_from_filename (name img)) img)
    images [].

(** ** The text of a dataset and the key of the pattern *)

(** The literals [ps] are at the head of [s], as the pattern matches them
    (without regard to case). *)
Fixpoint lits_at (ps s : text) : bool :=
  match ps, s with
  | [], _ => true
  | p :: ps', c :: s' => lit_match p c && lits_at ps' s'
  | _ :: _, [] => false
  end.

(** The literals [ps] occur somewhere in [s]. *)
Fixpoint occurs (ps s : text) : bool :=
  lits_at ps s
  || match s with
     | [] => false
     | _ :: s' => occurs ps s'
     end.

(** The key of the pattern with its opening quote. *)
Definition quoted_key : text := dquote :: t "alphatilt".

(** ** The order of the groups *)

(** The elements of a list in the order of their first occurrence. *)
Fixpoint distinct (l : list text) : list text :=
  match l with
  | [] => []
  | x :: l' => x :: filter (fun y => negb (text_eqb y x)) (distinct l')
  end.

(** The images of a directory in the order the grouper enumerates them:
    pattern after pattern, each in the order of the directory. *)
Definition enumerated (w : World) (image_dir : Path) : list Path :=
  map (child image_dir)
      (flat_map (fun pat => filter (fnmatch pat) (listing w image_dir))
                image_patterns).

(** [len(files)] summed over the groups. *)
Definition total_size (groups : Groups) : nat :=
  list_sum (map (fun kv => length (snd kv)) groups).

(** ** What the assembler logs and reports *)

(** Callbacks that record the log lines and the progress values as they
    are. *)
Definition recording (c : option (nat -> bool)) : Callbacks (text + Z) :=
  mkCallbacks (Some (@inl text Z)) (Some (@inr text Z)) c.

(** The log lines of a recorded trace, in order. *)
Definition log_lines (l : list (entry (text + Z))) : list text :=
  flat_map (fun en => match en with
                      | Emitted (inl s) => [s]
                      | _ => []
                      end) l.

(** The warning the first loop logs for an image it skips, none for an
    image it keeps. *)
Definition skip_warning (w : World) (emd_dir img_path : Path) : list text :=
  match find_matching_emd w img_path emd_dir with
  | None => [warning_sign ++ t " EMD not found for: " ++ name img_path]
  | Some emd_path =>
      match extract_alpha_tilt_from_emd w emd_path with
      | Ok None =>
          [warning_sign ++ t " AlphaTilt not found for: " ++ name emd_path]
      | _ => []
      end
  end.

(** An entry of a trace that is not a progress report outside [lo, hi). *)
Definition reports_within (E : Type) (cb : Callbacks E) (lo hi : Z)
           (en : entry E) : Prop :=
  match en with
  | Polled _ => True
  | Emitted e =>
      (exists f s, log_cb cb = Some f /\ e = f s)
      \/ (exists g p, progress_cb cb = Some g /\ e = g p
                      /\ (lo <= p < hi)%Z)
  end.

(** A progress signal carries a percentage. *)
Definition is_percentage (en : entry GUI.effect) : Prop :=
  match en with
  | Emitted (GUI.progress v) => (0 <= v <= 100)%Z
  | _ => True
  end.

(** ** Records with different angles *)

(** No two records have equal angles. *)
Fixpoint distinct_angles (records : list (float * Path)) : bool :=
  match records with
  | [] => true
  | r :: rest =>
      forallb (fun r' => negb (eqb (fst r) (fst r'))) rest
      && distinct_angles rest
  end.

(** ** What the worker writes and signals *)

(** The volumes a trace of the worker records as written, in order. *)
Definition writes (l : list (entry GUI.effect)) : list (Path * Volume) :=
  flat_map (fun en => match en with
                      | Emitted (GUI.wrote out_path stack) =>
                          [(out_path, stack)]
                      | _ => []
                      end) l.

(** [self.groups.get(source, [])] *)
Definition files_of (self : GUI.Worker) (source : text) : list Path :=
  match get (GUI.groups self) source with
  | Some l => l
  | None => []
  end.

(** The path of the output file of a source. *)
Definition out_path_of (self : GUI.Worker) (source : text) : Path :=
  joinpath (GUI.output_dir self)
           (replace space underscore source ++ t ".mrc").

(** What the assembler returns for a list of files when it is not
    cancelled. *)
Definition assembled (w : World) (emd_dir : Path) (files : list Path)
  : result (option Volume) :=
  fst (load_images_sorted_by_alpha w emd_dir
         (mkCallbacks None None None : Callbacks unit) files (mkTrace [] 0)).

(** The output files of a list of sources: one for each source whose
    images assemble to a volume. *)
Definition outputs_of (w : World) (self : GUI.Worker) (sources : list text)
  : list (Path * Volume) :=
  flat_map (fun source =>
              match assembled w (GUI.emd_dir self) (files_of self source) with
              | Ok (Some v) => [(out_path_of self source, v)]
              | _ => []
              end) sources.

(** What a run of the worker can do after the first poll that is answered
    true, before its last two signals: log the cancellation at the head of
    the loop; or log the source that was being assembled as invalid, and
    then the cancellation at the head of the loop if a source is left. *)
Definition after_cancellation : list (list (entry GUI.effect)) :=
  let cancelled := Emitted (GUI.log ([128721%N] ++ t " Cancelled.")) in
  let skipped :=
    Emitted (GUI.log (warning_sign ++ t " Invalid data source, skipping.")) in
  [[cancelled]; [skipped; Polled true; cancelled]; [skipped]].

(** ** The calls of [scan_sources] *)

(** The items a sequence of calls adds to the list. *)
Definition added_items (calls : list GUI.ui) : list (text * text) :=
  flat_map (fun u => match u with
                     | GUI.list_add label data => [(label, data)]
                     | _ => []
                     end) calls.

(* ===================================================================== *)
(** * Worlds and inputs used to exercise the statements                   *)
(* ===================================================================== *)

Module Examples.

(** A world with no directory, no file and nothing that opens. *)
Definition io_error : exn := Exc (t "OSError") (t "unable to open file").

Definition empty_world : World :=
  mkWorld (fun _ => None) (fun _ => false)
          (fun _ => Raise io_error) (fun _ => Raise io_error)
          (fun _ _ => Raise io_error).

Definition data_dir : Path := parse_path (t "data/NiSi").




Definition image_t1 : Path := child data_dir (t "t1 Foo.png").

(** The float 12.5, that is 7036874417766400 * 2^-49, and its opposite. *)
Definition float_12_5 : float := S754_finite false 7036874417766400 (-49).
Definition float_minus_12_5 : float :=
  S754_finite true 7036874417766400 (-49).

(** Metadata texts: the angle -12.5 with the ASCII minus, 12.5 under a key
    in another case, and -12.5 with U+2212 for the minus. *)
Definition blob_ascii_minus : text :=
  t "{" ++ [dquote] ++ t "Stage" ++ [dquote] ++ t ": {" ++ [dquote]
    ++ t "alphaTilt" ++ [dquote] ++ t ": " ++ [dquote] ++ t "-12.5"
    ++ [dquote] ++ t "}}".

Definition blob_other_case : text :=
  [dquote] ++ t "AlphaTilt" ++ [dquote] ++ t ":" ++ [dquote] ++ t "12.5"
    ++ [dquote].

Definition blob_unicode_minus : text :=
  t "{" ++ [dquote] ++ t "Stage" ++ [dquote] ++ t ": {" ++ [dquote]
    ++ t "alphaTilt" ++ [dquote] ++ t ": " ++ [dquote]
    ++ [minus_sign] ++ t "12.5" ++ [dquote] ++ t "}}".

Definition emd_t1 : Path := child data_dir (t "t1.emd").

(** A world whose only container holds one metadata dataset with the given
    text. *)
Definition world_of_blob (blob : text) : World :=
  mkWorld (fun _ => None) (fun p => path_eqb p emd_t1)
          (fun p => if path_eqb p emd_t1
                    then Ok [mkNode (t "Data") false (Raise io_error);
                             mkNode (t "Data/Image/0/Metadata") true
                                    (Ok blob)]
                    else Raise io_error)
          (fun _ => Raise io_error) (fun _ _ => Raise io_error).

(** The scenario of three images [t1 Foo.png], [t2 Foo.png], [t3 Foo.png]
    whose containers hold the angles 10, -5 and 0, and a fourth image
    [t4 Foo.png] without container. Each image is one pixel, of value 1, 2,
    3 or 4. *)
Definition image_t2 : Path := child data_dir (t "t2 Foo.png").
Definition image_t3 : Path := child data_dir (t "t3 Foo.png").
Definition image_t4 : Path := child data_dir (t "t4 Foo.png").
Definition emd_t2 : Path := child data_dir (t "t2.emd").
Definition emd_t3 : Path := child data_dir (t "t3.emd").

Definition blob_of (number : text) : text :=
  t "{" ++ [dquote] ++ t "AlphaTilt" ++ [dquote] ++ t ": " ++ [dquote]
    ++ number ++ [dquote] ++ t "}".

Definition container_of (number : text) : list H5Node :=
  [mkNode (t "Data/Image/0/Metadata") true (Ok (blob_of number))].

Definition pixel (n : Z) : Array2 := mkArray2 (1, 1) [float_of_Z n].

Fixpoint assoc (A : Type) (l : list (Path * A)) (p : Path) : option A :=
  match l with
  | [] => None
  | (q, a) :: l' => if path_eqb p q then Some a else assoc l' p
  end.

Definition tilt_images : list (Path * Array2) :=
  [(image_t1, pixel 1); (image_t2, pixel 2); (image_t3, pixel 3);
   (image_t4, pixel 4)].

Definition tilt_containers : list (Path * list H5Node) :=
  [(emd_t1, container_of (t "10")); (emd_t2, container_of (t "-5"));
   (emd_t3, container_of (t "0"))].

Definition tilt_world : World :=
  mkWorld (fun p => if path_eqb p data_dir
                    then Some (map name (map fst tilt_images)
                                 ++ map name (map fst tilt_containers))
                    else None)
          (fun p => path_eqb p data_dir
                    || match assoc tilt_images p with
                       | Some _ => true | None => false end
                    || match assoc tilt_containers p with
                       | Some _ => true | None => false end)
          (fun p => match assoc tilt_containers p with
                    | Some nodes => Ok nodes
                    | None => Raise io_error
                    end)
          (fun p => match assoc tilt_images p with
                    | Some img => Ok img
                    | None => Raise io_error
                    end)
          (fun _ _ => Ok tt).

Definition tilt_files : list Path :=
  [image_t1; image_t2; image_t3; image_t4].

(** The same world with an image [t3 Foo.png] that does not decode. *)
Definition broken_world : World :=
  mkWorld (scandir tilt_world) (path_exists tilt_world)
          (h5py_File tilt_world)
          (fun p => if path_eqb p image_t3 then Raise io_error
                    else image_open tilt_world p)
          (mrc_write tilt_world).

(** The same world with a container [t2.emd] that is there and does not
    open. *)
Definition locked_world : World :=
  mkWorld (scandir tilt_world) (path_exists tilt_world)
          (fun p => if path_eqb p emd_t2 then Raise io_error
                    else h5py_File tilt_world p)
          (image_open tilt_world) (mrc_write tilt_world).

(** Callbacks that record nothing and never cancel, and callbacks that
    record and cancel at the fourth poll, or at the sixth. *)
Definition silent : Callbacks unit := mkCallbacks None None None.

Definition cancel_at_3 : Callbacks GUI.effect :=
  mkCallbacks (Some GUI.log) (Some GUI.progress) (Some (fun n => 3 <=? n)).

Definition cancel_at_5 : Callbacks GUI.effect :=
  mkCallbacks (Some GUI.log) (Some GUI.progress) (Some (fun n => 5 <=? n)).

Definition start : Trace GUI.effect := mkTrace [] 0.

(** A worker for the source [Foo] that is never cancelled, and one that is
    cancelled from its fourth poll on. *)
Definition foo_groups : Groups := [(t "Foo", tilt_files)].

Definition worker_foo : GUI.Worker :=
  GUI.mkWorker data_dir (parse_path (t "mrc_output")) [t "Foo"] foo_groups
               (fun _ => false).

Definition worker_cancelled : GUI.Worker :=
  GUI.mkWorker data_dir (parse_path (t "mrc_output")) [t "Foo"; t "Bar"]
               foo_groups (fun n => 3 <=? n).

(** A directory of three images of two sources and a text file. *)
Definition scan_world : World :=
  mkWorld (fun p => if path_eqb p data_dir
                    then Some [t "t1 Foo.png"; t "notes.txt"; t "t2 Foo.png";
                               t "a Bar.tif"]
                    else None)
          (fun p => path_eqb p data_dir)
          (fun _ => Raise io_error) (fun _ => Raise io_error)
          (fun _ _ => Raise io_error).

(** The world of the tilt series with an image [t2 Foo.png] of another
    shape. *)
Definition uneven_world : World :=
  mkWorld (scandir tilt_world) (path_exists tilt_world)
          (h5py_File tilt_world)
          (fun p => if path_eqb p image_t2
                    then Ok (mkArray2 (1, 2) [float_of_Z 2; float_of_Z 2])
                    else image_open tilt_world p)
          (mrc_write tilt_world).

End Examples.

(* ===================================================================== *)
(** * Properties of the string and path functions                         *)
(* ===================================================================== *)

Unset Implicit Arguments.

(** Bounds by the powers of two of the progress computations. *)
Ltac pow_bound :=
  first [lia
        |change (2 ^ 1)%Z with 2%Z; lia
        |change (2 ^ 7)%Z with 128%Z; lia].

(** Opens the three parts of [run_shape] for the added trace [l]. *)
Ltac shape_with l :=
  exists l; cbn [fst snd];
  split; [try rewrite app_nil_r; try reflexivity; try assumption
         |split; [try apply gen_nil; try assumption|]].

Section StringFacts.

Lemma char_eqb_eq (a b : char) : char_eqb a b = true <-> a = b.
Proof. unfold char_eqb. apply N.eqb_eq. Qed.

Lemma char_eqb_refl (a : char) : char_eqb a a = true.
Proof. apply char_eqb_eq. reflexivity. Qed.

Lemma text_eqb_eq (a b : text) : text_eqb a b = true <-> a = b.
Proof.
  revert b. induction a as [|x a IH]; intros [|y b]; simpl; split; intros H;
    try reflexivity; try discriminate.
  - apply andb_true_iff in H. destruct H as [H1 H2].
    apply char_eqb_eq in H1. apply IH in H2. congruence.
  - injection H as -> ->. rewrite char_eqb_refl. simpl. apply IH. reflexivity.
Qed.

Lemma text_eqb_refl (a : text) : text_eqb a a = true.
Proof. apply text_eqb_eq. reflexivity. Qed.

Lemma text_eqb_neq (a b : text) : text_eqb a b = false <-> a <> b.
Proof.
  split; intros H.
  - intros E. apply text_eqb_eq in E. congruence.
  - destruct (text_eqb a b) eqn:E; [|reflexivity].
    apply text_eqb_eq in E. contradiction.
Qed.

Lemma split_aux_tokens (s cur : text) :
  Forall (fun c => isspace c = false) cur ->
  Forall is_token (split_aux cur s).
Proof.
  revert cur. induction s as [|c s IH]; intros cur Hcur; simpl.
  - destruct cur as [|x cur]; [constructor|].
    constructor; [|constructor]. split.
    + intros E. apply (f_equal (@length _)) in E.
      rewrite length_rev in E. discriminate.
    + apply Forall_rev. exact Hcur.
  - destruct (isspace c) eqn:Hc.
    + destruct cur as [|x cur]; [apply IH; constructor|].
      constructor; [|apply IH; constructor]. split.
      * intros E. apply (f_equal (@length _)) in E.
        rewrite length_rev in E. discriminate.
      * apply Forall_rev. exact Hcur.
    + apply IH. constructor; assumption.
Qed.

Lemma split_tokens (s : text) : Forall is_token (split s).
Proof. apply split_aux_tokens. constructor. Qed.

Lemma last_Forall (A : Type) (P : A -> Prop) (l : list A) (d : A) :
  Forall P l -> l <> [] -> P (last l d).
Proof.
  induction l as [|x l IH]; intros H Hne; [contradiction|].
  inversion H; subst. destruct l as [|y l]; [assumption|].
  apply IH; [assumption|discriminate].
Qed.

Lemma replace_id (a b : char) (s : text) :
  Forall (fun c => c <> a) s -> replace a b s = s.
Proof.
  unfold replace. induction 1 as [|c s Hc _ IH]; simpl; [reflexivity|].
  rewrite IH. destruct (char_eqb c a) eqn:E; [|reflexivity].
  apply char_eqb_eq in E. contradiction.
Qed.

Lemma extract_source_no_space (filename : text) :
  Forall (fun c => isspace c = false) (extract_source_from_filename filename).
Proof.
  unfold extract_source_from_filename, last_item.
  pose proof (split_tokens (stem (parse_path filename))) as H.
  destruct (split (stem (parse_path filename))) as [|x l] eqn:E;
    [constructor|].
  apply (last_Forall _ is_token _ []) in H; [|discriminate].
  apply H.
Qed.

End StringFacts.

(** C10. For every file name, the source identifier the classifier returns
    holds no white-space character, and replacing spaces by underscores, as
    the worker does to name the output file, leaves it unchanged. *)
Theorem source_identifier_has_no_space :
  forall filename : text,
    Forall (fun c => isspace c = false)
           (extract_source_from_filename filename)
    /\ replace space underscore (extract_source_from_filename filename)
       = extract_source_from_filename filename.
Proof.
  intros filename.
  pose proof (extract_source_no_space filename) as H.
  split; [exact H|].
  apply replace_id.
  eapply Forall_impl; [|exact H].
  intros c Hc ->. discriminate.
Qed.

Section PathFacts.

Lemma split_slash_no_slash (s cur : text) :
  no_slash s -> split_slash cur s = [rev cur ++ s].
Proof.
  unfold no_slash. revert cur. induction s as [|c s IH]; intros cur H; simpl.
  - rewrite app_nil_r. reflexivity.
  - destruct (char_eqb c slash) eqn:E.
    + apply char_eqb_eq in E. subst c. exfalso. apply H. left. reflexivity.
    + rewrite IH.
      * simpl. rewrite <- app_assoc. reflexivity.
      * intros Hin. apply H. right. exact Hin.
Qed.

Lemma parse_parts_entry (s : text) :
  no_slash s -> s <> [] -> s <> [dot] -> parse_parts s = [s].
Proof.
  intros H Hne Hdot. unfold parse_parts.
  rewrite split_slash_no_slash by assumption. simpl.
  apply text_eqb_neq in Hne. apply text_eqb_neq in Hdot.
  rewrite Hne, Hdot. reflexivity.
Qed.

Lemma joinpath_entry (p : Path) (s : text) :
  no_slash s -> s <> [] -> s <> [dot] -> joinpath p s = child p s.
Proof.
  intros H Hne Hdot. unfold joinpath, child.
  rewrite parse_parts_entry by assumption.
  destruct s as [|c s]; [contradiction|].
  assert (E : startswith [slash] (c :: s) = false).
  { cbn [startswith]. destruct (char_eqb slash c) eqn:E; [|reflexivity].
    apply char_eqb_eq in E. subst c. exfalso. apply H. left. reflexivity. }
  rewrite E. reflexivity.
Qed.

Lemma split_aux_chars (s cur tok : text) (c : char) :
  In tok (split_aux cur s) -> In c tok -> In c cur \/ In c s.
Proof.
  revert cur. induction s as [|x s IH]; intros cur Htok Hc; simpl in Htok.
  - destruct cur as [|y cur]; [contradiction|].
    destruct Htok as [<-|[]]. left. apply in_rev. exact Hc.
  - destruct (isspace x).
    + destruct cur as [|y cur].
      * destruct (IH _ Htok Hc) as [[]|H]. right. right. exact H.
      * destruct Htok as [<-|Htok].
        -- left. apply in_rev. exact Hc.
        -- destruct (IH _ Htok Hc) as [[]|H]. right. right. exact H.
    + destruct (IH _ Htok Hc) as [[->|H]|H].
      * right. left. reflexivity.
      * left. exact H.
      * right. right. exact H.
Qed.

Lemma split_chars (s tok : text) (c : char) :
  In tok (split s) -> In c tok -> In c s.
Proof.
  intros Htok Hc. destruct (split_aux_chars _ _ _ _ Htok Hc) as [[]|H]. exact H.
Qed.

Lemma join_chars (sep : text) (l : list text) (c : char) :
  In c (join sep l) -> In c sep \/ exists tok, In tok l /\ In c tok.
Proof.
  induction l as [|x l IH]; simpl; [contradiction|].
  destruct l as [|y l].
  - intros H. right. exists x. split; [left; reflexivity|exact H].
  - intros H. apply in_app_or in H. destruct H as [H|H].
    + right. exists x. split; [left; reflexivity|exact H].
    + apply in_app_or in H. destruct H as [H|H]; [left; exact H|].
      destruct (IH H) as [H'|[tok [Ht Hc]]]; [left; exact H'|].
      right. exists tok. split; [right; exact Ht|exact Hc].
Qed.

Lemma stem_chars (p : Path) (c : char) : In c (stem p) -> In c (name p).
Proof.
  unfold stem. destruct (rfind dot (name p)) as [i|]; [|tauto].
  destruct ((0 <? i) && (i <? length (name p) - 1)); [|tauto].
  intros H. rewrite <- (firstn_skipn i (name p)).
  apply in_or_app. left. exact H.
Qed.

Lemma slice_drop_last_removelast (A : Type) (l : list A) :
  slice_drop_last l = removelast l.
Proof.
  unfold slice_drop_last. rewrite removelast_firstn_len.
  f_equal. lia.
Qed.

Lemma emd_name_is_entry (p : Path) (l : list text) :
  no_slash (name p) ->
  (forall tok, In tok l -> In tok (split (stem p))) ->
  let s := join [space] l ++ t ".emd" in
  no_slash s /\ s <> [] /\ s <> [dot].
Proof.
  intros Hns Hl s. split; [|split].
  - intros Hin. apply in_app_or in Hin. destruct Hin as [Hin|Hin].
    + apply join_chars in Hin. destruct Hin as [Hin|[tok [Ht Hc]]].
      * destruct Hin as [Hin|[]]. discriminate.
      * apply Hns. apply stem_chars. eapply split_chars; [|exact Hc].
        apply Hl. exact Ht.
    + simpl in Hin. repeat (destruct Hin as [Hin|Hin]; [discriminate|]).
      contradiction.
  - intros E. apply (f_equal (@length _)) in E. subst s.
    rewrite length_app in E. simpl in E. lia.
  - intros E. apply (f_equal (@length _)) in E. subst s.
    rewrite length_app in E. simpl in E. lia.
Qed.

Lemma In_removelast (A : Type) (l : list A) (x : A) :
  In x (removelast l) -> In x l.
Proof.
  induction l as [|y l IH]; simpl; [tauto|].
  destruct l as [|z l]; [contradiction|].
  intros [H|H]; [left; exact H|right; apply IH; exact H].
Qed.

End PathFacts.

(** C6. For an image whose stem has fewer than two white-space tokens, the
    metadata locator answers "not found" whatever the world holds. For a stem
    of two tokens or more, it looks up exactly one file, the entry of the
    metadata directory named by the tokens without the last one, joined by
    single spaces, followed by [.emd], and returns it if and only if it
    exists. *)
Theorem find_matching_emd_by_convention :
  forall (w : World) (img_path emd_dir : Path),
    let tokens := split (stem img_path) in
    (length tokens < 2 -> find_matching_emd w img_path emd_dir = None)
    /\ (2 <= length tokens -> no_slash (name img_path) ->
        let emd_path :=
          child emd_dir (join [space] (removelast tokens) ++ t ".emd") in
        find_matching_emd w img_path emd_dir
        = if path_exists w emd_path then Some emd_path else None).
Proof.
  intros w img_path emd_dir tokens. split.
  - intros H. unfold find_matching_emd. fold tokens.
    apply Nat.ltb_lt in H. rewrite H. reflexivity.
  - intros H Hns emd_path. unfold find_matching_emd. fold tokens.
    assert (H' : (length tokens <? 2) = false) by (apply Nat.ltb_ge; lia).
    rewrite H'. rewrite slice_drop_last_removelast.
    destruct (emd_name_is_entry img_path (removelast tokens) Hns)
      as [H1 [H2 H3]].
    { intros tok Ht. apply In_removelast. exact Ht. }
    cbv zeta. rewrite joinpath_entry by assumption. reflexivity.
Qed.

Lemma find_matching_emd_by_convention_witness :
  (length (split (stem Examples.image_t1)) < 2 ->
   find_matching_emd Examples.empty_world Examples.image_t1 Examples.data_dir
   = None)
  /\ find_matching_emd Examples.empty_world Examples.image_t1
                       Examples.data_dir
     = if path_exists Examples.empty_world
            (child Examples.data_dir (t "t1.emd"))
       then Some (child Examples.data_dir (t "t1.emd")) else None.
Proof.
  destruct (find_matching_emd_by_convention Examples.empty_world
              Examples.image_t1 Examples.data_dir) as [H1 H2].
  split; [exact H1|].
  apply H2.
  - vm_compute. lia.
  - vm_compute. intros H.
    repeat (destruct H as [H|H]; [discriminate|]). exact H.
Defined.

(* ===================================================================== *)
(** * The source grouper                                                  *)
(* ===================================================================== *)

Section GlobFacts.

Lemma startswith_iff (p s : text) :
  startswith p s = true <-> exists r, s = p ++ r.
Proof.
  revert s. induction p as [|x p IH]; intros s; simpl.
  - split; [intros _; exists s; reflexivity|reflexivity].
  - destruct s as [|y s].
    + split; [discriminate|intros [r Hr]; discriminate].
    + rewrite andb_true_iff, char_eqb_eq, IH. split.
      * intros [-> [r ->]]. exists r. reflexivity.
      * intros [r Hr]. injection Hr as -> ->. split; [reflexivity|].
        exists r. reflexivity.
Qed.

Lemma endswith_iff (suf s : text) :
  endswith suf s = true <-> exists pre, s = pre ++ suf.
Proof.
  unfold endswith. rewrite startswith_iff. split.
  - intros [r Hr]. exists (rev r).
    rewrite <- (rev_involutive s), Hr, rev_app_distr, rev_involutive.
    reflexivity.
  - intros [pre ->]. exists (rev pre). apply rev_app_distr.
Qed.

Lemma fnmatch_literal (pat n : text) :
  ~ In star pat -> (fnmatch pat n = true <-> n = pat).
Proof.
  revert n. induction pat as [|c pat IH]; intros n Hs; simpl.
  - destruct n; split; intros H; try reflexivity; discriminate.
  - destruct (char_eqb c star) eqn:E.
    + apply char_eqb_eq in E. subst c. exfalso. apply Hs. left. reflexivity.
    + destruct n as [|d n]; [split; discriminate|].
      rewrite andb_true_iff, char_eqb_eq, IH.
      * split; [intros [-> ->]; reflexivity|].
        intros H. injection H as -> ->. split; reflexivity.
      * intros H. apply Hs. right. exact H.
Qed.

Lemma fnmatch_star_suffix (suf n : text) :
  ~ In star suf ->
  (fnmatch (star :: suf) n = true <-> exists pre, n = pre ++ suf).
Proof.
  intros Hs. cbn [fnmatch]. rewrite char_eqb_refl.
  induction n as [|d n IH].
  - rewrite orb_false_r, (fnmatch_literal _ _ Hs). split.
    + intros <-. exists []. reflexivity.
    + intros [pre H]. symmetry in H. apply app_eq_nil in H. symmetry. apply H.
  - rewrite orb_true_iff, (fnmatch_literal _ _ Hs), IH. split.
    + intros [->|[pre ->]]; [exists []; reflexivity|].
      exists (d :: pre). reflexivity.
    + intros [[|x pre] H]; [left; exact H|].
      injection H as -> ->. right. exists pre. reflexivity.
Qed.

Lemma fnmatch_endswith (suf n : text) :
  ~ In star suf -> fnmatch (star :: suf) n = endswith suf n.
Proof.
  intros Hs. apply eq_true_iff_eq.
  rewrite (fnmatch_star_suffix _ _ Hs), endswith_iff. reflexivity.
Qed.

(** A name matches one of the five patterns exactly when it has one of the
    five extensions. *)
Lemma image_patterns_extensions (n : text) :
  existsb (fun pat => fnmatch pat n) image_patterns = has_image_extension n.
Proof.
  unfold has_image_extension, image_patterns, image_extensions.
  cbn [existsb].
  repeat
    match goal with
    | |- context [fnmatch (t ?s) n] =>
        change (t s) with (star :: dot :: tl (tl (t s)));
        rewrite (fnmatch_endswith (dot :: tl (tl (t s))) n)
          by (vm_compute; intros H;
              repeat (destruct H as [H|H]; [discriminate|]); exact H)
    end.
  reflexivity.
Qed.

(** No name matches two of the patterns. *)
Lemma image_patterns_disjoint (p q n : text) :
  In p image_patterns -> In q image_patterns ->
  fnmatch p n = true -> fnmatch q n = true -> p = q.
Proof.
  assert (Hs : forall x, In x image_patterns ->
                 exists suf, x = star :: suf /\ ~ In star suf).
  { intros x Hx. exists (tl x). unfold image_patterns in Hx. simpl in Hx.
    repeat (destruct Hx as [<-|Hx];
            [split; [reflexivity|vm_compute; intros H;
               repeat (destruct H as [H|H]; [discriminate|]); exact H]|]).
    contradiction. }
  intros Hp Hq.
  destruct (Hs p Hp) as [sp [Ep Hsp]]. destruct (Hs q Hq) as [sq [Eq Hsq]].
  subst p q. rewrite (fnmatch_endswith _ _ Hsp), (fnmatch_endswith _ _ Hsq).
  unfold endswith.
  unfold image_patterns in Hp, Hq. simpl in Hp, Hq.
  repeat (destruct Hp as [Hp|Hp]; [injection Hp as <-|]); try contradiction;
    repeat (destruct Hq as [Hq|Hq]; [injection Hq as <-|]);
    try contradiction; try reflexivity;
    destruct (rev n) as [|c1 [|c2 [|c3 [|c4 [|c5 r]]]]];
    cbn [rev app startswith t map list_ascii_of_string];
    intros H1 H2;
    repeat match goal with
           | H : _ && _ = true |- _ => apply andb_true_iff in H; destruct H
           | H : char_eqb _ _ = true |- _ => apply char_eqb_eq in H
           end;
    try discriminate; subst; discriminate.
Qed.

End GlobFacts.

Section GroupFacts.

Lemma get_setdefault_append (g : Groups) (s k : text) (img : Path) :
  get (setdefault_append g s img) k
  = if text_eqb k s
    then Some (match get g s with Some v => v ++ [img] | None => [img] end)
    else get g k.
Proof.
  induction g as [|[k' v] g IH]; simpl.
  - destruct (text_eqb k s); reflexivity.
  - destruct (text_eqb s k') eqn:E1; simpl.
    + apply text_eqb_eq in E1. subst k'.
      destruct (text_eqb k s); reflexivity.
    + rewrite IH. destruct (text_eqb k s) eqn:E2; [|reflexivity].
      apply text_eqb_eq in E2. subst k. rewrite E1. reflexivity.
Qed.

Lemma keys_setdefault_append (g : Groups) (s : text) (img : Path) :
  map fst (setdefault_append g s img)
  = if existsb (text_eqb s) (map fst g) then map fst g
    else map fst g ++ [s].
Proof.
  induction g as [|[k' v] g IH]; simpl; [reflexivity|].
  destruct (text_eqb s k') eqn:E; simpl; [reflexivity|].
  rewrite IH. destruct (existsb (text_eqb s) (map fst g)); reflexivity.
Qed.

Lemma NoDup_snoc (A : Type) (l : list A) (x : A) :
  NoDup l -> ~ In x l -> NoDup (l ++ [x]).
Proof.
  intros Hl Hx. apply NoDup_app.
  - exact Hl.
  - constructor; [intros []|constructor].
  - intros a Ha [<-|[]]. contradiction.
Qed.

Lemma NoDup_keys_setdefault_append (g : Groups) (s : text) (img : Path) :
  NoDup (map fst g) -> NoDup (map fst (setdefault_append g s img)).
Proof.
  intros H. rewrite keys_setdefault_append.
  destruct (existsb (text_eqb s) (map fst g)) eqn:E; [exact H|].
  apply NoDup_snoc; [exact H|].
  intros Hin. assert (E' : existsb (text_eqb s) (map fst g) = true).
  { apply existsb_exists. exists s. split; [exact Hin|apply text_eqb_refl]. }
  congruence.
Qed.

Lemma get_In (g : Groups) (k : text) (v : list Path) :
  get g k = Some v -> In (k, v) g.
Proof.
  induction g as [|[k' v'] g IH]; simpl; [discriminate|].
  destruct (text_eqb k k') eqn:E.
  - apply text_eqb_eq in E. subst k'. intros H. injection H as ->.
    left. reflexivity.
  - intros H. right. apply IH. exact H.
Qed.

Lemma In_get (g : Groups) (k : text) (v : list Path) :
  NoDup (map fst g) -> In (k, v) g -> get g k = Some v.
Proof.
  induction g as [|[k' v'] g IH]; simpl; [intros _ []|].
  intros Hnd Hin. inversion Hnd as [|? ? Hn Hd]; subst.
  destruct Hin as [Hin|Hin].
  - injection Hin as -> ->. rewrite text_eqb_refl. reflexivity.
  - destruct (text_eqb k k') eqn:E.
    + apply text_eqb_eq in E. subst k'. exfalso. apply Hn.
      apply (in_map fst) in Hin. exact Hin.
    + apply IH; assumption.
Qed.

Lemma grouping_snoc (images : list Path) (img : Path) :
  grouping (images ++ [img])
  = setdefault_append (grouping images)
      (extract_source_from_filename (name img)) img.
Proof. unfold grouping. rewrite fold_left_app. reflexivity. Qed.

Lemma NoDup_keys_grouping (images : list Path) :
  NoDup (map fst (grouping images)).
Proof.
  induction images as [|img images IH] using rev_ind.
  - constructor.
  - rewrite grouping_snoc. apply NoDup_keys_setdefault_append. exact IH.
Qed.

Lemma group_value_snoc (l : list Path) (x : Path) :
  Some (match group_value l with Some v => v ++ [x] | None => [x] end)
  = group_value (l ++ [x]).
Proof.
  destruct l as [|y l]; simpl; [reflexivity|]. reflexivity.
Qed.

(** What the dict holds for every key after the loop. *)
Lemma get_grouping (images : list Path) (k : text) :
  get (grouping images) k = group_value (classified k images).
Proof.
  induction images as [|img images IH] using rev_ind.
  - reflexivity.
  - rewrite grouping_snoc, get_setdefault_append.
    unfold classified in *. rewrite filter_app. simpl.
    destruct (text_eqb k (extract_source_from_filename (name img))) eqn:E.
    + apply text_eqb_eq in E. subst k. rewrite text_eqb_refl.
      rewrite IH. apply group_value_snoc.
    + assert (E' : text_eqb (extract_source_from_filename (name img)) k
                   = false).
      { apply text_eqb_neq. apply text_eqb_neq in E. congruence. }
      rewrite E', app_nil_r. exact IH.
Qed.

Lemma group_value_Some (l v : list Path) :
  group_value l = Some v -> v = l /\ l <> [].
Proof.
  destruct l; simpl; [discriminate|]. intros H. injection H as <-.
  split; [reflexivity|discriminate].
Qed.

End GroupFacts.

Section ScanFacts.

Lemma name_child (dir : Path) (n : text) : name (child dir n) = n.
Proof. unfold name, child. simpl. apply last_last. Qed.

Lemma child_inj (dir : Path) (n n' : text) :
  child dir n = child dir n' -> n = n'.
Proof.
  unfold child. intros H. injection H as H.
  apply app_inj_tail in H. apply H.
Qed.

(** The names the five globs yield, in the order of the loop. *)
Lemma scan_images_names (w : World) (dir : Path) :
  scan_images w dir
  = map (child dir)
        (flat_map (fun pat => filter (fnmatch pat) (listing w dir))
                  image_patterns).
Proof.
  unfold scan_images, glob, listing, image_patterns.
  destruct (scandir w dir) as [entries|]; [|reflexivity].
  cbn [fold_left flat_map app]. rewrite !map_app, app_nil_r.
  rewrite !app_assoc. reflexivity.
Qed.

Lemma NoDup_image_patterns : NoDup image_patterns.
Proof.
  unfold image_patterns.
  repeat (constructor;
          [intros H; simpl in H;
           repeat (destruct H as [H|H]; [discriminate|]); exact H|]).
  constructor.
Qed.

Lemma NoDup_flat_map_filter (ps entries : list text) :
  NoDup ps ->
  (forall p q n, In p ps -> In q ps ->
                 fnmatch p n = true -> fnmatch q n = true -> p = q) ->
  NoDup entries ->
  NoDup (flat_map (fun pat => filter (fnmatch pat) entries) ps).
Proof.
  intros Hps Hdis He. induction ps as [|p ps IH]; simpl; [constructor|].
  inversion Hps as [|? ? Hn Hd]; subst.
  apply NoDup_app.
  - apply NoDup_filter. exact He.
  - apply IH; [exact Hd|].
    intros p' q n Hp Hq. apply Hdis; right; assumption.
  - intros a Ha Hb. apply filter_In in Ha. destruct Ha as [_ Ha].
    apply in_flat_map in Hb. destruct Hb as [q [Hq Hb]].
    apply filter_In in Hb. destruct Hb as [_ Hb].
    apply Hn. rewrite (Hdis p q a); auto; [left; reflexivity|right; exact Hq].
Qed.

Lemma In_scanned_names (entries : list text) (n : text) :
  In n (flat_map (fun pat => filter (fnmatch pat) entries) image_patterns)
  <-> In n entries /\ has_image_extension n = true.
Proof.
  rewrite <- image_patterns_extensions, in_flat_map, existsb_exists. split.
  - intros [pat [Hp Hin]]. apply filter_In in Hin. destruct Hin as [Hin Hm].
    split; [exact Hin|]. exists pat. split; assumption.
  - intros [Hin [pat [Hp Hm]]]. exists pat. split; [exact Hp|].
    apply filter_In. split; assumption.
Qed.

Lemma NoDup_scan_images (w : World) (dir : Path) :
  NoDup (listing w dir) -> NoDup (scan_images w dir).
Proof.
  intros H. rewrite scan_images_names.
  apply Finite.Injective_map_NoDup.
  - intros n n'. apply child_inj.
  - apply NoDup_flat_map_filter;
      [apply NoDup_image_patterns | | exact H].
    intros p q n. apply image_patterns_disjoint.
Qed.

Lemma In_scan_images (w : World) (dir : Path) (img : Path) :
  In img (scan_images w dir)
  <-> exists n, img = child dir n /\ In n (listing w dir)
                /\ has_image_extension n = true.
Proof.
  rewrite scan_images_names, in_map_iff. split.
  - intros [n [<- Hn]]. exists n. split; [reflexivity|].
    apply In_scanned_names. exact Hn.
  - intros [n [-> Hn]]. exists n. split; [reflexivity|].
    apply In_scanned_names. exact Hn.
Qed.

Lemma In_classified (k : text) (images : list Path) (img : Path) :
  In img (classified k images)
  <-> In img images /\ extract_source_from_filename (name img) = k.
Proof.
  unfold classified. rewrite filter_In, text_eqb_eq. reflexivity.
Qed.

End ScanFacts.

(** C5. Grouping is a partition of the image files the scan enumerates: the
    keys of the mapping are distinct and are exactly the classifier's outputs
    on the entries of the directory that end with one of the five
    extensions; every such entry is in the group of its own classifier
    output, once, and in no other group; and a group holds nothing but such
    entries. *)
Theorem grouping_is_a_partition :
  forall (w : World) (image_dir : Path) (groups : Groups),
    NoDup (listing w image_dir) ->
    group_images_by_source w image_dir = Ok groups ->
    NoDup (map fst groups)
    /\ (forall k,
           In k (map fst groups) <->
           exists n, In n (listing w image_dir)
                     /\ has_image_extension n = true
                     /\ extract_source_from_filename n = k)
    /\ (forall n,
           In n (listing w image_dir) -> has_image_extension n = true ->
           exists files,
             get groups (extract_source_from_filename n) = Some files
             /\ In (child image_dir n) files
             /\ NoDup files
             /\ forall k files',
                 In (k, files') groups -> In (child image_dir n) files' ->
                 k = extract_source_from_filename n)
    /\ (forall k files img,
           In (k, files) groups -> In img files ->
           exists n, img = child image_dir n
                     /\ In n (listing w image_dir)
                     /\ has_image_extension n = true
                     /\ extract_source_from_filename n = k).
Proof.
  intros w image_dir groups Hnd Hg.
  unfold group_images_by_source in Hg. injection Hg as <-.
  fold (grouping (scan_images w image_dir)).
  set (images := scan_images w image_dir).
  pose proof (NoDup_keys_grouping images) as Hkeys.
  assert (Hmem : forall k files,
             In (k, files) (grouping images) -> files = classified k images
                                                /\ files <> []).
  { intros k files Hin. apply (In_get _ _ _ Hkeys) in Hin.
    rewrite get_grouping in Hin. apply group_value_Some in Hin.
    destruct Hin as [-> Hne]. split; [reflexivity|exact Hne]. }
  split; [exact Hkeys|]. split; [|split].
  - intros k. split.
    + intros Hk. apply in_map_iff in Hk. destruct Hk as [[k' files] [Ek Hin]].
      simpl in Ek. subst k'. destruct (Hmem _ _ Hin) as [-> Hne].
      destruct (classified k images) as [|img l] eqn:E; [contradiction|].
      assert (Himg : In img (classified k images))
        by (rewrite E; left; reflexivity).
      apply In_classified in Himg. destruct Himg as [Himg Hk].
      apply In_scan_images in Himg. destruct Himg as [n [-> [Hn He]]].
      rewrite name_child in Hk. exists n. auto.
    + intros [n [Hn [He Hk]]].
      assert (Himg : In (child image_dir n) (classified k images)).
      { apply In_classified. split; [|rewrite name_child; exact Hk].
        apply In_scan_images. exists n. auto. }
      pose proof (get_grouping images k) as Hget.
      destruct (classified k images) as [|x l] eqn:E; [contradiction|].
      simpl in Hget. apply get_In in Hget.
      apply (in_map fst) in Hget. exact Hget.
  - intros n Hn He.
    set (k := extract_source_from_filename n).
    assert (Himg : In (child image_dir n) (classified k images)).
    { apply In_classified. split; [|rewrite name_child; reflexivity].
      apply In_scan_images. exists n. auto. }
    exists (classified k images). split; [|split; [exact Himg|split]].
    + rewrite get_grouping.
      destruct (classified k images); [contradiction|reflexivity].
    + apply NoDup_filter. apply NoDup_scan_images. exact Hnd.
    + intros k' files' Hin Hmem'. destruct (Hmem _ _ Hin) as [-> _].
      apply In_classified in Hmem'. destruct Hmem' as [_ Hk'].
      rewrite name_child in Hk'. symmetry. exact Hk'.
  - intros k files img Hin Himg. destruct (Hmem _ _ Hin) as [-> _].
    apply In_classified in Himg. destruct Himg as [Himg Hk].
    apply In_scan_images in Himg. destruct Himg as [n [-> [Hn He]]].
    rewrite name_child in Hk. exists n. auto.
Qed.

Lemma grouping_is_a_partition_witness :
  NoDup (map fst
           [(t "Foo", [child Examples.data_dir (t "t1 Foo.png");
                       child Examples.data_dir (t "t2 Foo.png")]);
            (t "Bar", [child Examples.data_dir (t "a Bar.tif")])]).
Proof.
  refine (proj1 (grouping_is_a_partition Examples.scan_world
                   Examples.data_dir _ _ _)).
  - vm_compute.
    repeat (constructor;
            [intros H; simpl in H;
             repeat (destruct H as [H|H]; [discriminate|]); exact H|]).
    constructor.
  - vm_compute. reflexivity.
Defined.

Section OsFacts.
Variable fs : FileSystem.
Variable image_dir : Path.



End OsFacts.




(* ===================================================================== *)
(** * The pattern and what its group captures                             *)
(* ===================================================================== *)

Section PatternFacts.

Lemma star_k_sound (A : Type) (f : char -> bool) (k : text -> option A)
      (s : text) (x : A) :
  star_k f k s = Some x ->
  exists pre rest,
    s = pre ++ rest /\ Forall (fun c => f c = true) pre /\ k rest = Some x.
Proof.
  induction s as [|c s IH]; cbn [star_k].
  - intros H. exists [], []. repeat split; [constructor|exact H].
  - destruct (f c) eqn:Hc.
    + destruct (star_k f k s) as [y|] eqn:Hs.
      * intros H. injection H as ->.
        destruct (IH eq_refl) as [pre [rest [-> [HF Hk]]]].
        exists (c :: pre), rest. repeat split; [|exact Hk].
        constructor; assumption.
      * intros H. exists [], (c :: s). repeat split; [constructor|exact H].
    + intros H. exists [], (c :: s). repeat split; [constructor|exact H].
Qed.

(** Whatever the matcher accepts, the pattern can consume. *)
Lemma match_k_sound (A : Type) (r : regex) :
  forall (s : text) (g : option text)
         (k : text -> option text -> option A) (x : A),
    match_k r s g k = Some x ->
    exists pre rest g',
      s = pre ++ rest /\ consumes r g pre g' /\ k rest g' = Some x.
Proof.
  induction r as [|a|a|a|a|r1 IH1 r2 IH2|r1 IH1]; intros s g k x;
    cbn [match_k].
  - intros H. exists [], s, g. repeat split; [constructor|exact H].
  - destruct s as [|c s]; [discriminate|].
    destruct (atom_match a c) eqn:Ha; [|discriminate].
    intros H. exists [c], s, g. repeat split; [|exact H].
    constructor. exact Ha.
  - destruct s as [|c s].
    + intros H. exists [], [], g. repeat split; [constructor|exact H].
    + destruct (atom_match a c) eqn:Ha.
      * destruct (k s g) as [y|] eqn:Hk.
        -- intros H. injection H as ->. exists [c], s, g.
           repeat split; [|exact Hk]. apply consumes_opt_some. exact Ha.
        -- intros H. exists [], (c :: s), g.
           repeat split; [constructor|exact H].
      * intros H. exists [], (c :: s), g.
        repeat split; [constructor|exact H].
  - intros H. apply star_k_sound in H.
    destruct H as [pre [rest [-> [HF Hk]]]].
    exists pre, rest, g. repeat split; [|exact Hk].
    constructor. exact HF.
  - destruct s as [|c s]; [discriminate|].
    destruct (atom_match a c) eqn:Ha; [|discriminate].
    intros H. apply star_k_sound in H.
    destruct H as [pre [rest [-> [HF Hk]]]].
    exists (c :: pre), rest, g. repeat split; [|exact Hk].
    constructor; assumption.
  - intros H. apply IH1 in H. destruct H as [p1 [rest1 [g1 [-> [C1 H]]]]].
    apply IH2 in H. destruct H as [p2 [rest2 [g2 [-> [C2 H]]]]].
    exists (p1 ++ p2), rest2, g2.
    split; [rewrite app_assoc; reflexivity|].
    split; [econstructor; eassumption|exact H].
  - intros H. apply IH1 in H. destruct H as [pre [rest [g1 [-> [C1 H]]]]].
    rewrite length_app, Nat.add_sub, firstn_app, Nat.sub_diag,
      firstn_all in H.
    simpl in H. rewrite app_nil_r in H.
    exists pre, rest, (Some pre). repeat split; [|exact H].
    econstructor. exact C1.
Qed.

Lemma search_sound (r : regex) (s : text) (og : option text) :
  search r s = Some og -> exists pre, consumes r None pre og.
Proof.
  induction s as [|c s IH]; cbn [search].
  - destruct (match_at r []) as [g|] eqn:Hm; [|discriminate].
    intros H. injection H as ->. unfold match_at in Hm.
    apply match_k_sound in Hm. destruct Hm as [pre [rest [g' [_ [C H]]]]].
    injection H as ->. exists pre. exact C.
  - destruct (match_at r (c :: s)) as [g|] eqn:Hm; [|exact IH].
    intros H. injection H as ->. unfold match_at in Hm.
    apply match_k_sound in Hm. destruct Hm as [pre [rest [g' [_ [C H]]]]].
    injection H as ->. exists pre. exact C.
Qed.

Lemma consumes_lits (s pre : text) (g g' : option text) :
  consumes (lits s) g pre g' -> g' = g.
Proof.
  revert pre g'. induction s as [|c s IH]; intros pre g' H; cbn [lits] in H.
  - inversion H. reflexivity.
  - inversion H as [| | | | | |r1 r2 g0 s1 g1 s2 g2 H1 H2|]; subst.
    inversion H1; subst. eapply IH. exact H2.
Qed.

Lemma lit_match_uncased (p c : char) :
  p = minus_sign \/ p = hyphen_minus \/ p = dot ->
  lit_match p c = true -> c = p.
Proof.
  intros Hp. unfold lit_match.
  assert (Hlo : ascii_lower p = p)
    by (destruct Hp as [-> | [-> | ->]]; reflexivity).
  rewrite Hlo.
  assert (H1 : char_eqb p 105%N = false /\ char_eqb p 115%N = false
               /\ char_eqb p 107%N = false)
    by (destruct Hp as [-> | [-> | ->]]; repeat split; reflexivity).
  destruct H1 as [-> [-> ->]]. cbn [andb]. rewrite !orb_false_r.
  unfold ascii_lower, in_range, char_eqb.
  destruct (N.leb 65 c && N.leb c 90)%N eqn:Er;
    rewrite ?orb_true_iff, ?N.eqb_eq;
    try (apply andb_true_iff in Er; rewrite !N.leb_le in Er);
    destruct Hp as [-> | [-> | ->]];
    unfold minus_sign, hyphen_minus, dot; lia.
Qed.

(** The group always takes part in a match, and what it holds has the
    shape of a number with an optional U+2212 in front. *)
Lemma alphatilt_group (pre : text) (og : option text) :
  consumes alphatilt_re None pre og -> exists g, og = Some g /\ group_shape g.
Proof.
  unfold alphatilt_re. intros H.
  repeat match goal with
         | H : consumes (Seq (lits _) _) _ _ _ |- _ =>
             inversion H as [| | | | | |? ? ? ? ? ? ? HL HR|]; subst; clear H;
             apply consumes_lits in HL; subst
         | H : consumes (Seq _ _) _ _ _ |- _ =>
             inversion H; subst; clear H
         | H : consumes (Group _) _ _ _ |- _ => inversion H; subst; clear H
         | H : consumes (One _) _ _ _ |- _ => inversion H; subst; clear H
         | H : consumes (Star _) _ _ _ |- _ => inversion H; subst; clear H
         | H : consumes (Plus _) _ _ _ |- _ => inversion H; subst; clear H
         end.
  eexists. split; [|].
  - match goal with
    | H : consumes (Opt (Lit dquote)) _ _ _ |- _ =>
        inversion H; subst; reflexivity
    end.
  - repeat match goal with
           | H : consumes (Opt (Lit dquote)) _ _ _ |- _ => clear H
           end.
    match goal with
    | H1 : consumes (Opt (Lit minus_sign)) _ ?m _,
      H2 : consumes (Opt (Lit hyphen_minus)) _ ?h _,
      H3 : consumes (Opt (Lit dot)) _ ?d _,
      HD1 : Forall _ ?ip, HD2 : Forall _ ?fp, HC : atom_match Digit ?c = true
      |- group_shape (?m ++ ?h ++ (?c :: ?ip) ++ ?d ++ ?fp) =>
        exists m, h, (c :: ip), d, fp;
        split; [reflexivity|];
        split; [inversion H1; subst; [left; reflexivity|right];
                match goal with
                | Hm : atom_match (Lit minus_sign) ?x = true |- _ =>
                    apply lit_match_uncased in Hm; [subst; reflexivity|tauto]
                end|];
        split; [inversion H2; subst; [left; reflexivity|right];
                match goal with
                | Hm : atom_match (Lit hyphen_minus) ?x = true |- _ =>
                    apply lit_match_uncased in Hm; [subst; reflexivity|tauto]
                end|];
        split; [discriminate|];
        split; [constructor; assumption|];
        split; [inversion H3; subst; [left; reflexivity|right];
                match goal with
                | Hm : atom_match (Lit dot) ?x = true |- _ =>
                    apply lit_match_uncased in Hm; [subst; reflexivity|tauto]
                end|assumption]
    end.
Qed.

Lemma search_alphatilt_group (txt : text) (og : option text) :
  search alphatilt_re txt = Some og -> exists g, og = Some g /\ group_shape g.
Proof.
  intros H. apply search_sound in H. destruct H as [pre H].
  apply (alphatilt_group pre). exact H.
Qed.

Lemma star_k_greedy (A : Type) (f : char -> bool) (k : text -> option A)
      (run rest : text) (x : A) :
  Forall (fun c => f c = true) run -> not_headed f rest ->
  k rest = Some x -> star_k f k (run ++ rest) = Some x.
Proof.
  intros Hrun Hrest Hk. induction Hrun as [|c run Hc _ IH].
  - destruct rest as [|c rest]; cbn [app star_k]; [exact Hk|].
    simpl in Hrest. rewrite Hrest. exact Hk.
  - cbn [app star_k]. rewrite Hc, IH. reflexivity.
Qed.

Lemma match_k_lits (A : Type) (ps cs s : text) (g : option text)
      (k : text -> option text -> option A) :
  Forall2 (fun p c => lit_match p c = true) ps cs ->
  match_k (lits ps) (cs ++ s) g k = k s g.
Proof.
  induction 1 as [|p c ps cs Hpc _ IH]; [reflexivity|].
  cbn [lits app match_k atom_match]. rewrite Hpc. exact IH.
Qed.

Lemma match_k_opt_take (A : Type) (p c : char) (s : text) (g : option text)
      (k : text -> option text -> option A) (x : A) :
  lit_match p c = true -> k s g = Some x ->
  match_k (Opt (Lit p)) (c :: s) g k = Some x.
Proof.
  intros Hm Hk. cbn [match_k atom_match]. rewrite Hm, Hk. reflexivity.
Qed.

Lemma match_k_opt_skip (A : Type) (p : char) (s : text) (g : option text)
      (k : text -> option text -> option A) :
  not_headed (lit_match p) s ->
  match_k (Opt (Lit p)) s g k = k s g.
Proof.
  intros Hs. destruct s as [|c s]; [reflexivity|].
  cbn [match_k atom_match]. simpl in Hs. rewrite Hs. reflexivity.
Qed.

Lemma lit_match_dquote (c : char) : lit_match dquote c = true -> c = dquote.
Proof.
  unfold lit_match.
  change (ascii_lower dquote) with dquote.
  change (char_eqb dquote 105%N) with false.
  change (char_eqb dquote 115%N) with false.
  change (char_eqb dquote 107%N) with false.
  cbn [andb]. rewrite !orb_false_r.
  unfold ascii_lower, in_range, char_eqb.
  destruct (N.leb 65 c && N.leb c 90)%N eqn:Er;
    rewrite ?orb_true_iff, ?N.eqb_eq;
    try (apply andb_true_iff in Er; rewrite !N.leb_le in Er);
    unfold dquote; lia.
Qed.

Lemma lit_match_lower (p c : char) :
  ascii_lower p = p -> ascii_lower c = p -> lit_match p c = true.
Proof.
  intros Hp Hc. unfold lit_match. rewrite Hp, Hc, char_eqb_refl.
  rewrite orb_true_r. reflexivity.
Qed.

(** The key in any ASCII case matches the key of the pattern. *)
Lemma key_any_case (key : text) :
  map ascii_lower key = t "alphatilt" ->
  Forall2 (fun p c => lit_match p c = true) (t "alphatilt") key.
Proof.
  intros H.
  assert (Hl : Forall (fun p => ascii_lower p = p) (t "alphatilt"))
    by (repeat constructor).
  rewrite <- H in *. clear H.
  induction key as [|c key IH]; [constructor|].
  cbn [map] in *. inversion Hl; subst.
  constructor; [apply lit_match_lower; [assumption|reflexivity]|].
  apply IH. assumption.
Qed.

Lemma match_k_seq (A : Type) (r1 r2 : regex) (s : text) (g : option text)
      (k : text -> option text -> option A) :
  match_k (Seq r1 r2) s g k
  = match_k r1 s g (fun s' g' => match_k r2 s' g' k).
Proof. reflexivity. Qed.

Lemma match_k_star (A : Type) (a : atom) (s : text) (g : option text)
      (k : text -> option text -> option A) :
  match_k (Star a) s g k = star_k (atom_match a) (fun s' => k s' g) s.
Proof. reflexivity. Qed.

Lemma match_k_plus (A : Type) (a : atom) (c : char) (s : text)
      (g : option text) (k : text -> option text -> option A) :
  atom_match a c = true ->
  match_k (Plus a) (c :: s) g k
  = star_k (atom_match a) (fun s' => k s' g) s.
Proof. intros H. cbn [match_k]. rewrite H. reflexivity. Qed.

Lemma match_k_one (A : Type) (a : atom) (c : char) (s : text)
      (g : option text) (k : text -> option text -> option A) :
  atom_match a c = true -> match_k (One a) (c :: s) g k = k s g.
Proof. intros H. cbn [match_k]. rewrite H. reflexivity. Qed.

Lemma match_k_group (A : Type) (r : regex) (s : text) (g : option text)
      (k : text -> option text -> option A) :
  match_k (Group r) s g k
  = match_k r s g
            (fun s' _ => k s' (Some (firstn (length s - length s') s))).
Proof. reflexivity. Qed.

Lemma isspace_not_decimal (c : char) :
  isspace c = true -> isdecimal c = false.
Proof.
  intros H.
  assert (Hin : In c [9; 10; 11; 12; 13; 28; 29; 30; 31; 32; 133; 160; 5760;
                      8192; 8193; 8194; 8195; 8196; 8197; 8198; 8199; 8200;
                      8201; 8202; 8232; 8233; 8239; 8287; 12288]%N).
  { unfold isspace, in_range in H.
    repeat rewrite ?orb_true_iff, ?andb_true_iff, ?N.leb_le, ?N.eqb_eq in H.
    cbn [In]. lia. }
  cbn [In] in Hin.
  repeat (destruct Hin as [<-|Hin]; [reflexivity|]). contradiction.
Qed.

Lemma decimal_not_lit (p c : char) :
  p = minus_sign \/ p = hyphen_minus \/ p = dot ->
  isdecimal c = true -> lit_match p c = false.
Proof.
  intros Hp Hc. destruct (lit_match p c) eqn:E; [|reflexivity].
  apply (lit_match_uncased p c Hp) in E. subst c.
  destruct Hp as [-> | [-> | ->]]; vm_compute in Hc; discriminate.
Qed.

Lemma decimal_not_dquote (c : char) :
  isdecimal c = true -> lit_match dquote c = false.
Proof.
  intros Hc. destruct (lit_match dquote c) eqn:E; [|reflexivity].
  apply lit_match_dquote in E. subst c. vm_compute in Hc. discriminate.
Qed.

Lemma decimal_not_space (c : char) :
  isdecimal c = true -> isspace c = false.
Proof.
  intros Hc. destruct (isspace c) eqn:E; [|reflexivity].
  apply isspace_not_decimal in E. congruence.
Qed.

(** A key/value pair at the head of a text is matched whatever the ASCII
    case of the key, with any white space around the colon and with or
    without a quote before the number, and the group is the number: an
    optional ASCII minus, digits, and optionally a dot and more digits, up
    to a character that cannot go on the number. *)
Lemma search_pair (key ws1 ws2 q1 h ip tail rest : text) :
  map ascii_lower key = t "alphatilt" ->
  Forall (fun c => isspace c = true) ws1 ->
  Forall (fun c => isspace c = true) ws2 ->
  (q1 = [] \/ q1 = [dquote]) ->
  (h = [] \/ h = [hyphen_minus]) ->
  ip <> [] -> Forall (fun c => isdecimal c = true) ip ->
  (tail = [] \/ exists fp,
      tail = dot :: fp /\ Forall (fun c => isdecimal c = true) fp) ->
  not_headed isdecimal rest ->
  (tail = [] -> not_headed (lit_match dot) rest) ->
  search alphatilt_re
         ([dquote] ++ key ++ [dquote] ++ ws1 ++ [colon] ++ ws2 ++ q1
                   ++ h ++ ip ++ tail ++ rest)
  = Some (Some (h ++ ip ++ tail)).
Proof.
  intros Hkey Hws1 Hws2 Hq1 Hh Hne Hip Htail Hrest Hdot.
  destruct ip as [|d0 ip]; [contradiction|].
  inversion Hip as [|? ? Hd0 Hip']; subst.
  set (number := h ++ (d0 :: ip) ++ tail).
  set (kf := fun (_ : text) (g : option text) => Some g).
  (* the closing quote, taken or not *)
  assert (S7 : forall s g, match_k (Opt (Lit dquote)) s g kf = Some g).
  { intros [|c s] g; cbn [match_k]; [reflexivity|].
    destruct (atom_match (Lit dquote) c); reflexivity. }
  (* the continuation of the group, at the end of the number *)
  set (kG := fun (s' : text) (_ : option text) =>
               match_k (Opt (Lit dquote)) s'
                 (Some (firstn (length (number ++ rest) - length s')
                               (number ++ rest))) kf).
  assert (SG : forall g, kG rest g = Some (Some number)).
  { intros g. unfold kG. rewrite S7.
    rewrite length_app, Nat.add_sub, firstn_app, Nat.sub_diag, firstn_all.
    simpl. rewrite app_nil_r. reflexivity. }
  (* the digits after the dot *)
  assert (S5 : match_k (Seq (Opt (Lit dot)) (Star Digit)) (tail ++ rest)
                       None kG = Some (Some number)).
  { rewrite match_k_seq. destruct Htail as [->|[fp [-> Hfp]]].
    - cbn [app]. rewrite (match_k_opt_skip _ dot rest None _ (Hdot eq_refl)).
      rewrite match_k_star.
      apply (star_k_greedy _ (atom_match Digit) _ [] rest);
        [constructor|exact Hrest|apply SG].
    - cbn [app]. apply match_k_opt_take; [reflexivity|].
      rewrite match_k_star.
      apply star_k_greedy; [exact Hfp|exact Hrest|apply SG]. }
  (* the digits before the dot *)
  assert (S3 : match_k (Seq (Plus Digit)
                            (Seq (Opt (Lit dot)) (Star Digit)))
                       ((d0 :: ip) ++ tail ++ rest) None kG
               = Some (Some number)).
  { rewrite match_k_seq. cbn [app]. rewrite match_k_plus by exact Hd0.
    apply star_k_greedy; [exact Hip'| |exact S5].
    destruct Htail as [->|[fp [-> _]]]; [exact Hrest|reflexivity]. }
  (* the ASCII minus *)
  assert (S2 : match_k (Seq (Opt (Lit hyphen_minus))
                            (Seq (Plus Digit)
                                 (Seq (Opt (Lit dot)) (Star Digit))))
                       (h ++ (d0 :: ip) ++ tail ++ rest) None kG
               = Some (Some number)).
  { rewrite match_k_seq. destruct Hh as [->| ->].
    - cbn [app]. rewrite match_k_opt_skip; [exact S3|].
      simpl. apply decimal_not_lit; [tauto|exact Hd0].
    - cbn [app]. apply match_k_opt_take; [reflexivity|exact S3]. }
  (* no U+2212 in front *)
  assert (S1 : match_k (Seq (Opt (Lit minus_sign))
                            (Seq (Opt (Lit hyphen_minus))
                                 (Seq (Plus Digit)
                                      (Seq (Opt (Lit dot)) (Star Digit)))))
                       (h ++ (d0 :: ip) ++ tail ++ rest) None kG
               = Some (Some number)).
  { rewrite match_k_seq. rewrite match_k_opt_skip; [exact S2|].
    destruct Hh as [->| ->]; simpl.
    - apply decimal_not_lit; [tauto|exact Hd0].
    - reflexivity. }
  (* the group *)
  assert (S6 : match_k
                 (Seq (Group
                         (Seq (Opt (Lit minus_sign))
                              (Seq (Opt (Lit hyphen_minus))
                                   (Seq (Plus Digit)
                                        (Seq (Opt (Lit dot))
                                             (Star Digit))))))
                      (Opt (Lit dquote)))
                 (number ++ rest) None kf = Some (Some number)).
  { rewrite match_k_seq, match_k_group. fold kG.
    unfold number at 1. rewrite <- !app_assoc. exact S1. }
  assert (Hhead : not_headed isspace (q1 ++ number ++ rest)
                  /\ not_headed (lit_match dquote) (number ++ rest)).
  { unfold number.
    destruct Hq1 as [->| ->]; destruct Hh as [->| ->]; cbn [app];
      simpl; split; try reflexivity;
      first [apply decimal_not_space; exact Hd0
            |apply decimal_not_dquote; exact Hd0]. }
  destruct Hhead as [Hsp Hdq].
  (* the opening quote *)
  assert (S5' : match_k
                  (Seq (Opt (Lit dquote))
                       (Seq (Group
                               (Seq (Opt (Lit minus_sign))
                                    (Seq (Opt (Lit hyphen_minus))
                                         (Seq (Plus Digit)
                                              (Seq (Opt (Lit dot))
                                                   (Star Digit))))))
                            (Opt (Lit dquote))))
                  (q1 ++ number ++ rest) None kf = Some (Some number)).
  { rewrite match_k_seq. destruct Hq1 as [->| ->].
    - cbn [app]. rewrite match_k_opt_skip; [exact S6|exact Hdq].
    - cbn [app]. apply match_k_opt_take; [reflexivity|exact S6]. }
  (* the key, the colon and the white space *)
  assert (Hm : match_at alphatilt_re
                 ((dquote :: key ++ [dquote])
                    ++ ws1 ++ (colon :: ws2 ++ q1 ++ number ++ rest))
               = Some (Some number)).
  { unfold match_at, alphatilt_re. fold kf.
    rewrite match_k_seq, match_k_lits.
    - rewrite match_k_seq, match_k_star.
      apply star_k_greedy; [exact Hws1|reflexivity|].
      rewrite match_k_seq, match_k_one by reflexivity.
      rewrite match_k_seq, match_k_star.
      apply star_k_greedy; [exact Hws2|exact Hsp|exact S5'].
    - constructor; [reflexivity|].
      apply Forall2_app; [apply key_any_case; exact Hkey|].
      constructor; [reflexivity|constructor]. }
  replace ([dquote] ++ key ++ [dquote] ++ ws1 ++ [colon] ++ ws2 ++ q1
                    ++ h ++ (d0 :: ip) ++ tail ++ rest)
    with ((dquote :: key ++ [dquote])
            ++ ws1 ++ (colon :: ws2 ++ q1 ++ number ++ rest)).
  - cbn [app] in *. cbn [search]. rewrite Hm. reflexivity.
  - unfold number.
    repeat (rewrite <- app_assoc || rewrite <- app_comm_cons).
    cbn [app]. reflexivity.
Qed.

(** [float] rejects every string that starts with U+2212. *)
Lemma py_float_minus_sign (g : text) :
  py_float (minus_sign :: g)
  = Raise (ValueError (t "could not convert string to float")).
Proof. reflexivity. Qed.

End PatternFacts.

Section FloatOfGroup.

Lemma take_digits_app (ds rest : text) :
  Forall (fun c => isdecimal c = true) ds ->
  exists vals,
    length vals = length ds
    /\ take_digits (ds ++ rest)
       = (vals ++ fst (take_digits rest), snd (take_digits rest)).
Proof.
  induction 1 as [|c ds Hc _ [vals [Hl IH]]].
  - exists []. split; [reflexivity|]. simpl.
    destruct (take_digits rest); reflexivity.
  - unfold isdecimal in Hc. cbn [app take_digits].
    destruct (todecimal c) as [d|]; [|discriminate].
    rewrite IH. exists (d :: vals). split; [simpl; congruence|reflexivity].
Qed.

Lemma take_digits_all (ds : text) :
  Forall (fun c => isdecimal c = true) ds ->
  exists vals, length vals = length ds /\ take_digits ds = (vals, []).
Proof.
  intros H. destruct (take_digits_app ds [] H) as [vals [Hl E]].
  rewrite !app_nil_r in E. exists vals. split; [exact Hl|exact E].
Qed.

Lemma isdecimal_not_sign (c : char) :
  isdecimal c = true ->
  char_eqb c hyphen_minus = false /\ char_eqb c plus_sign = false
  /\ char_eqb c dot = false.
Proof.
  intros H. repeat split;
    (destruct (char_eqb c _) eqn:E; [|reflexivity];
     apply char_eqb_eq in E; subst c; vm_compute in H; discriminate).
Qed.

(** [float] reads every string of the shape of the group that does not
    start with U+2212. *)
Lemma py_float_of_number (h ip d fp : text) :
  (h = [] \/ h = [hyphen_minus]) ->
  ip <> [] -> Forall (fun c => isdecimal c = true) ip ->
  (d = [] \/ d = [dot]) ->
  Forall (fun c => isdecimal c = true) fp ->
  exists x, py_float (h ++ ip ++ d ++ fp) = Ok x.
Proof.
  intros Hh Hne Hip Hd Hfp.
  assert (Hnum : forall neg,
             exists x,
               (let '(ip', s2) := take_digits (ip ++ d ++ fp) in
                let '(fp', s3) :=
                  match s2 with
                  | [] => ([], s2)
                  | c :: s' =>
                      if char_eqb c dot then take_digits s' else ([], s2)
                  end in
                match ip' ++ fp', s3 with
                | _ :: _, [] =>
                    Ok (round_quotient neg (digits_value (ip' ++ fp'))
                                       (10 ^ Z.of_nat (length fp')))
                | _, _ =>
                    Raise (ValueError
                             (t "could not convert string to float"))
                end) = Ok x).
  { intros neg. destruct Hd as [->| ->].
    - simpl. assert (Hall : Forall (fun c => isdecimal c = true) (ip ++ fp))
        by (apply Forall_app; split; assumption).
      destruct (take_digits_all _ Hall) as [vals [Hl ->]].
      destruct vals as [|v vals].
      + destruct ip; [contradiction|]. simpl in Hl. discriminate.
      + eexists. reflexivity.
    - destruct (take_digits_app ip ([dot] ++ fp) Hip) as [vals [Hl ->]].
      cbn [app take_digits]. change (todecimal dot) with (@None N).
      cbn [fst snd]. rewrite app_nil_r, char_eqb_refl.
      destruct (take_digits_all _ Hfp) as [vals' [Hl' ->]].
      destruct vals as [|v vals].
      + destruct ip; [contradiction|]. simpl in Hl. discriminate.
      + eexists. reflexivity. }
  unfold py_float. destruct Hh as [->| ->].
  - destruct ip as [|c ip]; [contradiction|].
    inversion Hip as [|? ? Hc _]; subst.
    destruct (isdecimal_not_sign c Hc) as [E1 [E2 _]].
    cbn [app]. rewrite E1, E2. apply (Hnum false).
  - cbn [app]. rewrite char_eqb_refl. apply (Hnum true).
Qed.

(** What the body of the [try] of the visitor does on a text: nothing when
    the pattern is not found; an angle when the group of the match is a
    number with at most an ASCII minus in front; and a [ValueError] exactly
    when the group starts with U+2212. *)
Lemma parse_alpha_tilt_outcomes (txt : text) :
  match parse_alpha_tilt txt with
  | Ok None => search alphatilt_re txt = None
  | Ok (Some a) =>
      exists g, search alphatilt_re txt = Some (Some g)
                /\ group_shape g /\ py_float g = Ok a
  | Raise e =>
      exists g, search alphatilt_re txt = Some (Some (minus_sign :: g))
                /\ e = ValueError (t "could not convert string to float")
  end.
Proof.
  unfold parse_alpha_tilt.
  destruct (search alphatilt_re txt) as [og|] eqn:Hs; [|reflexivity].
  destruct (search_alphatilt_group txt og Hs) as [g [-> Hg]].
  destruct (py_float g) as [a|e] eqn:Hf.
  - exists g. repeat split; assumption.
  - destruct Hg as [m [h [ip [d [fp [-> [Hm [Hh [Hne [Hip [Hd Hfp]]]]]]]]]]].
    destruct Hm as [->| ->].
    + destruct (py_float_of_number h ip d fp Hh Hne Hip Hd Hfp) as [x Hx].
      simpl in Hf. congruence.
    + cbn [app] in *. rewrite py_float_minus_sign in Hf.
      injection Hf as <-. eexists. split; reflexivity.
Qed.

(** The pair at the head of a text is parsed to the float of its number,
    whatever the ASCII case of the key and with or without quotes. *)
Lemma parse_pair (key ws1 ws2 q1 h ip tail rest : text) :
  map ascii_lower key = t "alphatilt" ->
  Forall (fun c => isspace c = true) ws1 ->
  Forall (fun c => isspace c = true) ws2 ->
  (q1 = [] \/ q1 = [dquote]) ->
  (h = [] \/ h = [hyphen_minus]) ->
  ip <> [] -> Forall (fun c => isdecimal c = true) ip ->
  (tail = [] \/ exists fp,
      tail = dot :: fp /\ Forall (fun c => isdecimal c = true) fp) ->
  not_headed isdecimal rest ->
  (tail = [] -> not_headed (lit_match dot) rest) ->
  exists x,
    py_float (h ++ ip ++ tail) = Ok x
    /\ parse_alpha_tilt
         ([dquote] ++ key ++ [dquote] ++ ws1 ++ [colon] ++ ws2 ++ q1
                   ++ h ++ ip ++ tail ++ rest)
       = Ok (Some x).
Proof.
  intros Hkey Hws1 Hws2 Hq1 Hh Hne Hip Htail Hrest Hdot.
  assert (Hf : exists x, py_float (h ++ ip ++ tail) = Ok x).
  { destruct Htail as [->|[fp [-> Hfp]]].
    - destruct (py_float_of_number h ip [] [] Hh Hne Hip
                  (or_introl eq_refl) (Forall_nil _)) as [x Hx].
      exists x. exact Hx.
    - destruct (py_float_of_number h ip [dot] fp Hh Hne Hip
                  (or_intror eq_refl) Hfp) as [x Hx].
      exists x. exact Hx. }
  destruct Hf as [x Hx]. exists x. split; [exact Hx|].
  unfold parse_alpha_tilt.
  rewrite (search_pair key ws1 ws2 q1 h ip tail rest) by assumption.
  rewrite Hx. reflexivity.
Qed.

End FloatOfGroup.

(* ===================================================================== *)
(** * The angle extractor                                                 *)
(* ===================================================================== *)

Section ExtractFacts.

Lemma fold_visitor_Some (nodes : list H5Node) (a : float) :
  fold_left visitor nodes (Some a) = Some a.
Proof. induction nodes as [|n nodes IH]; simpl; [reflexivity|exact IH]. Qed.

(** What [visitor] needs to set [alpha_tilt]. *)
Lemma visitor_sets (n : H5Node) (a : float) :
  visitor None n = Some a ->
  node_is_dataset n = true
  /\ contains (t "metadata") (lower (node_name n)) = true
  /\ exists txt, node_text n = Ok txt /\ parse_alpha_tilt txt = Ok (Some a).
Proof.
  unfold visitor.
  destruct (node_is_dataset n); simpl; [|discriminate].
  destruct (contains (t "metadata") (lower (node_name n)));
    simpl; [|discriminate].
  destruct (node_text n) as [txt|e]; [|discriminate].
  destruct (parse_alpha_tilt txt) as [r|e] eqn:E; [|discriminate].
  intros ->. repeat split. exists txt. split; [reflexivity|exact E].
Qed.

Lemma fold_visitor_first (nodes : list H5Node) :
  fold_left visitor nodes None = None
  \/ exists pre n post a,
      nodes = pre ++ n :: post
      /\ fold_left visitor pre None = None
      /\ visitor None n = Some a
      /\ fold_left visitor nodes None = Some a.
Proof.
  induction nodes as [|n nodes IH] using rev_ind; [left; reflexivity|].
  rewrite fold_left_app. simpl.
  destruct IH as [IH|[pre [m [post [a [E [H1 [H2 H3]]]]]]]].
  - rewrite IH. destruct (visitor None n) as [a|] eqn:E; [|left; reflexivity].
    right. exists nodes, n, [], a. repeat split; assumption.
  - right. exists pre, m, (post ++ [n]), a. rewrite H3. repeat split.
    + rewrite E, <- app_assoc. reflexivity.
    + exact H1.
    + exact H2.
Qed.

End ExtractFacts.

(** C3, as the code has it. When the container opens, the extractor never
    raises: it returns either no angle or the angle parsed from the text of
    the first node, in the order of the visit, that is a dataset, has
    [metadata] in its lowered name and whose text parses; an error in
    reading or parsing a node only skips that node. When the container does
    not open, the error of [h5py.File] goes to the caller. *)
Theorem extract_alpha_tilt_outcomes :
  forall (w : World) (emd_path : Path),
    (forall nodes,
        h5py_File w emd_path = Ok nodes ->
        extract_alpha_tilt_from_emd w emd_path = Ok None
        \/ exists pre n post a txt,
            extract_alpha_tilt_from_emd w emd_path = Ok (Some a)
            /\ nodes = pre ++ n :: post
            /\ fold_left visitor pre None = None
            /\ node_is_dataset n = true
            /\ contains (t "metadata") (lower (node_name n)) = true
            /\ node_text n = Ok txt
            /\ parse_alpha_tilt txt = Ok (Some a))
    /\ (forall e,
           h5py_File w emd_path = Raise e ->
           extract_alpha_tilt_from_emd w emd_path = Raise e).
Proof.
  intros w emd_path. unfold extract_alpha_tilt_from_emd. split.
  - intros nodes ->.
    destruct (fold_visitor_first nodes)
      as [H|[pre [n [post [a [E [H1 [H2 H3]]]]]]]].
    + left. rewrite H. reflexivity.
    + right. apply visitor_sets in H2.
      destruct H2 as [Hd [Hm [txt [Ht Hp]]]].
      exists pre, n, post, a, txt. rewrite H3. repeat split; assumption.
  - intros e ->. reflexivity.
Qed.

Lemma extract_alpha_tilt_outcomes_witness :
  extract_alpha_tilt_from_emd (Examples.world_of_blob
                                 Examples.blob_ascii_minus) Examples.emd_t1
  = Ok (Some Examples.float_minus_12_5)
  /\ extract_alpha_tilt_from_emd Examples.empty_world Examples.emd_t1
     = Raise Examples.io_error.
Proof.
  split.
  - destruct (proj1 (extract_alpha_tilt_outcomes
                       (Examples.world_of_blob Examples.blob_ascii_minus)
                       Examples.emd_t1) _ eq_refl)
      as [H|[pre [n [post [a [txt [H _]]]]]]].
    + vm_compute in H. discriminate.
    + vm_compute. reflexivity.
  - apply (proj2 (extract_alpha_tilt_outcomes Examples.empty_world
                    Examples.emd_t1)).
    reflexivity.
Defined.

(** C3, as the claim states it, fails: when the container cannot be opened
    the extractor does not return "not found", it raises the error of the
    failed opening. *)
Lemma extract_alpha_tilt_raises_when_unopenable :
  h5py_File Examples.empty_world Examples.emd_t1 = Raise Examples.io_error
  /\ extract_alpha_tilt_from_emd Examples.empty_world Examples.emd_t1
     = Raise Examples.io_error
  /\ extract_alpha_tilt_from_emd Examples.empty_world Examples.emd_t1
     <> Ok None.
Proof.
  repeat split. discriminate.
Qed.

(** C2. The pattern is matched without regard to the case of the key and
    with or without quotes around the number, and a value with the ASCII
    minus is read as the negative float: the two texts of the claim give
    -12.5 and 12.5. A value written with U+2212 is matched by the pattern,
    U+2212 included in the group, but [float] rejects every string that
    starts with U+2212 with a [ValueError]; the visitor swallows it, and
    the extractor returns no angle where the claim has -12.5. *)
Theorem alpha_tilt_unicode_minus_not_parsed :
  parse_alpha_tilt Examples.blob_ascii_minus
  = Ok (Some Examples.float_minus_12_5)
  /\ parse_alpha_tilt Examples.blob_other_case
     = Ok (Some Examples.float_12_5)
  /\ search alphatilt_re Examples.blob_unicode_minus
     = Some (Some (minus_sign :: t "12.5"))
  /\ (forall g : text,
         py_float (minus_sign :: g)
         = Raise (ValueError (t "could not convert string to float")))
  /\ parse_alpha_tilt Examples.blob_unicode_minus
     = Raise (ValueError (t "could not convert string to float"))
  /\ extract_alpha_tilt_from_emd
       (Examples.world_of_blob Examples.blob_unicode_minus) Examples.emd_t1
     = Ok None.
Proof.
  split; [vm_compute; reflexivity|].
  split; [vm_compute; reflexivity|].
  split; [vm_compute; reflexivity|].
  split; [exact py_float_minus_sign|].
  split; vm_compute; reflexivity.
Qed.

(* ===================================================================== *)
(** * Floats: order, and the floats [float] returns                       *)
(* ===================================================================== *)

Section FloatFacts.

Lemma SFcompare_key (x y : float) :
  not_nan x -> not_nan y ->
  match SFcompare x y with
  | Some Lt => key_lt (float_key x) (float_key y)
  | Some Eq => float_key x = float_key y
  | Some Gt => key_lt (float_key y) (float_key x)
  | None => False
  end.
Proof.
  unfold not_nan. intros Hx Hy.
  destruct x as [sx|sx| |sx mx ex], y as [sy|sy| |sy my ey];
    try congruence; try destruct sx; try destruct sy;
    cbn [SFcompare float_key key_lt]; try reflexivity; try lia.
  - destruct (Z.compare_spec ex ey); try lia.
    change (Pos.compare_cont Eq mx my) with (Pos.compare mx my).
    destruct (Pos.compare_spec mx my); cbn [CompOpp]; subst;
      try reflexivity; lia.
  - destruct (Z.compare_spec ex ey); try lia.
    change (Pos.compare_cont Eq mx my) with (Pos.compare mx my).
    destruct (Pos.compare_spec mx my); subst; try reflexivity; lia.
Qed.

Lemma key_lt_irrefl (a : Z * Z * Z) : ~ key_lt a a.
Proof. destruct a as [[a1 a2] a3]. unfold key_lt. lia. Qed.

Lemma key_lt_asym (a b : Z * Z * Z) : key_lt a b -> ~ key_lt b a.
Proof.
  destruct a as [[a1 a2] a3], b as [[b1 b2] b3]. unfold key_lt. lia.
Qed.

Lemma key_lt_trans (a b c : Z * Z * Z) :
  key_lt a b -> key_lt b c -> key_lt a c.
Proof.
  destruct a as [[a1 a2] a3], b as [[b1 b2] b3], c as [[c1 c2] c3].
  unfold key_lt. lia.
Qed.

Lemma key_total (a b : Z * Z * Z) : key_lt a b \/ a = b \/ key_lt b a.
Proof.
  destruct a as [[a1 a2] a3], b as [[b1 b2] b3]. unfold key_lt.
  destruct (Z.lt_total a1 b1) as [H|[H|H]]; [lia| |lia].
  destruct (Z.lt_total a2 b2) as [H2|[H2|H2]]; [lia| |lia].
  destruct (Z.lt_total a3 b3) as [H3|[H3|H3]]; [lia| |lia].
  right. left. congruence.
Qed.

Lemma ltb_key (x y : float) :
  not_nan x -> not_nan y ->
  (ltb x y = true <-> key_lt (float_key x) (float_key y)).
Proof.
  intros Hx Hy. pose proof (SFcompare_key x y Hx Hy) as H.
  unfold ltb, SFltb. destruct (SFcompare x y) as [[| |]|];
    try contradiction; split; intros H'; try reflexivity;
    try discriminate.
  - rewrite H in H'. apply key_lt_irrefl in H'. contradiction.
  - exact H.
  - apply key_lt_asym in H. contradiction.
Qed.

Lemma eqb_key (x y : float) :
  not_nan x -> not_nan y ->
  (eqb x y = true <-> float_key x = float_key y).
Proof.
  intros Hx Hy. pose proof (SFcompare_key x y Hx Hy) as H.
  unfold eqb, SFeqb. destruct (SFcompare x y) as [[| |]|];
    try contradiction; split; intros H'; try reflexivity;
    try discriminate.
  - exact H.
  - rewrite H' in H. apply key_lt_irrefl in H. contradiction.
  - rewrite H' in H. apply key_lt_irrefl in H. contradiction.
Qed.

Lemma leb_key (x y : float) :
  not_nan x -> not_nan y -> leb x y = negb (ltb y x).
Proof.
  intros Hx Hy. pose proof (SFcompare_key x y Hx Hy) as H.
  pose proof (ltb_key y x Hy Hx) as H'.
  unfold leb, SFleb. destruct (SFcompare x y) as [[| |]|];
    try contradiction; destruct (ltb y x); try reflexivity; exfalso.
  - rewrite H in H'. apply (key_lt_irrefl (float_key y)). apply H'.
    reflexivity.
  - apply (key_lt_asym _ _ H). apply H'. reflexivity.
  - assert (false = true) by (apply H'; exact H). discriminate.
Qed.

Lemma eqb_not_nan (x y : float) : eqb x y = true -> not_nan x /\ not_nan y.
Proof.
  unfold eqb, SFeqb, not_nan.
  destruct x, y; simpl; try discriminate; intros _; split; discriminate.
Qed.

Lemma ltb_asym (x y : float) :
  not_nan x -> not_nan y -> ltb x y = true -> ltb y x = false.
Proof.
  intros Hx Hy H. apply (ltb_key x y Hx Hy) in H.
  destruct (ltb y x) eqn:E; [|reflexivity].
  apply (ltb_key y x Hy Hx) in E. apply key_lt_asym in H. contradiction.
Qed.

Lemma ltb_negtrans (x y z : float) :
  not_nan x -> not_nan y -> not_nan z ->
  ltb x y = false -> ltb y z = false -> ltb x z = false.
Proof.
  intros Hx Hy Hz H1 H2. destruct (ltb x z) eqn:E; [|reflexivity].
  apply (ltb_key x z Hx Hz) in E.
  destruct (key_total (float_key x) (float_key y)) as [H|[H|H]].
  - apply (ltb_key x y Hx Hy) in H. congruence.
  - rewrite H in E. apply (ltb_key y z Hy Hz) in E. congruence.
  - pose proof (key_lt_trans _ _ _ H E) as H'.
    apply (ltb_key y z Hy Hz) in H'. congruence.
Qed.

(** Two floats equal to a third are not below one another. *)
Lemma eqb_not_ltb (a x y : float) :
  eqb a x = true -> eqb a y = true -> ltb y x = false.
Proof.
  intros H1 H2.
  destruct (eqb_not_nan _ _ H1) as [Ha Hx].
  destruct (eqb_not_nan _ _ H2) as [_ Hy].
  apply (eqb_key a x Ha Hx) in H1. apply (eqb_key a y Ha Hy) in H2.
  destruct (ltb y x) eqn:E; [|reflexivity].
  apply (ltb_key y x Hy Hx) in E. rewrite <- H1, <- H2 in E.
  apply key_lt_irrefl in E. contradiction.
Qed.

(** Rounding never makes a NaN out of a mantissa that is not negative. *)
Lemma iter_pos_inv (A : Type) (P : A -> Prop) (f : A -> A) :
  (forall x, P x -> P (f x)) ->
  forall n x, P x -> P (iter_pos f n x).
Proof.
  intros Hf. induction n as [n IH|n IH|]; intros x Hx; simpl.
  - apply IH, IH, Hf, Hx.
  - apply IH, IH, Hx.
  - apply Hf, Hx.
Qed.

Lemma shr_1_nonneg (mrs : shr_record) :
  (0 <= shr_m mrs)%Z -> (0 <= shr_m (shr_1 mrs))%Z.
Proof.
  destruct mrs as [m r s]. simpl.
  destruct m as [|[p|p|]|[p|p|]]; simpl; lia.
Qed.

Lemma shr_nonneg (mrs : shr_record) (e n : Z) :
  (0 <= shr_m mrs)%Z -> (0 <= shr_m (fst (shr mrs e n)))%Z.
Proof.
  intros H. unfold shr. destruct n as [|p|p]; simpl; try exact H.
  apply (iter_pos_inv _ (fun x => (0 <= shr_m x)%Z)); [|exact H].
  apply shr_1_nonneg.
Qed.

Lemma shr_fexp_nonneg (m e : Z) (l : location) :
  (0 <= m)%Z -> (0 <= shr_m (fst (shr_fexp prec emax m e l)))%Z.
Proof.
  intros H. unfold shr_fexp. apply shr_nonneg.
  destruct l as [|[| |]]; simpl; exact H.
Qed.

Lemma round_nearest_even_nonneg (m : Z) (l : location) :
  (0 <= m)%Z -> (0 <= round_nearest_even m l)%Z.
Proof.
  intros H. unfold round_nearest_even.
  destruct l as [|[| |]]; try destruct (Z.even m); lia.
Qed.

Lemma binary_round_aux_not_nan (s : bool) (m e : Z) (l : location) :
  (0 <= m)%Z -> not_nan (binary_round_aux prec emax s m e l).
Proof.
  intros H. unfold binary_round_aux.
  pose proof (shr_fexp_nonneg m e l H) as H1.
  destruct (shr_fexp prec emax m e l) as [mrs' e']. simpl in H1.
  pose proof (shr_fexp_nonneg
                (round_nearest_even (shr_m mrs') (loc_of_shr_record mrs'))
                e' loc_Exact
                (round_nearest_even_nonneg _ _ H1)) as H2.
  destruct (shr_fexp prec emax
              (round_nearest_even (shr_m mrs') (loc_of_shr_record mrs'))
              e' loc_Exact) as [mrs'' e'']. simpl in H2.
  unfold not_nan.
  destruct (shr_m mrs'') as [|p|p]; [discriminate| |lia].
  destruct (e'' <=? emax - prec)%Z; discriminate.
Qed.

Lemma round_quotient_not_nan (neg : bool) (a b : Z) :
  (0 <= a)%Z -> (0 < b)%Z -> not_nan (round_quotient neg a b).
Proof.
  intros Ha Hb. unfold round_quotient.
  destruct a as [|p|p]; [discriminate| |lia].
  unfold SFdiv_core_binary.
  set (m' := match _ with Z.pos _ => _ | 0%Z => _ | Z.neg _ => _ end).
  assert (Hm : (0 <= m')%Z).
  { subst m'. destruct (_ - _ - _)%Z; try lia.
    apply Z.shiftl_nonneg. lia. }
  pose proof (Z.div_pos m' b Hm Hb) as Hq.
  unfold Z.div in Hq. destruct (Z.div_eucl m' b) as [q r]. simpl in Hq.
  apply binary_round_aux_not_nan. exact Hq.
Qed.

Lemma digits_value_nonneg (ds : list N) : (0 <= digits_value ds)%Z.
Proof.
  unfold digits_value.
  assert (H : forall acc, (0 <= acc)%Z ->
              (0 <= fold_left (fun acc d => 10 * acc + Z.of_N d) ds acc)%Z).
  { induction ds as [|d ds IH]; intros acc Hacc; cbn [fold_left];
      [exact Hacc|].
    apply IH. lia. }
  apply H. lia.
Qed.

(** [float] never returns a NaN on the strings of the model. *)
Lemma py_float_not_nan (s : text) (x : float) :
  py_float s = Ok x -> not_nan x.
Proof.
  unfold py_float.
  destruct (match s with
            | [] => (false, s)
            | c :: s' =>
                if char_eqb c hyphen_minus then (true, s')
                else if char_eqb c plus_sign then (false, s') else (false, s)
            end) as [neg s1].
  destruct (take_digits s1) as [ip s2].
  destruct (match s2 with
            | [] => ([], s2)
            | c :: s' => if char_eqb c dot then take_digits s' else ([], s2)
            end) as [fp s3].
  destruct (ip ++ fp) as [|d ds] eqn:E; [discriminate|].
  destruct s3; [|discriminate].
  intros H. injection H as <-.
  apply round_quotient_not_nan; [apply digits_value_nonneg|].
  apply Z.pow_pos_nonneg; lia.
Qed.

Lemma parse_alpha_tilt_not_nan (txt : text) (x : float) :
  parse_alpha_tilt txt = Ok (Some x) -> not_nan x.
Proof.
  unfold parse_alpha_tilt.
  destruct (search alphatilt_re txt) as [[g|]|]; try discriminate.
  destruct (py_float g) as [a|e] eqn:E; [|discriminate].
  intros H. injection H as <-. apply (py_float_not_nan g). exact E.
Qed.

Lemma extract_alpha_tilt_not_nan (w : World) (emd_path : Path) (x : float) :
  extract_alpha_tilt_from_emd w emd_path = Ok (Some x) -> not_nan x.
Proof.
  intros H. unfold extract_alpha_tilt_from_emd in H.
  destruct (h5py_File w emd_path) as [nodes|e]; [|discriminate].
  destruct (fold_visitor_first nodes)
    as [H'|[pre [n [post [a [_ [_ [H2 H3]]]]]]]]; [congruence|].
  assert (a = x) by congruence. subst a.
  apply visitor_sets in H2. destruct H2 as [_ [_ [txt [_ Hp]]]].
  apply (parse_alpha_tilt_not_nan txt). exact Hp.
Qed.

End FloatFacts.

(* ===================================================================== *)
(** * The calls of [int] are on finite floats                             *)
(* ===================================================================== *)

Section IntFacts.
Local Open Scope Z_scope.

Lemma digits2_size (p : positive) : digits2_pos p = Pos.size p.
Proof. induction p; simpl; congruence. Qed.

Lemma digits_pow (p : positive) (k : Z) :
  0 <= k -> (Zpos (digits2_pos p) <= k <-> Zpos p < 2 ^ k).
Proof.
  intros Hk. rewrite digits2_size. split; intros H.
  - pose proof (Pos.size_gt p) as Hg.
    apply Pos2Z.pos_lt_pos in Hg. rewrite Pos2Z.inj_pow in Hg.
    eapply Z.lt_le_trans; [exact Hg|].
    apply Z.pow_le_mono_r; lia.
  - pose proof (Pos.size_le p) as Hl.
    apply Pos2Z.pos_le_pos in Hl. rewrite Pos2Z.inj_pow in Hl.
    assert (H2 : 2 ^ Zpos (Pos.size p) < 2 ^ (k + 1)).
    { rewrite Z.pow_add_r by lia. change (Z.pos p~0) with (2 * Z.pos p) in Hl. lia. }
    apply Z.pow_lt_mono_r_iff in H2; lia.
Qed.

Lemma Zdigits2_pow (m k : Z) :
  0 <= m -> 0 <= k -> (Zdigits2 m <= k <-> m < 2 ^ k).
Proof.
  intros Hm Hk. destruct m as [|p|p]; [|apply digits_pow; exact Hk|lia].
  simpl. split; intros _; [apply Z.pow_pos_nonneg; lia|exact Hk].
Qed.

Lemma Zdigits2_nonneg (m : Z) : 0 <= Zdigits2 m.
Proof. destruct m; simpl; lia. Qed.

Lemma shr_1_digits (mrs : shr_record) :
  0 <= shr_m mrs ->
  0 <= shr_m (shr_1 mrs)
  /\ Zdigits2 (shr_m (shr_1 mrs)) = Z.max 0 (Zdigits2 (shr_m mrs) - 1).
Proof.
  destruct mrs as [m r s]. cbn [shr_m]. intros H.
  destruct m as [|[p|p|]|[p|p|]];
    cbn [shr_1 shr_m Zdigits2 digits2_pos]; lia.
Qed.

Lemma iter_shr_1_digits (n : positive) :
  forall mrs,
    0 <= shr_m mrs ->
    0 <= shr_m (iter_pos shr_1 n mrs)
    /\ Zdigits2 (shr_m (iter_pos shr_1 n mrs))
       = Z.max 0 (Zdigits2 (shr_m mrs) - Zpos n).
Proof.
  induction n as [n IH|n IH|]; intros mrs H; simpl.
  - destruct (shr_1_digits mrs H) as [H1 E1].
    destruct (IH _ H1) as [H2 E2]. destruct (IH _ H2) as [H3 E3].
    split; [exact H3|]. rewrite E3, E2, E1. lia.
  - destruct (IH _ H) as [H2 E2]. destruct (IH _ H2) as [H3 E3].
    split; [exact H3|]. rewrite E3, E2. lia.
  - apply shr_1_digits. exact H.
Qed.

(** After [shr_fexp]: the mantissa has at most 53 digits, the exponent is at most
    bounded, and the magnitude has not grown. *)
Lemma shr_fexp_bounds (m e : Z) (l : location) :
  0 <= m -> e <= 970 -> Zdigits2 m + e <= 1024 ->
  let '(mrs, e') := shr_fexp prec emax m e l in
  0 <= shr_m mrs /\ e' <= 971
  /\ Zdigits2 (shr_m mrs) <= 53
  /\ (Zdigits2 (shr_m mrs) + e' <= Z.max (Zdigits2 m + e) (-1074)).
Proof.
  intros Hm He Hd. unfold shr_fexp, shr.
  assert (Hrec : shr_m (shr_record_of_loc m l) = m)
    by (destruct l as [|[| |]]; reflexivity).
  pose proof (Zdigits2_nonneg m) as Hdn.
  unfold fexp, emin, prec, emax in *.
  destruct (Z.max (Zdigits2 m + e - 53) (3 - 1024 - 53) - e) as [|n|n] eqn:En.
  - rewrite Hrec. lia.
  - destruct (iter_shr_1_digits n (shr_record_of_loc m l)) as [H1 E1];
      [rewrite Hrec; exact Hm|].
    rewrite Hrec in E1. rewrite E1. lia.
  - rewrite Hrec. lia.
Qed.

Lemma round_nearest_even_bounds (m : Z) (l : location) :
  0 <= m -> Zdigits2 m <= 53 ->
  0 <= round_nearest_even m l /\ Zdigits2 (round_nearest_even m l) <= Zdigits2 m + 1.
Proof.
  intros Hm Hd.
  assert (H1 : Zdigits2 (m + 1) <= Zdigits2 m + 1).
  { apply Zdigits2_pow; [lia|pose proof (Zdigits2_nonneg m); lia|].
    assert (m < 2 ^ Zdigits2 m)
      by (apply Zdigits2_pow; [lia|apply Zdigits2_nonneg|lia]).
    rewrite Z.pow_add_r by (try apply Zdigits2_nonneg; lia).
    pose proof (Z.pow_pos_nonneg 2 (Zdigits2 m) ltac:(lia) (Zdigits2_nonneg m)).
    lia. }
  unfold round_nearest_even.
  destruct l as [|[| |]]; try destruct (Z.even m); lia.
Qed.

(** Rounding a mantissa of [d] digits with exponent [e] gives a finite float
    below [2^(d+e+1)]: no overflow as long as [d + e <= 1023]. *)
Lemma binary_round_aux_small (m e : Z) (l : location) :
  0 <= m -> e <= 970 -> Zdigits2 m + e <= 1023 ->
  small (Z.max (Zdigits2 m + e) (-1074) + 1) (binary_round_aux prec emax false m e l).
Proof.
  intros Hm He Hd. unfold binary_round_aux.
  pose proof (shr_fexp_bounds m e l Hm He ltac:(lia)) as H1.
  destruct (shr_fexp prec emax m e l) as [mrs' e'].
  destruct H1 as [Hm' [He' [Hd' Hs']]].
  destruct (round_nearest_even_bounds (shr_m mrs') (loc_of_shr_record mrs') Hm' Hd')
    as [Hm'' Hd''].
  remember (round_nearest_even (shr_m mrs') (loc_of_shr_record mrs')) as m'' eqn:Em''.
  clear Em''.
  (* second shift *)
  unfold shr_fexp, shr.
  assert (Hrec : shr_m (shr_record_of_loc m'' loc_Exact) = m'') by reflexivity.
  pose proof (Zdigits2_nonneg m'') as Hdn.
  unfold fexp, emin, prec, emax in *.
  destruct (Z.max (Zdigits2 m'' + e' - 53) (3 - 1024 - 53) - e') as [|n|n] eqn:En.
  - rewrite Hrec. destruct m'' as [|p|p]; [exact I| |lia].
    assert (Hle : (e' <=? 1024 - 53) = true) by (apply Z.leb_le; lia).
    rewrite Hle. cbn [small]. lia.
  - destruct (iter_shr_1_digits n (shr_record_of_loc m'' loc_Exact)) as [H1 E1];
      [rewrite Hrec; exact Hm''|].
    rewrite Hrec in E1.
    destruct (shr_m (iter_pos shr_1 n (shr_record_of_loc m'' loc_Exact))) as [|p|p];
      [exact I| |lia].
    assert (Hle : (e' + Z.pos n <=? 1024 - 53) = true) by (apply Z.leb_le; lia).
    rewrite Hle. cbn [small]. lia.
  - rewrite Hrec. destruct m'' as [|p|p]; [exact I| |lia].
    assert (Hle : (e' <=? 1024 - 53) = true) by (apply Z.leb_le; lia).
    rewrite Hle. cbn [small]. lia.
Qed.

Lemma small_mono (K K' : Z) (x : float) : small K x -> K <= K' -> small K' x.
Proof. destruct x as [[]|[]| |[] m e]; cbn [small]; try tauto; lia. Qed.

(** [a / b] is finite and below [2^(j+1)] when [a < b * 2^j]. *)
Lemma round_quotient_small (a b j : Z) :
  0 <= a -> 0 < b -> 0 <= j <= 1000 -> a < b * 2 ^ j ->
  small (j + 1) (round_quotient false a b).
Proof.
  intros Ha Hb Hj Hab. unfold round_quotient.
  destruct a as [|p|p]; [exact I| |lia].
  unfold SFdiv_core_binary.
  set (e' := Z.min (fexp prec emax (Zdigits2 (Z.pos p) + 0 - (Zdigits2 b + 0))) (0 - 0)).
  assert (He' : e' <= 0) by (subst e'; lia).
  set (s := 0 - 0 - e').
  assert (Hs : 0 <= s) by (subst s; lia).
  set (m' := match s with Z.pos _ => Z.shiftl (Z.pos p) s | 0 => Z.pos p | Z.neg _ => 0 end).
  assert (Hm' : m' = Z.pos p * 2 ^ s).
  { subst m'. destruct s as [|q|q] eqn:Es; [simpl; lia| |lia].
    apply Z.shiftl_mul_pow2. lia. }
  pose proof (Z.pow_pos_nonneg 2 s ltac:(lia) Hs) as Hp2.
  assert (Hq0 : 0 <= m' / b) by (apply Z.div_pos; nia).
  assert (Hq1 : m' / b < 2 ^ (s + j)).
  { apply Z.div_lt_upper_bound; [exact Hb|].
    rewrite Hm', Z.pow_add_r by lia. nia. }
  unfold Z.div in Hq0, Hq1. destruct (Z.div_eucl m' b) as [q r].
  cbn [fst] in Hq0, Hq1.
  assert (Hd : Zdigits2 q <= s + j) by (apply Zdigits2_pow; lia).
  eapply small_mono; [apply binary_round_aux_small; lia|].
  subst s. lia.
Qed.

(** The product of two small floats is finite. *)
Lemma mul_small (K1 K2 : Z) (x y : float) :
  small K1 x -> small K2 y -> -1074 <= K1 + K2 <= 972 ->
  small (K1 + K2 + 1) (mul x y).
Proof.
  intros Hx Hy HK. unfold mul.
  destruct x as [[]|[]| |[] m1 e1]; cbn [small Zdigits2] in Hx;
    try contradiction;
    destruct y as [[]|[]| |[] m2 e2]; cbn [small Zdigits2] in Hy;
    try contradiction; try exact I.
  cbn [SFmul xorb].
  assert (H1 : Z.pos m1 < 2 ^ Z.pos (digits2_pos m1))
    by (apply digits_pow; lia).
  assert (H2 : Z.pos m2 < 2 ^ Z.pos (digits2_pos m2))
    by (apply digits_pow; lia).
  assert (Hd : Zdigits2 (Z.pos (m1 * m2))
               <= Z.pos (digits2_pos m1) + Z.pos (digits2_pos m2)).
  { apply Zdigits2_pow; [lia|lia|].
    rewrite Z.pow_add_r by lia. rewrite Pos2Z.inj_mul. nia. }
  eapply small_mono; [apply binary_round_aux_small|]; lia.
Qed.

Lemma digits_iter_xO (m d : positive) :
  Z.pos (digits2_pos (Pos.iter xO m d)) = Z.pos (digits2_pos m) + Z.pos d.
Proof.
  induction d as [|d IH] using Pos.peano_ind.
  - simpl. lia.
  - rewrite Pos.iter_succ. cbn [digits2_pos]. lia.
Qed.

(** [float(z)] is finite for [0 <= z < 2^K]. *)
Lemma float_of_Z_small (z K : Z) :
  0 <= z < 2 ^ K -> 0 <= K <= 1000 -> small (K + 1) (float_of_Z z).
Proof.
  intros Hz HK. unfold float_of_Z, binary_normalize.
  destruct z as [|m|m]; [exact I| |lia].
  assert (Hd : Z.pos (digits2_pos m) <= K) by (apply digits_pow; lia).
  unfold binary_round, shl_align.
  destruct (fexp prec emax (Z.pos (digits2_pos m) + 0) - 0) as [|d|d] eqn:Ed.
  - eapply small_mono; [apply binary_round_aux_small|]; cbn [Zdigits2]; lia.
  - eapply small_mono; [apply binary_round_aux_small|]; cbn [Zdigits2]; lia.
  - pose proof (digits_iter_xO m d) as Hi.
    assert (Ee : fexp prec emax (Z.pos (digits2_pos m) + 0) = Z.neg d) by lia.
    rewrite Ee.
    eapply small_mono; [apply binary_round_aux_small|]; cbn [Zdigits2]; lia.
Qed.

(** The integer part of a float below [2^K] is below [2^K]. *)
Lemma trunc_small (K : Z) (x : float) :
  small K x -> 0 <= K -> 0 <= trunc x < 2 ^ K.
Proof.
  intros Hx HK.
  pose proof (Z.pow_pos_nonneg 2 K ltac:(lia) HK) as HpK.
  destruct x as [[]|[]| |[] m e]; cbn [small] in Hx; try contradiction;
    [cbn [trunc]; lia|].
  assert (Hm : Z.pos m < 2 ^ Z.pos (digits2_pos m)) by (apply digits_pow; lia).
  cbn [trunc cond_Zopp].
  destruct e as [|p|p].
  - rewrite Z.shiftl_mul_pow2 by lia. simpl (2 ^ 0). cbn [Zdigits2] in Hx.
    split; [lia|]. eapply Z.lt_le_trans; [rewrite Z.mul_1_r; exact Hm|].
    apply Z.pow_le_mono_r; lia.
  - rewrite Z.shiftl_mul_pow2 by lia. cbn [Zdigits2] in Hx.
    pose proof (Z.pow_pos_nonneg 2 (Z.pos p) ltac:(lia) ltac:(lia)) as Hpp.
    split; [nia|].
    eapply Z.lt_le_trans with (m := 2 ^ (Z.pos (digits2_pos m) + Z.pos p)).
    + rewrite Z.pow_add_r by lia. nia.
    + apply Z.pow_le_mono_r; lia.
  - rewrite Z.shiftr_div_pow2 by lia. cbn [Zdigits2] in Hx.
    pose proof (Z.pow_pos_nonneg 2 (Z.pos p) ltac:(lia) ltac:(lia)) as Hpp.
    split; [apply Z.div_pos; lia|].
    destruct (Z_le_gt_dec (Z.pos (digits2_pos m)) (Z.pos p)) as [Hle|Hgt].
    + rewrite Z.div_small; [lia|]. split; [lia|].
      eapply Z.lt_le_trans; [exact Hm|]. apply Z.pow_le_mono_r; lia.
    + eapply Z.lt_le_trans with (m := 2 ^ (Z.pos (digits2_pos m) - Z.pos p)).
      * apply Z.div_lt_upper_bound; [lia|].
        rewrite <- Z.pow_add_r by lia.
        replace (Z.pos p + (Z.pos (digits2_pos m) - Z.pos p))
          with (Z.pos (digits2_pos m)) by lia.
        exact Hm.
      * apply Z.pow_le_mono_r; lia.
Qed.

(** [int] does not raise on a small float. *)
Lemma int_of_small (K : Z) (x : float) :
  small K x -> int_of_float x = Ok (trunc x).
Proof. destruct x as [[]|[]| |[] m e]; cbn [small]; try tauto; reflexivity. Qed.

Lemma percent_small (a b scale j k : Z) :
  0 <= a -> 0 < b -> a < b * 2 ^ j -> 0 <= j <= 900 ->
  0 <= scale < 2 ^ k -> 0 <= k <= 60 ->
  small (j + k + 3) (mul (truediv a b) (float_of_Z scale)).
Proof.
  intros Ha Hb Hab Hj Hs Hk.
  eapply small_mono.
  - apply mul_small with (K1 := j + 1) (K2 := k + 1).
    + apply round_quotient_small; lia.
    + apply float_of_Z_small; lia.
    + lia.
  - lia.
Qed.

(** [int(a / b * scale)] does not raise and is what [percent] gives. *)
Lemma percent_int (a b scale j k : Z) :
  0 <= a -> 0 < b -> a < b * 2 ^ j -> 0 <= j <= 900 ->
  0 <= scale < 2 ^ k -> 0 <= k <= 60 ->
  int_of_float (mul (truediv a b) (float_of_Z scale)) = Ok (percent a b scale)
  /\ 0 <= percent a b scale < 2 ^ (j + k + 3).
Proof.
  intros Ha Hb Hab Hj Hs Hk.
  pose proof (percent_small a b scale j k Ha Hb Hab Hj Hs Hk) as H.
  split; [exact (int_of_small _ _ H)|].
  unfold percent. apply trunc_small; [exact H|lia].
Qed.

(** The calls of [int] in the two loops of the assembler, at index [idx]
    of [total] items. *)
Lemma percent_of_count (idx total scale : nat) :
  (idx < total)%nat -> (scale <= 100)%nat ->
  int_of_float (mul (truediv (Z.of_nat idx + 1) (Z.max (Z.of_nat total) 1))
                    (float_of_Z (Z.of_nat scale)))
  = Ok (percent (Z.of_nat idx + 1) (Z.max (Z.of_nat total) 1) (Z.of_nat scale))
  /\ 0 <= percent (Z.of_nat idx + 1) (Z.max (Z.of_nat total) 1)
                  (Z.of_nat scale) < 2 ^ 11.
Proof.
  intros Hi Hs.
  apply (percent_int (Z.of_nat idx + 1) (Z.max (Z.of_nat total) 1)
                     (Z.of_nat scale) 1 7); pow_bound.
Qed.

(** The three calls of [int] in [progress_cb], for the [i]-th source of
    [total_sources] and a value [p] the assembler reports (lemma
    [load_reports]). *)
Lemma progress_cb_int (total_sources i : nat) (p : Z) :
  (i < total_sources)%nat -> 0 <= p < 2 ^ 12 ->
  let span := percent 1 (Z.of_nat total_sources) 100 in
  int_of_float (mul (truediv (Z.of_nat i) (Z.of_nat total_sources))
                    (float_of_Z 100))
  = Ok (percent (Z.of_nat i) (Z.of_nat total_sources) 100)
  /\ int_of_float (mul (truediv 1 (Z.of_nat total_sources)) (float_of_Z 100))
     = Ok span
  /\ int_of_float (mul (truediv p 100) (float_of_Z span))
     = Ok (trunc (mul (truediv p 100) (float_of_Z span))).
Proof.
  intros Hi Hp span.
  assert (H1 : int_of_float (mul (truediv 1 (Z.of_nat total_sources))
                                 (float_of_Z 100)) = Ok span
               /\ 0 <= span < 2 ^ (1 + 7 + 3))
    by (apply percent_int; pow_bound).
  split; [|split].
  - apply (percent_int (Z.of_nat i) (Z.of_nat total_sources) 100 1 7);
      pow_bound.
  - apply H1.
  - apply (int_of_small (6 + 11 + 3)).
    change (1 + 7 + 3) with 11 in H1. change (2 ^ 12) with 4096 in Hp.
    apply percent_small; first [lia | change (2 ^ 6) with 64; lia].
Qed.

End IntFacts.

(* ===================================================================== *)
(** * The stable sort                                                     *)
(* ===================================================================== *)

Section SortFacts.
Variables A K : Type.
Variable lt : K -> K -> bool.
Variable key : A -> K.
(** The keys on which [lt] is a strict weak order. *)
Variable good : K -> Prop.
Hypothesis lt_asym :
  forall x y, good x -> good y -> lt x y = true -> lt y x = false.
Hypothesis lt_negtrans :
  forall x y z, good x -> good y -> good z ->
                lt x y = false -> lt y z = false -> lt x z = false.

Lemma insert_perm (x : A) (l : list A) :
  Permutation (x :: l) (insert lt key x l).
Proof.
  induction l as [|y l IH]; simpl; [apply Permutation_refl|].
  destruct (lt (key y) (key x)); [|apply Permutation_refl].
  eapply Permutation_trans; [apply perm_swap|].
  apply perm_skip. exact IH.
Qed.

Lemma sort_perm (l : list A) : Permutation l (sort lt key l).
Proof.
  induction l as [|x l IH]; simpl; [apply perm_nil|].
  eapply Permutation_trans; [|apply insert_perm].
  apply perm_skip. exact IH.
Qed.

Lemma insert_sorted (x : A) (l : list A) :
  good (key x) -> Forall (fun y => good (key y)) l ->
  StronglySorted (fun a b => lt (key b) (key a) = false) l ->
  StronglySorted (fun a b => lt (key b) (key a) = false)
                 (insert lt key x l).
Proof.
  intros Hx Hg Hs. induction Hs as [|y l Hs IH Hy]; simpl.
  - constructor; constructor.
  - inversion Hg as [|? ? Hgy Hgl]; subst.
    destruct (lt (key y) (key x)) eqn:E.
    + constructor; [apply IH; exact Hgl|].
      eapply Permutation_Forall; [apply insert_perm|].
      constructor; [|exact Hy].
      apply lt_asym; assumption.
    + constructor; [constructor; assumption|].
      constructor; [exact E|].
      rewrite Forall_forall in *. intros z Hz.
      apply (lt_negtrans (key z) (key y) (key x)); auto.
Qed.

Lemma sort_sorted (l : list A) :
  Forall (fun y => good (key y)) l ->
  StronglySorted (fun a b => lt (key b) (key a) = false) (sort lt key l).
Proof.
  induction 1 as [|x l Hx Hl IH]; simpl; [constructor|].
  apply insert_sorted; [exact Hx| |exact IH].
  eapply Permutation_Forall; [apply sort_perm|exact Hl].
Qed.

(** Inserting does not reorder the elements of a class [c] no two
    members of which are below one another. *)
Lemma insert_filter (c : A -> bool) (x : A) (l : list A) :
  (forall y, In y l -> c x = true -> c y = true ->
             lt (key y) (key x) = false) ->
  filter c (insert lt key x l) = filter c (x :: l).
Proof.
  induction l as [|y l IH]; intros H; [reflexivity|].
  cbn [insert]. destruct (lt (key y) (key x)) eqn:E; [|reflexivity].
  cbn [filter]. rewrite IH by (intros z Hz; apply H; right; exact Hz).
  cbn [filter]. destruct (c x) eqn:Ex; [|reflexivity].
  destruct (c y) eqn:Ey; [|reflexivity].
  rewrite (H y (or_introl eq_refl) eq_refl Ey) in E. discriminate.
Qed.

Lemma sort_filter (c : A -> bool) (l : list A) :
  (forall x y, In x l -> In y l -> c x = true -> c y = true ->
               lt (key y) (key x) = false) ->
  filter c (sort lt key l) = filter c l.
Proof.
  induction l as [|x l IH]; intros H; [reflexivity|].
  cbn [sort]. rewrite insert_filter.
  - cbn [filter]. rewrite IH; [reflexivity|].
    intros a b Ha Hb. apply H; right; assumption.
  - intros y Hy. apply H; [left; reflexivity|].
    right. eapply Permutation_in; [|exact Hy].
    apply Permutation_sym, sort_perm.
Qed.

End SortFacts.

(* ===================================================================== *)
(** * The stack assembler                                                 *)
(* ===================================================================== *)

Section AssemblerFacts.
Variable E : Type.
Variable w : World.
Variable emd_dir : Path.
Variable cb : Callbacks E.

Lemma generated_app (n m k : nat) (l1 l2 : list (entry E)) :
  generated cb n l1 m -> generated cb m l2 k ->
  generated cb n (l1 ++ l2) k.
Proof.
  induction 1 as [n|n f s l m Hf _ IH|n g p l m Hg _ IH|n c l m Hc _ IH];
    intros H2; simpl.
  - exact H2.
  - apply gen_log; [exact Hf|apply IH; exact H2].
  - apply gen_progress; [exact Hg|apply IH; exact H2].
  - apply gen_poll; [exact Hc|apply IH; exact H2].
Qed.

Lemma generated_le (n m : nat) (l : list (entry E)) :
  generated cb n l m -> n <= m.
Proof. induction 1; lia. Qed.

Lemma generated_polled (n m : nat) (l : list (entry E)) (b : bool) :
  generated cb n l m -> In (Polled b) l ->
  exists c j, cancel_flag cb = Some c /\ n <= j < m /\ c j = b.
Proof.
  induction 1 as [n|n f s l m Hf H IH|n g p l m Hg H IH|n c l m Hc H IH];
    intros Hin.
  - contradiction.
  - destruct Hin as [Hin|Hin]; [discriminate|]. apply IH. exact Hin.
  - destruct Hin as [Hin|Hin]; [discriminate|]. apply IH. exact Hin.
  - apply generated_le in H as Hle. destruct Hin as [Hin|Hin].
    + injection Hin as Hb. exists c, n. repeat split; [exact Hc|lia|lia|].
      exact Hb.
    + destruct (IH Hin) as [c' [j [H1 [H2 H3]]]].
      exists c', j. repeat split; [exact H1|lia|lia|exact H3].
Qed.

Lemma generated_emitted (n m : nat) (l : list (entry E)) (e : E) :
  generated cb n l m -> In (Emitted e) l ->
  (exists f s, log_cb cb = Some f /\ e = f s)
  \/ (exists g p, progress_cb cb = Some g /\ e = g p).
Proof.
  induction 1 as [n|n f s l m Hf H IH|n g p l m Hg H IH|n c l m Hc H IH];
    intros Hin.
  - contradiction.
  - destruct Hin as [Hin|Hin]; [|apply IH; exact Hin].
    injection Hin as <-. left. exists f, s. split; [exact Hf|reflexivity].
  - destruct Hin as [Hin|Hin]; [|apply IH; exact Hin].
    injection Hin as <-. right. exists g, p. split; [exact Hg|reflexivity].
  - destruct Hin as [Hin|Hin]; [discriminate|apply IH; exact Hin].
Qed.

(** One step of the trace: what a callback adds. *)
Lemma emit_log_trace (s : text) (tr : Trace E) :
  exists new,
    entries (emit_log cb s tr) = entries tr ++ new
    /\ generated cb (polls tr) new (polls (emit_log cb s tr))
    /\ ~ In (Polled true) new.
Proof.
  unfold emit_log. destruct (log_cb cb) as [f|] eqn:Hf.
  - exists [Emitted (f s)]. simpl. repeat split.
    + apply gen_log; [exact Hf|apply gen_nil].
    + intros [H|[]]. discriminate.
  - exists []. rewrite app_nil_r. repeat split; [apply gen_nil|intros []].
Qed.

Lemma emit_progress_trace (p : Z) (tr : Trace E) :
  exists new,
    entries (emit_progress cb p tr) = entries tr ++ new
    /\ generated cb (polls tr) new (polls (emit_progress cb p tr))
    /\ ~ In (Polled true) new.
Proof.
  unfold emit_progress. destruct (progress_cb cb) as [g|] eqn:Hg.
  - exists [Emitted (g p)]. simpl. repeat split.
    + apply gen_progress; [exact Hg|apply gen_nil].
    + intros [H|[]]. discriminate.
  - exists []. rewrite app_nil_r. repeat split; [apply gen_nil|intros []].
Qed.

Lemma poll_trace (tr tr1 : Trace E) (c : bool) :
  poll cb tr = (c, tr1) ->
  exists new,
    entries tr1 = entries tr ++ new
    /\ generated cb (polls tr) new (polls tr1)
    /\ (new = [Polled c] \/ (new = [] /\ c = false)).
Proof.
  unfold poll. destruct (cancel_flag cb) as [f|] eqn:Hf; intros H;
    injection H as <- <-.
  - exists [Polled (f (polls tr))]. simpl. repeat split.
    + apply gen_poll; [exact Hf|apply gen_nil].
    + left. reflexivity.
  - exists []. rewrite app_nil_r. repeat split; [apply gen_nil|].
    right. split; reflexivity.
Qed.

Lemma ends_cancelled_app (pre new : list (entry E)) :
  ~ In (Polled true) pre -> ends_cancelled new ->
  ends_cancelled (pre ++ new).
Proof.
  intros Hpre [mid [-> Hmid]]. exists (pre ++ mid). split.
  - rewrite app_assoc. reflexivity.
  - intros H. apply in_app_or in H. tauto.
Qed.

Lemma run_shape_step (A : Type) (stop : A -> Prop) (tr tr1 tr2 : Trace E)
      (pre1 pre2 : list (entry E)) (out : A * Trace E) :
  entries tr1 = entries tr ++ pre1 ->
  generated cb (polls tr) pre1 (polls tr1) ->
  ~ In (Polled true) pre1 ->
  entries tr2 = entries tr1 ++ pre2 ->
  generated cb (polls tr1) pre2 (polls tr2) ->
  ~ In (Polled true) pre2 ->
  run_shape cb stop tr2 out -> run_shape cb stop tr out.
Proof.
  intros E1 G1 Q1 E2 G2 Q2 [new [E3 [G3 H3]]].
  exists (pre1 ++ pre2 ++ new). split; [|split].
  - rewrite E3, E2, E1, <- !app_assoc. reflexivity.
  - eapply generated_app; [exact G1|].
    eapply generated_app; [exact G2|exact G3].
  - intros Hin. apply in_app_or in Hin. destruct Hin as [Hin|Hin]; [tauto|].
    apply in_app_or in Hin. destruct Hin as [Hin|Hin]; [tauto|].
    destruct (H3 Hin) as [Hs He]. split; [exact Hs|].
    apply ends_cancelled_app; [exact Q1|].
    apply ends_cancelled_app; [exact Q2|exact He].
Qed.

End AssemblerFacts.

Section LoopFacts.
Variable E : Type.
Variable w : World.
Variable emd_dir : Path.
Variable cb : Callbacks E.

Lemma poll_quiet (tr tr1 : Trace E) (c : bool) (new : list (entry E)) :
  new = [Polled c] \/ (new = [] /\ c = false) -> c = false ->
  ~ In (Polled true) new.
Proof.
  intros [->|[-> _]] -> H; [|contradiction].
  destruct H as [H|[]]. discriminate.
Qed.

Lemma collect_shape (files : list Path) :
  forall total idx records tr,
    run_shape cb (fun out => out = Cancelled) tr
              (collect w emd_dir cb total idx files records tr).
Proof.
  induction files as [|img rest IH]; intros total idx records tr;
    cbn [collect].
  - shape_with (@nil (entry E)). intros [].
  - destruct (poll cb tr) as [c tr1] eqn:Hp.
    apply poll_trace in Hp. destruct Hp as [p [E1 [G1 Hc]]].
    destruct c.
    + shape_with p. intros _. split; [reflexivity|].
      destruct Hc as [->|[_ Hc]]; [|discriminate].
      exists []. split; [reflexivity|intros []].
    + pose proof (poll_quiet tr tr1 false p Hc eq_refl) as Q1.
      destruct (find_matching_emd w img emd_dir) as [emd_path|].
      * destruct (extract_alpha_tilt_from_emd w emd_path) as [[alpha|]|e].
        -- destruct (emit_progress_trace E cb
                       (percent (Z.of_nat idx + 1)
                                (Z.max (Z.of_nat total) 1) 50) tr1)
             as [p2 [E2 [G2 Q2]]].
           eapply run_shape_step; [exact E1|exact G1|exact Q1|exact E2
                                  |exact G2|exact Q2|apply IH].
        -- destruct (emit_log_trace E cb
                       (warning_sign ++ t " AlphaTilt not found for: "
                                     ++ name emd_path) tr1)
             as [p2 [E2 [G2 Q2]]].
           eapply run_shape_step; [exact E1|exact G1|exact Q1|exact E2
                                  |exact G2|exact Q2|apply IH].
        -- shape_with p. intros Hin. contradiction.
      * destruct (emit_log_trace E cb
                    (warning_sign ++ t " EMD not found for: "
                                  ++ name img) tr1)
          as [p2 [E2 [G2 Q2]]].
        eapply run_shape_step; [exact E1|exact G1|exact Q1|exact E2
                               |exact G2|exact Q2|apply IH].
Qed.

Lemma matched_cons (img : Path) (rest : list Path) :
  matched w emd_dir (img :: rest)
  = match angle_of w emd_dir img with
    | Some alpha => [(alpha, img)]
    | None => []
    end ++ matched w emd_dir rest.
Proof. reflexivity. Qed.

(** The records of the first loop are the matched images, in input
    order. *)
Lemma collect_records (files : list Path) :
  forall total idx records tr records' tr',
    collect w emd_dir cb total idx files records tr
    = (Records records', tr') ->
    records' = records ++ matched w emd_dir files.
Proof.
  induction files as [|img rest IH]; intros total idx records tr rs tr';
    cbn [collect].
  - intros H. injection H as <- <-. rewrite app_nil_r. reflexivity.
  - destruct (poll cb tr) as [c tr1]. destruct c; [discriminate|].
    rewrite matched_cons. unfold angle_of.
    destruct (find_matching_emd w img emd_dir) as [emd_path|].
    + destruct (extract_alpha_tilt_from_emd w emd_path) as [[alpha|]|e].
      * intros H. apply IH in H. rewrite H, <- app_assoc. reflexivity.
      * intros H. apply IH in H. exact H.
      * discriminate.
    + intros H. apply IH in H. exact H.
Qed.

Lemma stack_loop_shape (records : list (float * Path)) :
  forall n j stack tr,
    run_shape cb (fun r => r = Ok None) tr
              (stack_loop w cb n j records stack tr).
Proof.
  induction records as [|[alpha img] rest IH]; intros n j stack tr;
    cbn [stack_loop].
  - shape_with (@nil (entry E)). intros [].
  - destruct (poll cb tr) as [c tr1] eqn:Hp.
    apply poll_trace in Hp. destruct Hp as [p [E1 [G1 Hc]]].
    destruct c.
    + shape_with p. intros _. split; [reflexivity|].
      destruct Hc as [->|[_ Hc]]; [|discriminate].
      exists []. split; [reflexivity|intros []].
    + pose proof (poll_quiet tr tr1 false p Hc eq_refl) as Q1.
      destruct (image_open w img) as [im|e].
      * destruct (emit_progress_trace E cb
                    (50 + percent (Z.of_nat j + 1)
                                  (Z.max (Z.of_nat n) 1) 50) tr1)
          as [p2 [E2 [G2 Q2]]].
        eapply run_shape_step; [exact E1|exact G1|exact Q1|exact E2
                               |exact G2|exact Q2|apply IH].
      * shape_with p. intros Hin. contradiction.
Qed.

(** The arrays of the second loop are the decoded images of the records,
    in the order of the records. *)
Lemma stack_loop_decoded (records : list (float * Path)) :
  forall n j stack tr stack' tr',
    stack_loop w cb n j records stack tr = (Ok (Some stack'), tr') ->
    exists imgs,
      stack' = stack ++ imgs
      /\ Forall2 (fun r img => image_open w (snd r) = Ok img) records imgs.
Proof.
  induction records as [|[alpha img] rest IH];
    intros n j stack tr stack' tr'; cbn [stack_loop].
  - intros H. injection H as <- <-. exists []. rewrite app_nil_r.
    split; [reflexivity|constructor].
  - destruct (poll cb tr) as [c tr1]. destruct c; [discriminate|].
    destruct (image_open w img) as [im|e] eqn:Him; [|discriminate].
    intros H. apply IH in H. destruct H as [imgs [-> HF]].
    exists (im :: imgs). rewrite <- app_assoc. split; [reflexivity|].
    constructor; [exact Him|exact HF].
Qed.

Lemma np_stack_Ok (l : list Array2) (v : Volume) :
  np_stack l = Ok v -> v = l.
Proof.
  unfold np_stack. destruct l as [|a l]; [discriminate|].
  destruct (forallb _ l); [|discriminate].
  intros H. injection H as <-. reflexivity.
Qed.

Lemma load_shape (files : list Path) (tr : Trace E) :
  run_shape cb (fun r => r = Ok None) tr
            (load_images_sorted_by_alpha w emd_dir cb files tr).
Proof.
  unfold load_images_sorted_by_alpha.
  pose proof (collect_shape files (length files) 0 [] tr) as H1.
  destruct (collect w emd_dir cb (length files) 0 files [] tr)
    as [out tr1].
  destruct H1 as [new1 [E1 [G1 H1]]]. simpl in E1, G1, H1.
  destruct out as [records| |e].
  - assert (Q1 : ~ In (Polled true) new1).
    { intros Hin. destruct (H1 Hin) as [Hc _]. discriminate. }
    destruct records as [|r records].
    + shape_with new1. intros Hin. contradiction.
    + set (sorted := sort ltb (@fst float Path) (r :: records)).
      pose proof (stack_loop_shape sorted (length sorted) 0 [] tr1) as H2.
      destruct (stack_loop w cb (length sorted) 0 sorted [] tr1)
        as [res tr2].
      destruct H2 as [new2 [E2 [G2 H2]]]. simpl in E2, G2, H2.
      assert (Hin2 : In (Polled true) (new1 ++ new2) ->
                     res = Ok None /\ ends_cancelled (new1 ++ new2)).
      { intros Hin. apply in_app_or in Hin.
        destruct Hin as [Hin|Hin]; [contradiction|].
        destruct (H2 Hin) as [Hr He]. split; [exact Hr|].
        apply ends_cancelled_app; assumption. }
      assert (Es : entries tr2 = entries tr ++ new1 ++ new2)
        by (rewrite E2, E1, <- app_assoc; reflexivity).
      assert (Gs : generated cb (polls tr) (new1 ++ new2) (polls tr2))
        by (eapply generated_app; eassumption).
      destruct res as [[stack|]|e].
      * destruct (np_stack stack) as [v|e];
          (shape_with (new1 ++ new2); intros Hin;
           destruct (Hin2 Hin) as [Hr He]; discriminate).
      * shape_with (new1 ++ new2). intros Hin.
        destruct (Hin2 Hin) as [Hr He]. split; [reflexivity|exact He].
      * shape_with (new1 ++ new2). intros Hin.
        destruct (Hin2 Hin) as [Hr He]. discriminate.
  - shape_with new1. intros Hin.
    destruct (H1 Hin) as [_ He]. split; [reflexivity|exact He].
  - shape_with new1. intros Hin.
    destruct (H1 Hin) as [Hc He]. discriminate.
Qed.

End LoopFacts.

(* ===================================================================== *)
(** * The worker                                                          *)
(* ===================================================================== *)

Section WorkerFacts.
Variable w : World.
Variable self : GUI.Worker.

Lemma quiet_no_write_after_cancel (l : list (entry GUI.effect)) :
  ~ In (Polled true) l -> no_write_after_cancel l.
Proof.
  intros Q pre post p v -> H. apply Q. apply in_or_app. left. exact H.
Qed.

Lemma no_write_after_cancel_app (l new : list (entry GUI.effect)) :
  no_write_after_cancel l ->
  Forall (fun en => not_a_write en = true) new ->
  no_write_after_cancel (l ++ new).
Proof.
  intros Hl Hnew pre post p v Heq.
  apply app_eq_app in Heq. destruct Heq as [k [[H1 H2]|[H1 H2]]].
  - destruct k as [|x k].
    + simpl in H2. rewrite Forall_forall in Hnew.
      assert (Hin : In (Emitted (GUI.wrote p v)) new)
        by (rewrite <- H2; left; reflexivity).
      apply Hnew in Hin. discriminate.
    + simpl in H2. injection H2 as <- H2.
      apply (Hl pre k p v). exact H1.
  - rewrite Forall_forall in Hnew.
    assert (Hin : In (Emitted (GUI.wrote p v)) new)
      by (rewrite H2; apply in_or_app; right; left; reflexivity).
    apply Hnew in Hin. discriminate.
Qed.

(** What the assembler adds to the trace of the worker. *)
Lemma load_worker (total i : nat) (files : list Path)
      (tr : Trace GUI.effect) :
  let out := load_images_sorted_by_alpha w (GUI.emd_dir self)
               (GUI.callbacks_of self total i) files tr in
  exists new,
    entries (snd out) = entries tr ++ new
    /\ polls tr <= polls (snd out)
    /\ Forall (fun en => from_assembler en = true) new
    /\ (In (Polled true) new ->
        fst out = Ok None
        /\ exists j, j < polls (snd out)
                     /\ GUI.is_cancelled self j = true).
Proof.
  intros out.
  destruct (load_shape GUI.effect w (GUI.emd_dir self)
              (GUI.callbacks_of self total i) files tr)
    as [new [E1 [G1 H1]]].
  fold out in E1, G1, H1.
  exists new. split; [exact E1|]. split; [|split].
  - eapply generated_le. exact G1.
  - apply Forall_forall. intros [e|b] Hin; [|reflexivity].
    destruct (generated_emitted _ _ _ _ _ _ G1 Hin)
      as [[f [s [Hf ->]]]|[g [p [Hg ->]]]].
    + simpl in Hf. injection Hf as <-. reflexivity.
    + simpl in Hg. injection Hg as <-. reflexivity.
  - intros Hin. destruct (H1 Hin) as [Hr _]. split; [exact Hr|].
    destruct (generated_polled _ _ _ _ _ _ G1 Hin)
      as [c [j [Hc [Hj Hb]]]].
    simpl in Hc. injection Hc as <-. exists j. split; [lia|exact Hb].
Qed.

Lemma from_assembler_not_a_write (new : list (entry GUI.effect)) :
  Forall (fun en => from_assembler en = true) new ->
  Forall (fun en => not_a_write en = true) new.
Proof.
  apply Forall_impl. intros [[| | | |]|b]; simpl; congruence.
Qed.

Lemma from_assembler_not_terminal (new : list (entry GUI.effect)) :
  Forall (fun en => from_assembler en = true) new ->
  Forall (fun en => is_terminal en = false) new.
Proof.
  apply Forall_impl. intros [[| | | |]|b]; simpl; congruence.
Qed.

(** The loop of the worker emits neither [finished] nor [error]. *)
Lemma run_loop_no_terminal (sources : list text) :
  forall total i tr oe tr',
    GUI.run_loop w self total i sources tr = (oe, tr') ->
    Forall (fun en => is_terminal en = false) (entries tr) ->
    Forall (fun en => is_terminal en = false) (entries tr').
Proof.
  induction sources as [|source rest IH]; intros total i tr oe tr';
    cbn [GUI.run_loop].
  - intros H. injection H as <- <-. tauto.
  - destruct (GUI.is_cancelled self (polls tr)).
    + intros H. injection H as <- <-. intros T. simpl.
      rewrite <- app_assoc. apply Forall_app. split; [exact T|].
      repeat constructor.
    + set (tr2 := GUI.emit _ _).
      pose proof (load_worker total i
                    match get (GUI.groups self) source with
                    | Some l => l
                    | None => []
                    end tr2) as HL.
      cbv zeta in HL.
      destruct (load_images_sorted_by_alpha _ _ _ _ tr2) as [r tr3].
      destruct HL as [new [E3 [_ [F3 _]]]]. simpl in E3.
      assert (T3 : Forall (fun en => is_terminal en = false) (entries tr) ->
                   Forall (fun en => is_terminal en = false) (entries tr3)).
      { intros T. rewrite E3. subst tr2. simpl. rewrite <- !app_assoc.
        apply Forall_app. split; [exact T|].
        constructor; [reflexivity|]. constructor; [reflexivity|].
        apply from_assembler_not_terminal. exact F3. }
      destruct r as [[stack|]|e].
      * destruct (write_mrc w stack _) as [u|e].
        -- intros H T. apply IH in H; [exact H|]. simpl.
           rewrite <- app_assoc. apply Forall_app. split; [auto|].
           repeat constructor.
        -- intros H. injection H as <- <-. exact T3.
      * intros H T. apply IH in H; [exact H|]. simpl.
        apply Forall_app. split; [auto|]. repeat constructor.
      * intros H. injection H as <- <-. exact T3.
Qed.

(** With a flag that stays set, the loop of the worker writes no volume
    after a poll was answered true, and a poll answered true in the trace
    means that the flag is set. *)
Lemma run_loop_cancel (sources : list text) :
  monotone (GUI.is_cancelled self) ->
  forall total i tr oe tr',
    GUI.run_loop w self total i sources tr = (oe, tr') ->
    (In (Polled true) (entries tr) ->
     exists j, j < polls tr /\ GUI.is_cancelled self j = true) ->
    no_write_after_cancel (entries tr) ->
    no_write_after_cancel (entries tr').
Proof.
  intros Hmono.
  induction sources as [|source rest IH]; intros total i tr oe tr';
    cbn [GUI.run_loop].
  - intros H. injection H as <- <-. tauto.
  - destruct (GUI.is_cancelled self (polls tr)) eqn:Hc.
    + intros H. injection H as <- <-. intros _ W. simpl.
      rewrite <- app_assoc. apply no_write_after_cancel_app; [exact W|].
      repeat constructor.
    + intros H J _.
      assert (Q : ~ In (Polled true) (entries tr)).
      { intros Hin. destruct (J Hin) as [j [Hj Hb]].
        rewrite (Hmono j (polls tr)) in Hc; [discriminate|lia|exact Hb]. }
      revert H. set (tr2 := GUI.emit _ _).
      assert (Q2 : ~ In (Polled true) (entries tr2)).
      { subst tr2. simpl. intros Hin.
        apply in_app_or in Hin. destruct Hin as [Hin|[Hin|[]]];
          [|discriminate].
        apply in_app_or in Hin. destruct Hin as [Hin|[Hin|[]]];
          [contradiction|discriminate]. }
      pose proof (load_worker total i
                    match get (GUI.groups self) source with
                    | Some l => l
                    | None => []
                    end tr2) as HL.
      cbv zeta in HL.
      destruct (load_images_sorted_by_alpha _ _ _ _ tr2) as [r tr3].
      destruct HL as [new [E3 [L3 [F3 H3]]]]. simpl in E3, L3, H3.
      assert (W3 : no_write_after_cancel (entries tr3)).
      { rewrite E3. apply no_write_after_cancel_app.
        - apply quiet_no_write_after_cancel. exact Q2.
        - apply from_assembler_not_a_write. exact F3. }
      assert (J3 : In (Polled true) (entries tr3) ->
                   exists j, j < polls tr3
                             /\ GUI.is_cancelled self j = true).
      { rewrite E3. intros Hin. apply in_app_or in Hin.
        destruct Hin as [Hin|Hin]; [contradiction|].
        apply H3. exact Hin. }
      destruct r as [[stack|]|e].
      * assert (Q3 : ~ In (Polled true) (entries tr3)).
        { rewrite E3. intros Hin. apply in_app_or in Hin.
          destruct Hin as [Hin|Hin]; [contradiction|].
          destruct (H3 Hin) as [Hr _]. discriminate. }
        destruct (write_mrc w stack _) as [u|e].
        -- intros H. apply IH in H; [exact H| |].
           ++ simpl. intros Hin.
              apply in_app_or in Hin. destruct Hin as [Hin|[Hin|[]]];
                [|discriminate].
              apply in_app_or in Hin. destruct Hin as [Hin|[Hin|[]]];
                [contradiction|discriminate].
           ++ apply quiet_no_write_after_cancel. simpl. intros Hin.
              apply in_app_or in Hin. destruct Hin as [Hin|[Hin|[]]];
                [|discriminate].
              apply in_app_or in Hin. destruct Hin as [Hin|[Hin|[]]];
                [contradiction|discriminate].
        -- intros H. injection H as <- <-. exact W3.
      * intros H. apply IH in H; [exact H| |].
        -- simpl. intros Hin.
           apply in_app_or in Hin. destruct Hin as [Hin|[Hin|[]]];
             [|discriminate].
           apply J3. exact Hin.
        -- simpl. apply no_write_after_cancel_app; [exact W3|].
           repeat constructor.
      * intros H. injection H as <- <-. exact W3.
Qed.

End WorkerFacts.

Section CancelPoints.
Variable E : Type.
Variable w : World.
Variable emd_dir : Path.
Variable cb : Callbacks E.
Variable c : nat -> bool.
Hypothesis flag : cancel_flag cb = Some c.

Lemma poll_answer (tr : Trace E) :
  poll cb tr
  = (c (polls tr),
     mkTrace (entries tr ++ [Polled (c (polls tr))]) (S (polls tr))).
Proof. unfold poll. rewrite flag. reflexivity. Qed.

Lemma emit_log_quiet (s : text) (tr : Trace E) :
  polls (emit_log cb s tr) = polls tr
  /\ exists new,
      entries (emit_log cb s tr) = entries tr ++ new
      /\ ~ In (Polled true) new.
Proof.
  unfold emit_log. destruct (log_cb cb) as [f|]; simpl.
  - split; [reflexivity|]. exists [Emitted (f s)].
    split; [reflexivity|]. intros [H|[]]. discriminate.
  - split; [reflexivity|]. exists []. rewrite app_nil_r.
    split; [reflexivity|]. intros [].
Qed.

Lemma emit_progress_quiet (p : Z) (tr : Trace E) :
  polls (emit_progress cb p tr) = polls tr
  /\ exists new,
      entries (emit_progress cb p tr) = entries tr ++ new
      /\ ~ In (Polled true) new.
Proof.
  unfold emit_progress. destruct (progress_cb cb) as [g|]; simpl.
  - split; [reflexivity|]. exists [Emitted (g p)].
    split; [reflexivity|]. intros [H|[]]. discriminate.
  - split; [reflexivity|]. exists []. rewrite app_nil_r.
    split; [reflexivity|]. intros [].
Qed.

(** A run that stops at its [k]-th poll, after [m] polls answered false
    and entries without a poll answered true. *)
Lemma stopped_at_after (m k : nat) (tr tr1 tr' : Trace E)
      (new : list (entry E)) :
  polls tr1 = polls tr + m ->
  entries tr1 = entries tr ++ new ->
  ~ In (Polled true) new ->
  stopped_at k tr1 tr' -> stopped_at (m + k) tr tr'.
Proof.
  intros Hp He Hq [Hk [mid [Hm Hnot]]]. split; [lia|].
  exists (new ++ mid). split.
  - rewrite Hm, He, <- !app_assoc. reflexivity.
  - intros H. apply in_app_or in H. tauto.
Qed.

(** One turn of a loop whose poll is answered false, followed by a call of
    a sink. *)
Lemma stopped_at_turn (k : nat) (tr tr2 tr' : Trace E) :
  polls tr2 = S (polls tr) ->
  (exists new,
      entries tr2 = (entries tr ++ [Polled false]) ++ new
      /\ ~ In (Polled true) new) ->
  stopped_at k tr2 tr' -> stopped_at (S k) tr tr'.
Proof.
  intros Hp [new [He Hq]] H.
  apply (stopped_at_after 1 k tr tr2 tr' (Polled false :: new)).
  - lia.
  - rewrite He, <- app_assoc. reflexivity.
  - intros [Hin|Hin]; [discriminate|contradiction].
  - exact H.
Qed.

(** The first loop stops at the poll before the image [img], when the
    polls before the images of [pre] are answered false and the containers
    of [pre] open. Nothing is asked of [img] or of the images after it. *)
Lemma collect_stops (pre : list Path) (img : Path) (post : list Path) :
  (forall p emd_path,
      In p pre -> find_matching_emd w p emd_dir = Some emd_path ->
      exists r, extract_alpha_tilt_from_emd w emd_path = Ok r) ->
  forall total idx records tr,
    (forall i, i < length pre -> c (polls tr + i) = false) ->
    c (polls tr + length pre) = true ->
    exists tr',
      collect w emd_dir cb total idx (pre ++ img :: post) records tr
      = (Cancelled, tr')
      /\ stopped_at (length pre) tr tr'.
Proof.
  induction pre as [|p pre IH]; intros Hopen total idx records tr Hf Ht;
    cbn [collect app]; rewrite poll_answer.
  - simpl in Ht. rewrite Nat.add_0_r in Ht. rewrite Ht.
    eexists. split; [reflexivity|]. split; [simpl; lia|].
    exists []. split; [reflexivity|intros []].
  - assert (H0 : c (polls tr) = false).
    { rewrite <- (Nat.add_0_r (polls tr)). apply Hf. simpl. lia. }
    rewrite H0.
    assert (Hrest : forall p' emd_path,
               In p' pre -> find_matching_emd w p' emd_dir = Some emd_path ->
               exists r, extract_alpha_tilt_from_emd w emd_path = Ok r).
    { intros p' emd_path Hin. apply Hopen. right. exact Hin. }
    assert (Hnext : forall tr2 : Trace E,
               polls tr2 = S (polls tr) ->
               (forall i, i < length pre -> c (polls tr2 + i) = false)
               /\ c (polls tr2 + length pre) = true).
    { intros tr2 Hp. rewrite Hp. split.
      - intros i Hi. replace (S (polls tr) + i) with (polls tr + S i) by lia.
        apply Hf. simpl. lia.
      - replace (S (polls tr) + length pre)
          with (polls tr + length (p :: pre)) by (simpl; lia).
        exact Ht. }
    set (tr1 := mkTrace (entries tr ++ [Polled false]) (S (polls tr))).
    destruct (find_matching_emd w p emd_dir) as [emd_path|] eqn:Ef.
    + destruct (Hopen p emd_path (or_introl eq_refl) Ef) as [r Hr].
      rewrite Hr. destruct r as [alpha|].
      * match goal with
        | |- context [emit_progress cb ?v tr1] =>
            destruct (emit_progress_quiet v tr1) as [Hp Hq];
            set (tr2 := emit_progress cb v tr1) in *
        end.
        destruct (Hnext tr2 Hp) as [Hf2 Ht2].
        destruct (IH Hrest total (S idx) (records ++ [(alpha, p)]) tr2
                     Hf2 Ht2) as [tr' [Hc Hs]].
        exists tr'. split; [exact Hc|].
        apply (stopped_at_turn (length pre) tr tr2 tr' Hp Hq Hs).
      * match goal with
        | |- context [emit_log cb ?v tr1] =>
            destruct (emit_log_quiet v tr1) as [Hp Hq];
            set (tr2 := emit_log cb v tr1) in *
        end.
        destruct (Hnext tr2 Hp) as [Hf2 Ht2].
        destruct (IH Hrest total (S idx) records tr2 Hf2 Ht2)
          as [tr' [Hc Hs]].
        exists tr'. split; [exact Hc|].
        apply (stopped_at_turn (length pre) tr tr2 tr' Hp Hq Hs).
    + match goal with
      | |- context [emit_log cb ?v tr1] =>
          destruct (emit_log_quiet v tr1) as [Hp Hq];
          set (tr2 := emit_log cb v tr1) in *
      end.
      destruct (Hnext tr2 Hp) as [Hf2 Ht2].
      destruct (IH Hrest total (S idx) records tr2 Hf2 Ht2)
        as [tr' [Hc Hs]].
      exists tr'. split; [exact Hc|].
      apply (stopped_at_turn (length pre) tr tr2 tr' Hp Hq Hs).
Qed.

(** The first loop ends with the matched images when its polls, one for
    each image, are answered false and the containers open. *)
Lemma collect_passes (files : list Path) :
  (forall p emd_path,
      In p files -> find_matching_emd w p emd_dir = Some emd_path ->
      exists r, extract_alpha_tilt_from_emd w emd_path = Ok r) ->
  forall total idx records tr,
    (forall i, i < length files -> c (polls tr + i) = false) ->
    exists tr',
      collect w emd_dir cb total idx files records tr
      = (Records (records ++ matched w emd_dir files), tr')
      /\ polls tr' = polls tr + length files
      /\ exists new,
          entries tr' = entries tr ++ new /\ ~ In (Polled true) new.
Proof.
  induction files as [|p files IH]; intros Hopen total idx records tr Hf;
    cbn [collect].
  - exists tr. rewrite app_nil_r. split; [reflexivity|].
    split; [simpl; lia|]. exists []. rewrite app_nil_r.
    split; [reflexivity|intros []].
  - rewrite poll_answer.
    assert (H0 : c (polls tr) = false).
    { rewrite <- (Nat.add_0_r (polls tr)). apply Hf. simpl. lia. }
    rewrite H0.
    assert (Hrest : forall p' emd_path,
               In p' files ->
               find_matching_emd w p' emd_dir = Some emd_path ->
               exists r, extract_alpha_tilt_from_emd w emd_path = Ok r).
    { intros p' emd_path Hin. apply Hopen. right. exact Hin. }
    assert (Hnext : forall tr2 : Trace E,
               polls tr2 = S (polls tr) ->
               forall i, i < length files -> c (polls tr2 + i) = false).
    { intros tr2 Hp i Hi. rewrite Hp.
      replace (S (polls tr) + i) with (polls tr + S i) by lia.
      apply Hf. simpl. lia. }
    assert (Hjoin : forall (tr2 tr' : Trace E) rs,
               polls tr2 = S (polls tr) ->
               (exists new,
                   entries tr2 = (entries tr ++ [Polled false]) ++ new
                   /\ ~ In (Polled true) new) ->
               (exists tr'',
                   collect w emd_dir cb total (S idx) files rs tr2
                   = (Records (rs ++ matched w emd_dir files), tr'')
                   /\ polls tr'' = polls tr2 + length files
                   /\ exists new,
                       entries tr'' = entries tr2 ++ new
                       /\ ~ In (Polled true) new) ->
               exists tr'',
                 collect w emd_dir cb total (S idx) files rs tr2
                 = (Records (rs ++ matched w emd_dir files), tr'')
                 /\ polls tr'' = polls tr + length (p :: files)
                 /\ exists new,
                     entries tr'' = entries tr ++ new
                     /\ ~ In (Polled true) new).
    { intros tr2 _ rs Hp [n1 [E1 Q1]] [tr'' [Hc [Hp2 [n2 [E2 Q2]]]]].
      exists tr''. split; [exact Hc|]. split; [simpl; lia|].
      exists (Polled false :: n1 ++ n2). split.
      - rewrite E2, E1, <- !app_assoc. reflexivity.
      - intros [H|H]; [discriminate|].
        apply in_app_or in H. tauto. }
    set (tr1 := mkTrace (entries tr ++ [Polled false]) (S (polls tr))).
    rewrite matched_cons. unfold angle_of.
    destruct (find_matching_emd w p emd_dir) as [emd_path|] eqn:Ef.
    + destruct (Hopen p emd_path (or_introl eq_refl) Ef) as [r Hr].
      rewrite Hr. destruct r as [alpha|].
      * match goal with
        | |- context [emit_progress cb ?v tr1] =>
            destruct (emit_progress_quiet v tr1) as [Hp Hq];
            set (tr2 := emit_progress cb v tr1) in *
        end.
        rewrite app_assoc.
        apply (Hjoin tr2 tr2 _ Hp Hq).
        apply (IH Hrest). apply Hnext. exact Hp.
      * match goal with
        | |- context [emit_log cb ?v tr1] =>
            destruct (emit_log_quiet v tr1) as [Hp Hq];
            set (tr2 := emit_log cb v tr1) in *
        end.
        apply (Hjoin tr2 tr2 _ Hp Hq).
        apply (IH Hrest). apply Hnext. exact Hp.
    + match goal with
      | |- context [emit_log cb ?v tr1] =>
          destruct (emit_log_quiet v tr1) as [Hp Hq];
          set (tr2 := emit_log cb v tr1) in *
      end.
      apply (Hjoin tr2 tr2 _ Hp Hq).
      apply (IH Hrest). apply Hnext. exact Hp.
Qed.

(** The stacking loop stops at the poll before the decoding of the record
    [r], when the polls before the records of [pre] are answered false and
    the images of [pre] decode. Nothing is asked of the image of [r]. *)
Lemma stack_loop_stops (pre : list (float * Path)) (r : float * Path)
      (post : list (float * Path)) :
  (forall r', In r' pre -> exists im, image_open w (snd r') = Ok im) ->
  forall n j stack tr,
    (forall i, i < length pre -> c (polls tr + i) = false) ->
    c (polls tr + length pre) = true ->
    exists tr',
      stack_loop w cb n j (pre ++ r :: post) stack tr = (Ok None, tr')
      /\ stopped_at (length pre) tr tr'.
Proof.
  induction pre as [|[alpha p] pre IH]; intros Hdec n j stack tr Hf Ht;
    cbn [stack_loop app].
  - destruct r as [alpha p]. rewrite poll_answer.
    simpl in Ht. rewrite Nat.add_0_r in Ht. rewrite Ht.
    eexists. split; [reflexivity|]. split; [simpl; lia|].
    exists []. split; [reflexivity|intros []].
  - rewrite poll_answer.
    assert (H0 : c (polls tr) = false).
    { rewrite <- (Nat.add_0_r (polls tr)). apply Hf. simpl. lia. }
    rewrite H0.
    destruct (Hdec (alpha, p) (or_introl eq_refl)) as [im Him].
    simpl in Him. rewrite Him.
    set (tr1 := mkTrace (entries tr ++ [Polled false]) (S (polls tr))).
    match goal with
    | |- context [emit_progress cb ?v tr1] =>
        destruct (emit_progress_quiet v tr1) as [Hp Hq];
        set (tr2 := emit_progress cb v tr1) in *
    end.
    assert (Hp' : polls tr2 = S (polls tr)) by exact Hp.
    destruct (IH (fun r' Hin => Hdec r' (or_intror Hin))
                 n (S j) (stack ++ [im]) tr2) as [tr' [Hc Hs]].
    + intros i Hi. rewrite Hp'.
      replace (S (polls tr) + i) with (polls tr + S i) by lia.
      apply Hf. simpl. lia.
    + rewrite Hp'.
      replace (S (polls tr) + length pre)
        with (polls tr + length ((alpha, p) :: pre)) by (simpl; lia).
      exact Ht.
    + exists tr'. split; [exact Hc|].
      apply (stopped_at_turn (length pre) tr tr2 tr' Hp' Hq Hs).
Qed.

(** The assembler with a predicate that is true at a poll of the stacking
    loop. *)
Lemma load_stops_in_stacking (files : list Path)
      (pre : list (float * Path)) (r : float * Path)
      (post : list (float * Path)) (tr : Trace E) :
  (forall p emd_path,
      In p files -> find_matching_emd w p emd_dir = Some emd_path ->
      exists r, extract_alpha_tilt_from_emd w emd_path = Ok r) ->
  sort ltb (@fst float Path) (matched w emd_dir files) = pre ++ r :: post ->
  (forall r', In r' pre -> exists im, image_open w (snd r') = Ok im) ->
  (forall i, i < length files + length pre -> c (polls tr + i) = false) ->
  c (polls tr + (length files + length pre)) = true ->
  exists tr',
    load_images_sorted_by_alpha w emd_dir cb files tr = (Ok None, tr')
    /\ stopped_at (length files + length pre) tr tr'.
Proof.
  intros Hopen Hsort Hdec Hf Ht. unfold load_images_sorted_by_alpha.
  destruct (collect_passes files Hopen (length files) 0 [] tr)
    as [tr1 [Hc [Hp [new [He Hq]]]]].
  { intros i Hi. apply Hf. lia. }
  rewrite Hc. cbn [app].
  destruct (matched w emd_dir files) as [|r0 records] eqn:Em.
  { simpl in Hsort. destruct pre; discriminate. }
  rewrite Hsort.
  destruct (stack_loop_stops pre r post Hdec
              (length (pre ++ r :: post)) 0 [] tr1) as [tr' [Hl Hs]].
  - intros i Hi. rewrite Hp, <- Nat.add_assoc. apply Hf. lia.
  - rewrite Hp, <- Nat.add_assoc. exact Ht.
  - rewrite Hl. exists tr'. split; [reflexivity|].
    apply (stopped_at_after (length files) (length pre) tr tr1 tr' new
             Hp He Hq Hs).
Qed.

End CancelPoints.

(** C4. The assembler polls the cancellation predicate before the work on
    every image, in both loops: before the lookup of the container of each
    input image, and before the decoding of each record in the order of the
    angles. Whenever a poll is answered true, the assembler returns "no
    result" and that poll is the last thing the run does: nothing is
    looked up, logged, reported or decoded after it. So a predicate that
    becomes true at the poll before an input image stops the first loop
    there, whatever that image and the ones after it are; and one that
    becomes true at the poll before the decoding of a record stops the
    stacking loop there, whether or not the image of that record decodes.
    When the predicate is true at the first poll, the run of a non-empty
    group consists of that poll alone. The assembler writes no file, and
    the worker, whose flag stays set once it is set, writes no volume after
    a poll that was answered true. *)
Theorem cancellation_gives_no_result :
  (forall (E : Type) (w : World) (emd_dir : Path) (cb : Callbacks E)
          (image_files : list Path) (tr : Trace E),
      let out := load_images_sorted_by_alpha w emd_dir cb image_files tr in
      exists new,
        entries (snd out) = entries tr ++ new
        /\ (In (Polled true) new ->
            fst out = Ok None /\ ends_cancelled new))
  /\ (forall (E : Type) (w : World) (emd_dir : Path) (cb : Callbacks E)
             (c : nat -> bool) (pre : list Path) (img_path : Path)
             (post : list Path) (tr : Trace E),
         cancel_flag cb = Some c ->
         (forall p emd_path,
             In p pre -> find_matching_emd w p emd_dir = Some emd_path ->
             exists r, extract_alpha_tilt_from_emd w emd_path = Ok r) ->
         (forall i, i < length pre -> c (polls tr + i) = false) ->
         c (polls tr + length pre) = true ->
         exists tr',
           load_images_sorted_by_alpha w emd_dir cb
             (pre ++ img_path :: post) tr = (Ok None, tr')
           /\ stopped_at (length pre) tr tr')
  /\ (forall (E : Type) (w : World) (emd_dir : Path) (cb : Callbacks E)
             (c : nat -> bool) (image_files : list Path)
             (pre : list (float * Path)) (r : float * Path)
             (post : list (float * Path)) (tr : Trace E),
         cancel_flag cb = Some c ->
         (forall p emd_path,
             In p image_files ->
             find_matching_emd w p emd_dir = Some emd_path ->
             exists r, extract_alpha_tilt_from_emd w emd_path = Ok r) ->
         sort ltb (@fst float Path) (matched w emd_dir image_files)
         = pre ++ r :: post ->
         (forall r', In r' pre -> exists im, image_open w (snd r') = Ok im) ->
         (forall i, i < length image_files + length pre ->
                    c (polls tr + i) = false) ->
         c (polls tr + (length image_files + length pre)) = true ->
         exists tr',
           load_images_sorted_by_alpha w emd_dir cb image_files tr
           = (Ok None, tr')
           /\ stopped_at (length image_files + length pre) tr tr')
  /\ (forall (E : Type) (w : World) (emd_dir : Path) (cb : Callbacks E)
             (c : nat -> bool) (img_path : Path) (rest : list Path)
             (tr : Trace E),
         cancel_flag cb = Some c -> c (polls tr) = true ->
         load_images_sorted_by_alpha w emd_dir cb (img_path :: rest) tr
         = (Ok None, mkTrace (entries tr ++ [Polled true]) (S (polls tr))))
  /\ (forall (w : World) (self : GUI.Worker),
         monotone (GUI.is_cancelled self) ->
         no_write_after_cancel (entries (GUI.run w self))).
Proof.
  split; [|split; [|split; [|split]]].
  - intros E w emd_dir cb image_files tr out.
    destruct (load_shape E w emd_dir cb image_files tr)
      as [new [E1 [_ H1]]].
    exists new. split; [exact E1|exact H1].
  - intros E w emd_dir cb c pre img_path post tr Hc Hopen Hf Ht.
    unfold load_images_sorted_by_alpha.
    destruct (collect_stops E w emd_dir cb c Hc pre img_path post Hopen
                (length (pre ++ img_path :: post)) 0 [] tr Hf Ht)
      as [tr' [Hcol Hs]].
    rewrite Hcol. exists tr'. split; [reflexivity|exact Hs].
  - intros E w emd_dir cb c image_files pre r post tr Hc Hopen Hsort Hdec
           Hf Ht.
    apply (load_stops_in_stacking E w emd_dir cb c Hc image_files pre r
             post tr Hopen Hsort Hdec Hf Ht).
  - intros E w emd_dir cb c img_path rest tr Hc Ht.
    unfold load_images_sorted_by_alpha. cbn [collect].
    unfold poll. rewrite Hc, Ht. reflexivity.
  - intros w self Hmono. unfold GUI.run.
    destruct (length (GUI.selected_sources self) =? 0).
    + apply quiet_no_write_after_cancel. simpl.
      intros [H|[]]. discriminate.
    + destruct (GUI.run_loop w self _ 0 _ _) as [oe tr] eqn:Hrun.
      apply (run_loop_cancel w self _ Hmono) in Hrun.
      * destruct oe as [e|]; simpl.
        -- apply no_write_after_cancel_app; [exact Hrun|].
           repeat constructor.
        -- rewrite <- app_assoc.
           apply no_write_after_cancel_app; [exact Hrun|].
           repeat constructor.
      * simpl. intros [].
      * apply quiet_no_write_after_cancel. simpl. intros [].
Qed.

Lemma cancellation_gives_no_result_witness :
  (exists new,
      entries
        (snd (load_images_sorted_by_alpha Examples.tilt_world
                Examples.data_dir Examples.cancel_at_3
                Examples.tilt_files Examples.start))
      = entries Examples.start ++ new
      /\ fst (load_images_sorted_by_alpha Examples.tilt_world
                Examples.data_dir Examples.cancel_at_3
                Examples.tilt_files Examples.start)
         = Ok None
      /\ ends_cancelled new)
  /\ (exists tr',
         load_images_sorted_by_alpha Examples.tilt_world Examples.data_dir
           Examples.cancel_at_3 Examples.tilt_files Examples.start
         = (Ok None, tr')
         /\ stopped_at 3 Examples.start tr')
  /\ (exists tr',
         load_images_sorted_by_alpha Examples.broken_world Examples.data_dir
           Examples.cancel_at_5 Examples.tilt_files Examples.start
         = (Ok None, tr')
         /\ stopped_at 5 Examples.start tr')
  /\ load_images_sorted_by_alpha Examples.tilt_world Examples.data_dir
       Examples.cancel_at_3 Examples.tilt_files
       (mkTrace [Polled false; Polled false; Polled false] 3)
     = (Ok None,
        mkTrace [Polled false; Polled false; Polled false; Polled true] 4)
  /\ no_write_after_cancel
       (entries (GUI.run Examples.tilt_world Examples.worker_cancelled)).
Proof.
  destruct cancellation_gives_no_result as [H1 [H2 [H3 [H4 H5]]]].
  split; [|split; [|split; [|split]]].
  - destruct (H1 GUI.effect Examples.tilt_world Examples.data_dir
                Examples.cancel_at_3 Examples.tilt_files Examples.start)
      as [new [E1 H]].
    exists new. split; [exact E1|]. apply H.
    vm_compute in E1. rewrite <- E1.
    repeat (first [left; reflexivity | right]).
  - apply (H2 GUI.effect Examples.tilt_world Examples.data_dir
              Examples.cancel_at_3 (fun n => 3 <=? n)
              [Examples.image_t1; Examples.image_t2; Examples.image_t3]
              Examples.image_t4 [] Examples.start eq_refl).
    + intros p emd_path Hin Hf. simpl in Hin.
      repeat (destruct Hin as [<-|Hin];
              [vm_compute in Hf; injection Hf as <-; eexists;
               vm_compute; reflexivity|]).
      contradiction.
    + intros i Hi. simpl in Hi.
      destruct i as [|[|[|i]]]; [reflexivity|reflexivity|reflexivity|lia].
    + reflexivity.
  - set (sorted := sort ltb (@fst float Path)
                     (matched Examples.broken_world Examples.data_dir
                        Examples.tilt_files)).
    apply (H3 GUI.effect Examples.broken_world Examples.data_dir
              Examples.cancel_at_5 (fun n => 5 <=? n) Examples.tilt_files
              (firstn 1 sorted)
              (nth 1 sorted (Examples.float_12_5, Examples.image_t1))
              (skipn 2 sorted) Examples.start eq_refl).
    + intros p emd_path Hin Hf. simpl in Hin.
      repeat (destruct Hin as [<-|Hin];
              [vm_compute in Hf;
               first [discriminate
                     |injection Hf as <-; eexists; vm_compute; reflexivity]
              |]).
      contradiction.
    + vm_compute. reflexivity.
    + intros r' Hin. vm_compute in Hin. destruct Hin as [<-|[]].
      eexists. vm_compute. reflexivity.
    + intros i Hi. vm_compute in Hi.
      destruct i as [|[|[|[|[|i]]]]]; try reflexivity. lia.
    + reflexivity.
  - apply (H4 GUI.effect Examples.tilt_world Examples.data_dir
              Examples.cancel_at_3 (fun n => 3 <=? n)); reflexivity.
  - apply H5. intros i j Hij Hi.
    change (GUI.is_cancelled Examples.worker_cancelled)
      with (fun n => 3 <=? n) in *.
    apply Nat.leb_le in Hi. apply Nat.leb_le. lia.
Defined.

(* ===================================================================== *)
(** * Runs that are not cancelled                                         *)
(* ===================================================================== *)

Section Determinism.
Variables E1 E2 : Type.
Variable w : World.
Variable emd_dir : Path.
Variable cb1 : Callbacks E1.
Variable cb2 : Callbacks E2.
Hypothesis never1 : never_cancelled cb1.
Hypothesis never2 : never_cancelled cb2.

Lemma poll_never (E : Type) (cb : Callbacks E) (tr : Trace E) :
  never_cancelled cb -> fst (poll cb tr) = false.
Proof.
  intros H. unfold poll. destruct (cancel_flag cb) as [c|] eqn:Hc;
    [|reflexivity].
  simpl. apply (H c Hc).
Qed.

(** The outcome of the first loop depends neither on the callbacks nor
    on the trace, nor on the counters of the progress report. *)
Lemma collect_deterministic (files : list Path) :
  forall total1 idx1 total2 idx2 records tr1 tr2,
    fst (collect w emd_dir cb1 total1 idx1 files records tr1)
    = fst (collect w emd_dir cb2 total2 idx2 files records tr2).
Proof.
  induction files as [|img rest IH];
    intros total1 idx1 total2 idx2 records tr1 tr2; cbn [collect];
    [reflexivity|].
  pose proof (poll_never E1 cb1 tr1 never1) as P1.
  pose proof (poll_never E2 cb2 tr2 never2) as P2.
  destruct (poll cb1 tr1) as [c1 tr1']. destruct (poll cb2 tr2) as [c2 tr2'].
  simpl in P1, P2. subst c1 c2.
  destruct (find_matching_emd w img emd_dir) as [emd_path|]; [|apply IH].
  destruct (extract_alpha_tilt_from_emd w emd_path) as [[alpha|]|e];
    [apply IH|apply IH|reflexivity].
Qed.

Lemma stack_loop_deterministic (records : list (float * Path)) :
  forall n1 j1 n2 j2 stack tr1 tr2,
    fst (stack_loop w cb1 n1 j1 records stack tr1)
    = fst (stack_loop w cb2 n2 j2 records stack tr2).
Proof.
  induction records as [|[alpha img] rest IH];
    intros n1 j1 n2 j2 stack tr1 tr2; cbn [stack_loop]; [reflexivity|].
  pose proof (poll_never E1 cb1 tr1 never1) as P1.
  pose proof (poll_never E2 cb2 tr2 never2) as P2.
  destruct (poll cb1 tr1) as [c1 tr1']. destruct (poll cb2 tr2) as [c2 tr2'].
  simpl in P1, P2. subst c1 c2.
  destruct (image_open w img) as [im|e]; [apply IH|reflexivity].
Qed.

Lemma load_deterministic (files : list Path) (tr1 : Trace E1)
      (tr2 : Trace E2) :
  fst (load_images_sorted_by_alpha w emd_dir cb1 files tr1)
  = fst (load_images_sorted_by_alpha w emd_dir cb2 files tr2).
Proof.
  unfold load_images_sorted_by_alpha.
  pose proof (collect_deterministic files (length files) 0
                (length files) 0 [] tr1 tr2) as H.
  destruct (collect w emd_dir cb1 _ 0 files [] tr1) as [out1 tr1'].
  destruct (collect w emd_dir cb2 _ 0 files [] tr2) as [out2 tr2'].
  simpl in H. subst out2.
  destruct out1 as [records| |e]; try reflexivity.
  destruct records as [|r records]; [reflexivity|].
  set (sorted := sort ltb (@fst float Path) (r :: records)).
  pose proof (stack_loop_deterministic sorted (length sorted) 0
                (length sorted) 0 [] tr1' tr2') as H.
  destruct (stack_loop w cb1 _ 0 sorted [] tr1') as [res1 tr1''].
  destruct (stack_loop w cb2 _ 0 sorted [] tr2') as [res2 tr2''].
  simpl in H. subst res2.
  destruct res1 as [[stack|]|e]; try reflexivity.
  destruct (np_stack stack); reflexivity.
Qed.

End Determinism.

(** C9. The assembler is deterministic: for a fixed input sequence and a
    fixed world (the contents of the metadata directory and of the image
    files), two runs whose cancellation predicates are never true return the
    same outcome, hence equal volumes, whatever the callbacks and whatever
    was done before either run. *)
Theorem assembler_is_deterministic :
  forall (E1 E2 : Type) (w : World) (emd_dir : Path)
         (cb1 : Callbacks E1) (cb2 : Callbacks E2)
         (image_files : list Path) (tr1 : Trace E1) (tr2 : Trace E2),
    never_cancelled cb1 -> never_cancelled cb2 ->
    fst (load_images_sorted_by_alpha w emd_dir cb1 image_files tr1)
    = fst (load_images_sorted_by_alpha w emd_dir cb2 image_files tr2).
Proof.
  intros E1 E2 w emd_dir cb1 cb2 image_files tr1 tr2 H1 H2.
  apply load_deterministic; assumption.
Qed.

Lemma assembler_is_deterministic_witness :
  fst (load_images_sorted_by_alpha Examples.tilt_world Examples.data_dir
         Examples.silent Examples.tilt_files (mkTrace [] 0))
  = fst (load_images_sorted_by_alpha Examples.tilt_world Examples.data_dir
           (GUI.callbacks_of Examples.worker_foo 1 0) Examples.tilt_files
           (mkTrace [Polled false] 1)).
Proof.
  apply assembler_is_deterministic.
  - intros c H. discriminate.
  - intros c H n. injection H as <-. reflexivity.
Defined.

(* ===================================================================== *)
(** * Failures: what is skipped and what aborts                           *)
(* ===================================================================== *)

Section FailureFacts.
Variable E : Type.
Variable w : World.
Variable emd_dir : Path.
Variable cb : Callbacks E.
Hypothesis never : never_cancelled cb.

Lemma In_matched (files : list Path) (alpha : float) (img : Path) :
  In (alpha, img) (matched w emd_dir files)
  <-> In img files /\ angle_of w emd_dir img = Some alpha.
Proof.
  unfold matched. rewrite in_flat_map. split.
  - intros [x [Hx Hin]]. destruct (angle_of w emd_dir x) as [a|] eqn:Ea;
      [|contradiction].
    destruct Hin as [Hin|[]]. injection Hin as -> ->. split; assumption.
  - intros [Hin Ha]. exists img. split; [exact Hin|].
    rewrite Ha. left. reflexivity.
Qed.

(** When every container that is found opens, the first loop ends with
    the matched images as its records. *)
Lemma collect_all_open (files : list Path) :
  (forall img emd_path,
      In img files -> find_matching_emd w img emd_dir = Some emd_path ->
      exists r, extract_alpha_tilt_from_emd w emd_path = Ok r) ->
  forall total idx records tr,
    fst (collect w emd_dir cb total idx files records tr)
    = Records (records ++ matched w emd_dir files).
Proof.
  induction files as [|img rest IH]; intros Hopen total idx records tr;
    cbn [collect].
  - simpl. rewrite app_nil_r. reflexivity.
  - pose proof (poll_never E cb tr never) as P.
    destruct (poll cb tr) as [c tr1]. simpl in P. subst c.
    rewrite matched_cons. unfold angle_of.
    assert (Hrest : forall img' emd_path,
               In img' rest ->
               find_matching_emd w img' emd_dir = Some emd_path ->
               exists r, extract_alpha_tilt_from_emd w emd_path = Ok r).
    { intros img' emd_path Hin. apply Hopen. right. exact Hin. }
    destruct (find_matching_emd w img emd_dir) as [emd_path|] eqn:Ef.
    + destruct (Hopen img emd_path (or_introl eq_refl) Ef) as [r Hr].
      rewrite Hr. destruct r as [alpha|].
      * rewrite (IH Hrest). rewrite <- app_assoc. reflexivity.
      * apply (IH Hrest).
    + apply (IH Hrest).
Qed.

(** The stacking loop raises the error of the first record, in its
    order, whose image does not decode. *)
Lemma stack_loop_fails (records : list (float * Path)) :
  (exists r e, In r records /\ image_open w (snd r) = Raise e) ->
  forall n j stack tr,
  exists r e,
    In r records /\ image_open w (snd r) = Raise e
    /\ fst (stack_loop w cb n j records stack tr) = Raise e.
Proof.
  induction records as [|[alpha img] rest IH]; intros [r [e [Hin He]]];
    [contradiction|].
  intros n j stack tr. cbn [stack_loop].
  pose proof (poll_never E cb tr never) as P.
  destruct (poll cb tr) as [c tr1]. simpl in P. subst c.
  destruct (image_open w img) as [im|e'] eqn:Him.
  - destruct Hin as [<-|Hin]; [simpl in He; congruence|].
    destruct (IH (ex_intro _ r (ex_intro _ e (conj Hin He)))
                 n (S j) (stack ++ [im])
                 (emit_progress cb
                    (50 + percent (Z.of_nat j + 1)
                                  (Z.max (Z.of_nat n) 1) 50) tr1))
      as [r' [e'' [Hin' [He' Hres]]]].
    exists r', e''. split; [right; exact Hin'|]. split; assumption.
  - exists (alpha, img), e'. split; [left; reflexivity|].
    split; [exact Him|reflexivity].
Qed.

(** The first loop fails with the error of the first container, in input
    order, that is found and does not open. *)
Lemma collect_unopenable (pre : list Path) (img : Path) (post : list Path)
      (emd_path : Path) (e : exn) :
  (forall p emd_path',
      In p pre -> find_matching_emd w p emd_dir = Some emd_path' ->
      exists r, extract_alpha_tilt_from_emd w emd_path' = Ok r) ->
  find_matching_emd w img emd_dir = Some emd_path ->
  h5py_File w emd_path = Raise e ->
  forall total idx records tr,
    fst (collect w emd_dir cb total idx (pre ++ img :: post) records tr)
    = Failed e.
Proof.
  intros Hopen Hf He.
  induction pre as [|p pre IH]; intros total idx records tr;
    cbn [collect app];
    pose proof (poll_never E cb tr never) as P;
    destruct (poll cb tr) as [c tr1]; simpl in P; subst c.
  - rewrite Hf. unfold extract_alpha_tilt_from_emd. rewrite He.
    reflexivity.
  - assert (Hrest : forall p' emd_path',
               In p' pre ->
               find_matching_emd w p' emd_dir = Some emd_path' ->
               exists r, extract_alpha_tilt_from_emd w emd_path' = Ok r).
    { intros p' emd_path' Hin. apply Hopen. right. exact Hin. }
    destruct (find_matching_emd w p emd_dir) as [emd_path'|] eqn:Ef.
    + destruct (Hopen p emd_path' (or_introl eq_refl) Ef) as [r Hr].
      rewrite Hr. destruct r as [alpha|]; apply (IH Hrest).
    + apply (IH Hrest).
Qed.

Lemma load_decode_failure (files : list Path) (tr : Trace E) :
  (forall img emd_path,
      In img files -> find_matching_emd w img emd_dir = Some emd_path ->
      exists r, extract_alpha_tilt_from_emd w emd_path = Ok r) ->
  (exists img alpha e,
      In img files /\ angle_of w emd_dir img = Some alpha
      /\ image_open w img = Raise e) ->
  exists img alpha e,
    In img files /\ angle_of w emd_dir img = Some alpha
    /\ image_open w img = Raise e
    /\ fst (load_images_sorted_by_alpha w emd_dir cb files tr) = Raise e.
Proof.
  intros Hopen [img [alpha [e [Hin [Ha He]]]]].
  unfold load_images_sorted_by_alpha.
  pose proof (collect_all_open files Hopen (length files) 0 [] tr) as Hc.
  destruct (collect w emd_dir cb _ 0 files [] tr) as [out tr1].
  simpl in Hc. subst out.
  assert (Hm : In (alpha, img) (matched w emd_dir files))
    by (apply In_matched; split; assumption).
  destruct (matched w emd_dir files) as [|r records] eqn:Em;
    [contradiction|].
  set (sorted := sort ltb (@fst float Path) (r :: records)).
  assert (Hs : exists r' e', In r' sorted
                             /\ image_open w (snd r') = Raise e').
  { exists (alpha, img), e. split; [|exact He].
    eapply Permutation_in; [apply sort_perm|exact Hm]. }
  destruct (stack_loop_fails sorted Hs (length sorted) 0 [] tr1)
    as [[a' img'] [e' [Hin' [He' Hres]]]].
  assert (Hm' : In (a', img') (matched w emd_dir files)).
  { rewrite Em. eapply Permutation_in;
      [apply Permutation_sym, sort_perm|exact Hin']. }
  apply In_matched in Hm'. destruct Hm' as [Hf' Ha'].
  exists img', a', e'. repeat split; try assumption.
  destruct (stack_loop w cb _ 0 sorted [] tr1) as [res tr2].
  simpl in Hres. subst res. reflexivity.
Qed.

End FailureFacts.

(** C7, as the code has it. A failure to decode an image in the stacking
    phase is not caught by the assembler: in a run that is not cancelled and
    in which every container that is found opens, if a matched image does
    not decode then the assembler raises the decoder's error of such an
    image. The worker does not go on to the next source: its loop ends with
    that error whatever sources remain, and the run ends with one [error]
    signal that carries the [repr] of the error, after a trace that holds
    neither [finished] nor another [error]. An image whose container is not
    found, or whose container opens and holds no angle, is skipped instead:
    the first loop goes on as if the image were not in the list. Not every
    failure to extract an angle is a skip: a container that is found and
    does not open makes the first loop raise the error of [h5py.File], for
    the first such image in input order, and that error ends the run like
    the error of a decoder. *)
Theorem decode_failure_is_fatal :
  (forall (E : Type) (w : World) (emd_dir : Path) (cb : Callbacks E)
          (image_files : list Path) (tr : Trace E),
      never_cancelled cb ->
      (forall img emd_path,
          In img image_files ->
          find_matching_emd w img emd_dir = Some emd_path ->
          exists r, extract_alpha_tilt_from_emd w emd_path = Ok r) ->
      (exists img alpha e,
          In img image_files /\ angle_of w emd_dir img = Some alpha
          /\ image_open w img = Raise e) ->
      exists img alpha e,
        In img image_files /\ angle_of w emd_dir img = Some alpha
        /\ image_open w img = Raise e
        /\ fst (load_images_sorted_by_alpha w emd_dir cb image_files tr)
           = Raise e)
  /\ (forall (w : World) (self : GUI.Worker) (total i : nat)
             (source : text) (rest : list text)
             (tr tr0 : Trace GUI.effect) (e : exn),
         (forall n, GUI.is_cancelled self n = false) ->
         fst (load_images_sorted_by_alpha w (GUI.emd_dir self)
                (GUI.callbacks_of self total i)
                match get (GUI.groups self) source with
                | Some l => l
                | None => []
                end tr0) = Raise e ->
         fst (GUI.run_loop w self total i (source :: rest) tr) = Some e)
  /\ (forall (w : World) (self : GUI.Worker) (e : exn)
             (tr : Trace GUI.effect),
         GUI.run_loop w self (length (GUI.selected_sources self)) 0
                      (GUI.selected_sources self) (mkTrace [] 0)
         = (Some e, tr) ->
         entries (GUI.run w self)
         = entries tr ++ [Emitted (GUI.error (repr_exn e))]
         /\ Forall (fun en => is_terminal en = false) (entries tr))
  /\ (forall (E : Type) (w : World) (emd_dir : Path) (cb : Callbacks E)
             (total idx : nat) (img : Path) (rest : list Path)
             (records : list (float * Path)) (tr tr' : Trace E),
         never_cancelled cb ->
         (find_matching_emd w img emd_dir = None
          \/ exists emd_path,
              find_matching_emd w img emd_dir = Some emd_path
              /\ extract_alpha_tilt_from_emd w emd_path = Ok None) ->
         fst (collect w emd_dir cb total idx (img :: rest) records tr)
         = fst (collect w emd_dir cb total (S idx) rest records tr'))
  /\ (forall (E : Type) (w : World) (emd_dir : Path) (cb : Callbacks E)
             (pre : list Path) (img : Path) (post : list Path)
             (emd_path : Path) (e : exn) (tr : Trace E),
         never_cancelled cb ->
         (forall p emd_path',
             In p pre -> find_matching_emd w p emd_dir = Some emd_path' ->
             exists r, extract_alpha_tilt_from_emd w emd_path' = Ok r) ->
         find_matching_emd w img emd_dir = Some emd_path ->
         h5py_File w emd_path = Raise e ->
         fst (load_images_sorted_by_alpha w emd_dir cb (pre ++ img :: post)
                tr) = Raise e).
Proof.
  split; [|split; [|split; [|split]]].
  - intros E w emd_dir cb image_files tr Hn Hopen Hfail.
    apply load_decode_failure; assumption.
  - intros w self total i source rest tr tr0 e Hn Hload.
    cbn [GUI.run_loop]. rewrite Hn.
    assert (Hnever : never_cancelled (GUI.callbacks_of self total i)).
    { intros c Hc n. simpl in Hc. injection Hc as <-. apply Hn. }
    match goal with
    | |- context [load_images_sorted_by_alpha _ _ _ _ ?tr2] =>
        pose proof (load_deterministic _ _ w (GUI.emd_dir self) _ _
                      Hnever Hnever
                      match get (GUI.groups self) source with
                      | Some l => l
                      | None => []
                      end tr2 tr0) as Hd;
        destruct (load_images_sorted_by_alpha w (GUI.emd_dir self)
                    (GUI.callbacks_of self total i)
                    match get (GUI.groups self) source with
                    | Some l => l
                    | None => []
                    end tr2) as [r tr3]
    end.
    rewrite Hload in Hd. simpl in Hd. subst r. reflexivity.
  - intros w self e tr Hrun. unfold GUI.run.
    destruct (length (GUI.selected_sources self) =? 0) eqn:E0.
    + destruct (GUI.selected_sources self) as [|s l]; simpl in *;
        discriminate.
    + rewrite Hrun. split; [reflexivity|].
      apply (run_loop_no_terminal w self _ _ _ _ _ _ Hrun). constructor.
  - intros E w emd_dir cb total idx img rest records tr tr' Hn Hskip.
    cbn [collect].
    pose proof (poll_never E cb tr Hn) as P.
    destruct (poll cb tr) as [c tr1]. simpl in P. subst c.
    destruct Hskip as [->|[emd_path [-> ->]]];
      apply collect_deterministic; assumption.
  - intros E w emd_dir cb pre img post emd_path e tr Hn Hopen Hf He.
    unfold load_images_sorted_by_alpha.
    pose proof (collect_unopenable E w emd_dir cb Hn pre img post emd_path
                  e Hopen Hf He (length (pre ++ img :: post)) 0 [] tr)
      as Hc.
    destruct (collect w emd_dir cb _ 0 (pre ++ img :: post) [] tr)
      as [out tr1].
    simpl in Hc. subst out. reflexivity.
Qed.

Lemma decode_failure_is_fatal_witness :
  (exists img alpha e,
      In img Examples.tilt_files
      /\ angle_of Examples.broken_world Examples.data_dir img = Some alpha
      /\ image_open Examples.broken_world img = Raise e
      /\ fst (load_images_sorted_by_alpha Examples.broken_world
                Examples.data_dir Examples.silent Examples.tilt_files
                (mkTrace [] 0)) = Raise e)
  /\ fst (GUI.run_loop Examples.broken_world Examples.worker_foo 1 0
            [t "Foo"; t "Bar"] Examples.start) = Some Examples.io_error
  /\ (exists tr,
         entries (GUI.run Examples.broken_world Examples.worker_foo)
         = entries tr ++ [Emitted (GUI.error (repr_exn Examples.io_error))]
         /\ Forall (fun en => is_terminal en = false) (entries tr))
  /\ fst (collect Examples.tilt_world Examples.data_dir Examples.silent
            4 3 [Examples.image_t4] [] (mkTrace [] 0))
     = fst (collect Examples.tilt_world Examples.data_dir Examples.silent
              4 4 [] [] (mkTrace [] 0))
  /\ fst (load_images_sorted_by_alpha Examples.locked_world
            Examples.data_dir Examples.silent Examples.tilt_files
            (mkTrace [] 0)) = Raise Examples.io_error.
Proof.
  destruct decode_failure_is_fatal as [H1 [H2 [H3 [H4 H5]]]].
  split; [|split; [|split; [|split]]].
  - apply H1.
    + intros c H. discriminate.
    + intros img emd_path Hin Hf. simpl in Hin.
      repeat (destruct Hin as [<-|Hin];
              [vm_compute in Hf;
               first [discriminate
                     |injection Hf as <-; eexists; vm_compute; reflexivity]
              |]).
      contradiction.
    + exists Examples.image_t3. eexists. eexists.
      split; [right; right; left; reflexivity|].
      split; vm_compute; reflexivity.
  - apply (H2 Examples.broken_world Examples.worker_foo 1 0 (t "Foo")
              [t "Bar"] Examples.start Examples.start).
    + reflexivity.
    + vm_compute. reflexivity.
  - eexists. apply H3. vm_compute. reflexivity.
  - apply H4.
    + intros c H. discriminate.
    + left. vm_compute. reflexivity.
  - apply (H5 unit Examples.locked_world Examples.data_dir Examples.silent
              [Examples.image_t1] Examples.image_t2
              [Examples.image_t3; Examples.image_t4] Examples.emd_t2
              Examples.io_error (mkTrace [] 0)).
    + intros c H. discriminate.
    + intros p emd_path Hin Hf. destruct Hin as [<-|[]].
      vm_compute in Hf. injection Hf as <-. eexists.
      vm_compute. reflexivity.
    + vm_compute. reflexivity.
    + vm_compute. reflexivity.
Defined.

(** C7, as the claim states it, fails: a failure to extract the angle does
    not always skip the item. The container [t2.emd] is found and does not
    open; the assembler does not return the volume of the other two images,
    which it returns when [t2 Foo.png] is left out of the input: it raises
    the error of the opening, and the run of the worker ends with the
    [error] signal and has written nothing. *)
Lemma unopenable_container_is_not_skipped :
  find_matching_emd Examples.locked_world Examples.image_t2
                    Examples.data_dir = Some Examples.emd_t2
  /\ extract_alpha_tilt_from_emd Examples.locked_world Examples.emd_t2
     = Raise Examples.io_error
  /\ fst (load_images_sorted_by_alpha Examples.locked_world
            Examples.data_dir Examples.silent
            [Examples.image_t1; Examples.image_t3; Examples.image_t4]
            (mkTrace [] 0))
     = Ok (Some [Examples.pixel 3; Examples.pixel 1])
  /\ fst (load_images_sorted_by_alpha Examples.locked_world
            Examples.data_dir Examples.silent Examples.tilt_files
            (mkTrace [] 0))
     = Raise Examples.io_error
  /\ (exists pre,
         entries (GUI.run Examples.locked_world Examples.worker_foo)
         = pre ++ [Emitted (GUI.error (repr_exn Examples.io_error))])
  /\ writes (entries (GUI.run Examples.locked_world Examples.worker_foo))
     = [].
Proof.
  split; [vm_compute; reflexivity|].
  split; [vm_compute; reflexivity|].
  split; [vm_compute; reflexivity|].
  split; [vm_compute; reflexivity|].
  split; [|vm_compute; reflexivity].
  exists (removelast
            (entries (GUI.run Examples.locked_world Examples.worker_foo))).
  vm_compute. reflexivity.
Qed.


(* ===================================================================== *)
(** * The order of the slices                                             *)
(* ===================================================================== *)

Section OrderFacts.

Lemma angle_of_not_nan (w : World) (emd_dir img : Path) (alpha : float) :
  angle_of w emd_dir img = Some alpha -> not_nan alpha.
Proof.
  unfold angle_of.
  destruct (find_matching_emd w img emd_dir) as [emd_path|]; [|discriminate].
  destruct (extract_alpha_tilt_from_emd w emd_path) as [[a|]|e] eqn:Ex;
    try discriminate.
  intros H. injection H as <-.
  apply (extract_alpha_tilt_not_nan w emd_path). exact Ex.
Qed.

Lemma matched_not_nan (w : World) (emd_dir : Path) (files : list Path) :
  Forall (fun r => not_nan (fst r)) (matched w emd_dir files).
Proof.
  apply Forall_forall. intros [alpha img] Hin.
  apply In_matched in Hin. destruct Hin as [_ Ha].
  apply (angle_of_not_nan w emd_dir img). exact Ha.
Qed.

Lemma StronglySorted_impl (A : Type) (P : A -> Prop) (R R' : A -> A -> Prop)
      (l : list A) :
  (forall a b, P a -> P b -> R a b -> R' a b) ->
  Forall P l -> StronglySorted R l -> StronglySorted R' l.
Proof.
  intros HR HP HS. induction HS as [|x l HS IH Hx]; [constructor|].
  inversion HP as [|? ? Px Pl]; subst.
  constructor; [apply IH; exact Pl|].
  rewrite Forall_forall in *. intros y Hy.
  apply HR; [exact Px|apply Pl; exact Hy|apply Hx; exact Hy].
Qed.

(** The sort of the records: ascending, stable, and a rearrangement. *)
Lemma sort_records (records : list (float * Path)) :
  Forall (fun r => not_nan (fst r)) records ->
  let sorted := sort ltb (@fst float Path) records in
  Permutation records sorted
  /\ StronglySorted (fun r1 r2 => leb (fst r1) (fst r2) = true) sorted
  /\ forall a, filter (fun r => eqb a (fst r)) sorted
               = filter (fun r => eqb a (fst r)) records.
Proof.
  intros Hg sorted. split; [apply sort_perm|]. split.
  - apply (StronglySorted_impl _ (fun r => not_nan (fst r))
             (fun a b => ltb (fst b) (fst a) = false)).
    + intros a b Ha Hb H. rewrite (leb_key _ _ Ha Hb), H. reflexivity.
    + eapply Permutation_Forall; [apply sort_perm|exact Hg].
    + apply (sort_sorted _ _ ltb (@fst float Path) not_nan).
      * intros x y. apply ltb_asym.
      * intros x y z. apply ltb_negtrans.
      * exact Hg.
  - intros a. apply sort_filter.
    intros x y _ _ Hx Hy. apply (eqb_not_ltb a); assumption.
Qed.

End OrderFacts.

Section StableSortUnique.

Lemma eqb_refl (x : float) : not_nan x -> eqb x x = true.
Proof. intros H. apply (eqb_key x x H H). reflexivity. Qed.

Lemma leb_refl (x : float) : not_nan x -> leb x x = true.
Proof.
  intros H. rewrite (leb_key x x H H).
  destruct (ltb x x) eqn:E; [|reflexivity].
  apply (ltb_key x x H H) in E. apply key_lt_irrefl in E. contradiction.
Qed.

Lemma leb_antisym (x y : float) :
  not_nan x -> not_nan y -> leb x y = true -> leb y x = true ->
  eqb x y = true.
Proof.
  intros Hx Hy H1 H2.
  rewrite (leb_key x y Hx Hy) in H1. rewrite (leb_key y x Hy Hx) in H2.
  apply (eqb_key x y Hx Hy).
  destruct (key_total (float_key x) (float_key y)) as [H|[H|H]].
  - apply (ltb_key x y Hx Hy) in H. rewrite H in H2. discriminate.
  - exact H.
  - apply (ltb_key y x Hy Hx) in H. rewrite H in H1. discriminate.
Qed.

(** An ascending, stable rearrangement is unique: the three properties of
    the sorted records determine them, whatever algorithm sorts. *)
Lemma stable_sort_unique (l1 : list (float * Path)) :
  forall l2,
    Forall (fun r => not_nan (fst r)) l1 ->
    Permutation l1 l2 ->
    StronglySorted (fun r1 r2 => leb (fst r1) (fst r2) = true) l1 ->
    StronglySorted (fun r1 r2 => leb (fst r1) (fst r2) = true) l2 ->
    (forall a, filter (fun r => eqb a (fst r)) l1
               = filter (fun r => eqb a (fst r)) l2) ->
    l1 = l2.
Proof.
  induction l1 as [|x l1 IH]; intros l2 Hg Hp S1 S2 Hf.
  - apply Permutation_nil in Hp. symmetry. exact Hp.
  - destruct l2 as [|y l2].
    + apply Permutation_sym, Permutation_nil in Hp. discriminate.
    + inversion Hg as [|? ? Gx Gl]; subst.
      inversion S1 as [|? ? S1' Hx]; subst.
      inversion S2 as [|? ? S2' Hy]; subst.
      assert (Gy : not_nan (fst y)).
      { assert (Hin : In y (x :: l1))
          by (eapply Permutation_in;
              [apply Permutation_sym; exact Hp|left; reflexivity]).
        rewrite Forall_forall in Hg. apply Hg. exact Hin. }
      assert (Lxy : leb (fst x) (fst y) = true).
      { assert (Hin : In y (x :: l1))
          by (eapply Permutation_in;
              [apply Permutation_sym; exact Hp|left; reflexivity]).
        destruct Hin as [<-|Hin]; [apply leb_refl; exact Gx|].
        rewrite Forall_forall in Hx. apply Hx. exact Hin. }
      assert (Lyx : leb (fst y) (fst x) = true).
      { assert (Hin : In x (y :: l2))
          by (eapply Permutation_in; [exact Hp|left; reflexivity]).
        destruct Hin as [<-|Hin]; [apply leb_refl; exact Gx|].
        rewrite Forall_forall in Hy. apply Hy. exact Hin. }
      pose proof (leb_antisym _ _ Gx Gy Lxy Lyx) as Exy.
      pose proof (Hf (fst x)) as Hfx. cbn [filter] in Hfx.
      rewrite (eqb_refl _ Gx), Exy in Hfx. injection Hfx as <- _.
      f_equal. apply IH.
      * exact Gl.
      * eapply Permutation_cons_inv. exact Hp.
      * exact S1'.
      * exact S2'.
      * intros a. pose proof (Hf a) as Hfa. cbn [filter] in Hfa.
        destruct (eqb a (fst x)); [injection Hfa as Hfa|]; exact Hfa.
Qed.

(** The sorted records of the model are the only ascending and stable
    rearrangement of the records. *)
Lemma sort_records_unique (records sorted : list (float * Path)) :
  Forall (fun r => not_nan (fst r)) records ->
  Permutation records sorted ->
  StronglySorted (fun r1 r2 => leb (fst r1) (fst r2) = true) sorted ->
  (forall a, filter (fun r => eqb a (fst r)) sorted
             = filter (fun r => eqb a (fst r)) records) ->
  sorted = sort ltb (@fst float Path) records.
Proof.
  intros Hg Hp Hs Hf.
  destruct (sort_records records Hg) as [Hp' [Hs' Hf']].
  apply stable_sort_unique.
  - eapply Permutation_Forall; [exact Hp|exact Hg].
  - eapply Permutation_trans; [apply Permutation_sym; exact Hp|exact Hp'].
  - exact Hs.
  - exact Hs'.
  - intros a. rewrite Hf, Hf'. reflexivity.
Qed.

End StableSortUnique.

(** C1. When the assembler returns a volume, its slices are the decoded
    images of the matched images of the group in ascending order of angle:
    there is a rearrangement of the matched records (angle and image, in
    input order) in which no angle is above a later one, in which the
    records of equal angle keep their input order, and whose N-th image
    decodes to the N-th slice of the volume. *)
Theorem slices_sorted_by_angle :
  forall (E : Type) (w : World) (emd_dir : Path) (cb : Callbacks E)
         (image_files : list Path) (tr tr' : Trace E) (v : Volume),
    load_images_sorted_by_alpha w emd_dir cb image_files tr
    = (Ok (Some v), tr') ->
    exists sorted : list (float * Path),
      Permutation (matched w emd_dir image_files) sorted
      /\ StronglySorted (fun r1 r2 => leb (fst r1) (fst r2) = true) sorted
      /\ (forall a,
             filter (fun r => eqb a (fst r)) sorted
             = filter (fun r => eqb a (fst r))
                      (matched w emd_dir image_files))
      /\ Forall2 (fun r slice => image_open w (snd r) = Ok slice) sorted v.
Proof.
  intros E w emd_dir cb image_files tr tr' v H.
  unfold load_images_sorted_by_alpha in H.
  destruct (collect w emd_dir cb _ 0 image_files [] tr) as [out tr1] eqn:Hc.
  destruct out as [records| |e]; try discriminate.
  apply collect_records in Hc. simpl in Hc. subst records.
  pose proof (sort_records _ (matched_not_nan w emd_dir image_files)) as Hs.
  cbv zeta in Hs. destruct Hs as [Hp [Hsorted Hstable]].
  destruct (matched w emd_dir image_files) as [|r records] eqn:Em;
    [discriminate|].
  set (sorted := sort ltb (@fst float Path) (r :: records)) in *.
  destruct (stack_loop w cb _ 0 sorted [] tr1) as [res tr2] eqn:Hl.
  destruct res as [[stack|]|e]; try discriminate.
  apply stack_loop_decoded in Hl. destruct Hl as [imgs [Hst HF]].
  simpl in Hst. subst stack.
  destruct (np_stack imgs) as [v'|e] eqn:Hn; [|discriminate].
  apply np_stack_Ok in Hn. injection H as H _. subst v' v.
  exists sorted. repeat split; assumption.
Qed.

Lemma slices_sorted_by_angle_witness :
  exists sorted : list (float * Path),
    Permutation (matched Examples.tilt_world Examples.data_dir
                         Examples.tilt_files) sorted
    /\ StronglySorted (fun r1 r2 => leb (fst r1) (fst r2) = true) sorted
    /\ (forall a,
           filter (fun r => eqb a (fst r)) sorted
           = filter (fun r => eqb a (fst r))
                    (matched Examples.tilt_world Examples.data_dir
                             Examples.tilt_files))
    /\ Forall2
         (fun r slice => image_open Examples.tilt_world (snd r) = Ok slice)
         sorted [Examples.pixel 2; Examples.pixel 3; Examples.pixel 1].
Proof.
  apply (slices_sorted_by_angle unit Examples.tilt_world Examples.data_dir
           Examples.silent Examples.tilt_files (mkTrace [] 0)
           (mkTrace [] 0)).
  vm_compute. reflexivity.
Defined.

(* ===================================================================== *)
(** * More on the extractor                                             *)
(* ===================================================================== *)

Section SearchFacts.

Lemma match_k_lits_none (A : Type) (ps s : text) (g : option text)
      (k : text -> option text -> option A) :
  lits_at ps s = false -> match_k (lits ps) s g k = None.
Proof.
  revert s. induction ps as [|p ps IH]; intros s H; [discriminate|].
  cbn [lits]. rewrite match_k_seq.
  destruct s as [|c s]; [reflexivity|].
  cbn [lits_at] in H. cbn [match_k atom_match].
  destruct (lit_match p c); [|reflexivity].
  apply IH. exact H.
Qed.

Lemma lits_at_app (ps qs s : text) :
  lits_at (ps ++ qs) s = true -> lits_at ps s = true.
Proof.
  revert s. induction ps as [|p ps IH]; intros s H; [reflexivity|].
  destruct s as [|c s]; [discriminate|].
  cbn [app lits_at] in *. apply andb_true_iff in H. destruct H as [H1 H2].
  rewrite H1. apply IH. exact H2.
Qed.

(** A run of literals that begins in [a] and is at the head of [a ++ c :: b]
    either lies within [a] or has a literal that matches [c]. *)
Lemma lits_at_straddle (ps a b : text) (c : char) :
  lits_at ps (a ++ c :: b) = true ->
  lits_at ps a = true
  \/ exists p, nth_error ps (length a) = Some p /\ lit_match p c = true.
Proof.
  revert a. induction ps as [|p ps IH]; intros a H; [left; reflexivity|].
  destruct a as [|x a].
  - right. exists p. cbn [app lits_at] in H.
    apply andb_true_iff in H. split; [reflexivity|apply H].
  - cbn [app lits_at] in H. apply andb_true_iff in H. destruct H as [H1 H2].
    destruct (IH a H2) as [H|[q [Hq Hm]]].
    + left. cbn [lits_at]. rewrite H1. exact H.
    + right. exists q. split; [exact Hq|exact Hm].
Qed.

(** No match of the pattern begins within a text that does not hold the
    quoted key, when a double quote follows the text. *)
Lemma match_at_prefix (pre2 s : text) :
  pre2 <> [] -> lits_at quoted_key pre2 = false ->
  match_at alphatilt_re (pre2 ++ dquote :: s) = None.
Proof.
  intros Hne Hk. unfold match_at, alphatilt_re. rewrite match_k_seq.
  apply match_k_lits_none.
  destruct (lits_at (dquote :: t "alphatilt" ++ [dquote])
                    (pre2 ++ dquote :: s)) eqn:E; [|reflexivity].
  change (dquote :: t "alphatilt" ++ [dquote])
    with (quoted_key ++ [dquote]) in E.
  apply lits_at_app in E. apply lits_at_straddle in E.
  destruct E as [E|[p [Hp Hm]]]; [congruence|].
  destruct pre2 as [|x pre2]; [contradiction|].
  cbn [length quoted_key nth_error] in Hp.
  apply nth_error_In in Hp.
  assert (Hl : Forall (fun p => lit_match p dquote = false) (t "alphatilt"))
    by (repeat constructor).
  rewrite Forall_forall in Hl. rewrite (Hl p Hp) in Hm. discriminate.
Qed.

Lemma search_after_prefix (pre s : text) :
  occurs quoted_key pre = false ->
  search alphatilt_re (pre ++ dquote :: s)
  = search alphatilt_re (dquote :: s).
Proof.
  induction pre as [|x pre IH]; intros H; [reflexivity|].
  cbn [occurs] in H. apply orb_false_iff in H. destruct H as [H1 H2].
  change ((x :: pre) ++ dquote :: s) with (x :: (pre ++ dquote :: s)).
  cbn [search].
  change (x :: (pre ++ dquote :: s)) with ((x :: pre) ++ dquote :: s).
  rewrite match_at_prefix; [|discriminate|exact H1].
  apply IH. exact H2.
Qed.

End SearchFacts.

(** X1. The extractor finds a key/value pair wherever it stands in the
    text of a metadata dataset, provided the quoted key does not occur
    earlier in that text and no earlier node gave an angle: the key in any
    case, white space around the colon, the number with or without a quote
    and with or without an ASCII minus. The angle is the float of the
    number, whatever follows the number: the text after the last digit (a
    closing quote, an exponent, a second pair) is not read. *)
Theorem alpha_tilt_found_after_prefix :
  forall (w : World) (emd_path : Path) (before after : list H5Node)
         (n : H5Node) (pre key ws1 ws2 q1 h ip tail rest : text),
    h5py_File w emd_path = Ok (before ++ n :: after) ->
    fold_left visitor before None = None ->
    node_is_dataset n = true ->
    contains (t "metadata") (lower (node_name n)) = true ->
    node_text n
    = Ok (pre ++ [dquote] ++ key ++ [dquote] ++ ws1 ++ [colon] ++ ws2
              ++ q1 ++ h ++ ip ++ tail ++ rest) ->
    occurs quoted_key pre = false ->
    map ascii_lower key = t "alphatilt" ->
    Forall (fun c => isspace c = true) ws1 ->
    Forall (fun c => isspace c = true) ws2 ->
    (q1 = [] \/ q1 = [dquote]) ->
    (h = [] \/ h = [hyphen_minus]) ->
    ip <> [] -> Forall (fun c => isdecimal c = true) ip ->
    (tail = [] \/ exists fp,
        tail = dot :: fp /\ Forall (fun c => isdecimal c = true) fp) ->
    not_headed isdecimal rest ->
    (tail = [] -> not_headed (lit_match dot) rest) ->
    exists x,
      py_float (h ++ ip ++ tail) = Ok x
      /\ extract_alpha_tilt_from_emd w emd_path = Ok (Some x).
Proof.
  intros w emd_path before after n pre key ws1 ws2 q1 h ip tail rest
         Hopen Hbefore Hds Hname Htext Hpre Hkey Hws1 Hws2 Hq1 Hh Hne Hip
         Htail Hrest Hdot.
  destruct (parse_pair key ws1 ws2 q1 h ip tail rest Hkey Hws1 Hws2 Hq1 Hh
              Hne Hip Htail Hrest Hdot) as [x [Hx Hp]].
  exists x. split; [exact Hx|].
  unfold extract_alpha_tilt_from_emd. rewrite Hopen.
  rewrite fold_left_app, Hbefore. cbn [fold_left].
  assert (Hv : visitor None n = Some x).
  { unfold visitor. rewrite Hds, Hname, Htext. cbn [negb].
    unfold parse_alpha_tilt in *. cbn [app] in *.
    rewrite search_after_prefix by exact Hpre.
    destruct (search alphatilt_re _) as [[g|]|]; try discriminate.
    destruct (py_float g); [|discriminate].
    injection Hp as ->. reflexivity. }
  rewrite Hv. rewrite fold_visitor_Some. reflexivity.
Qed.

Lemma alpha_tilt_found_after_prefix_witness :
  exists x,
    py_float (t "-12.5") = Ok x
    /\ extract_alpha_tilt_from_emd
         (Examples.world_of_blob Examples.blob_ascii_minus) Examples.emd_t1
       = Ok (Some x).
Proof.
  apply (alpha_tilt_found_after_prefix
           (Examples.world_of_blob Examples.blob_ascii_minus) Examples.emd_t1
           [mkNode (t "Data") false (Raise Examples.io_error)] []
           (mkNode (t "Data/Image/0/Metadata") true
                   (Ok Examples.blob_ascii_minus))
           (t "{" ++ [dquote] ++ t "Stage" ++ [dquote] ++ t ": {")
           (t "alphaTilt") [] [space] [dquote] [hyphen_minus] (t "12")
           (t ".5") (dquote :: t "}}")).
  - reflexivity.
  - reflexivity.
  - reflexivity.
  - reflexivity.
  - reflexivity.
  - reflexivity.
  - reflexivity.
  - constructor.
  - repeat constructor.
  - right; reflexivity.
  - right; reflexivity.
  - discriminate.
  - repeat constructor.
  - right. exists (t "5"). split; [reflexivity|repeat constructor].
  - reflexivity.
  - discriminate.
Defined.

Section NoKey.

Lemma match_at_without_key (s : text) :
  lits_at quoted_key s = false -> match_at alphatilt_re s = None.
Proof.
  intros H. unfold match_at, alphatilt_re. rewrite match_k_seq.
  apply match_k_lits_none.
  destruct (lits_at (dquote :: t "alphatilt" ++ [dquote]) s) eqn:E;
    [|reflexivity].
  change (dquote :: t "alphatilt" ++ [dquote])
    with (quoted_key ++ [dquote]) in E.
  apply lits_at_app in E. congruence.
Qed.

Lemma search_without_key (txt : text) :
  occurs quoted_key txt = false -> search alphatilt_re txt = None.
Proof.
  induction txt as [|c txt IH]; intros H; cbn [occurs] in H;
    apply orb_false_iff in H; destruct H as [H1 H2]; cbn [search];
    rewrite (match_at_without_key _ H1).
  - reflexivity.
  - apply IH. exact H2.
Qed.

Lemma visitor_without_key (n : H5Node) :
  (forall txt, node_text n = Ok txt -> occurs quoted_key txt = false) ->
  visitor None n = None.
Proof.
  intros H. unfold visitor.
  destruct (negb (node_is_dataset n)); [reflexivity|].
  destruct (negb (contains _ _)); [reflexivity|].
  destruct (node_text n) as [txt|e]; [|reflexivity].
  unfold parse_alpha_tilt. rewrite (search_without_key txt (H txt eq_refl)).
  reflexivity.
Qed.

End NoKey.

(** X2. A container that opens and none of whose metadata datasets holds
    the quoted key, in any case, gives no angle. *)
Theorem no_key_no_angle :
  forall (w : World) (emd_path : Path) (nodes : list H5Node),
    h5py_File w emd_path = Ok nodes ->
    (forall n txt,
        In n nodes -> node_is_dataset n = true ->
        contains (t "metadata") (lower (node_name n)) = true ->
        node_text n = Ok txt -> occurs quoted_key txt = false) ->
    extract_alpha_tilt_from_emd w emd_path = Ok None.
Proof.
  intros w emd_path nodes Hopen H.
  unfold extract_alpha_tilt_from_emd. rewrite Hopen. f_equal.
  clear Hopen. induction nodes as [|n nodes IH]; [reflexivity|].
  cbn [fold_left].
  assert (Hn : visitor None n = None).
  { destruct (node_is_dataset n) eqn:Hd;
      [|unfold visitor; rewrite Hd; reflexivity].
    destruct (contains (t "metadata") (lower (node_name n))) eqn:Hm;
      [|unfold visitor; rewrite Hd, Hm; reflexivity].
    apply visitor_without_key. intros txt Ht.
    apply (H n txt (or_introl eq_refl) Hd Hm Ht). }
  rewrite Hn. apply IH. intros n' txt Hin. apply H. right. exact Hin.
Qed.

Lemma no_key_no_angle_witness :
  extract_alpha_tilt_from_emd
    (Examples.world_of_blob
       (t "{" ++ [dquote] ++ t "BetaTilt" ++ [dquote] ++ t ": 3}"))
    Examples.emd_t1
  = Ok None.
Proof.
  eapply (no_key_no_angle
            (Examples.world_of_blob
               (t "{" ++ [dquote] ++ t "BetaTilt" ++ [dquote] ++ t ": 3}"))
            Examples.emd_t1).
  - reflexivity.
  - intros n txt Hin Hd Hm Ht. simpl in Hin.
    destruct Hin as [<-|[<-|[]]].
    + discriminate.
    + injection Ht as <-. reflexivity.
Defined.

(* ===================================================================== *)
(** * The naming convention of the images                               *)
(* ===================================================================== *)

Section NameFacts.

Lemma split_aux_token (tok cur s : text) :
  Forall (fun c => isspace c = false) tok ->
  split_aux cur (tok ++ s) = split_aux (rev tok ++ cur) s.
Proof.
  revert cur. induction tok as [|c tok IH]; intros cur H; [reflexivity|].
  inversion H as [|? ? Hc Ht]; subst.
  cbn [app split_aux]. rewrite Hc. rewrite IH by exact Ht.
  cbn [rev]. rewrite <- app_assoc. reflexivity.
Qed.

(** [" ".join(tokens).split()] gives the tokens back. *)
Lemma split_join (toks : list text) :
  Forall is_token toks -> split (join [space] toks) = toks.
Proof.
  unfold split. induction toks as [|tok toks IH]; intros H; [reflexivity|].
  inversion H as [|? ? [Hne Hns] Ht]; subst.
  destruct toks as [|tok2 toks].
  - cbn [join]. rewrite <- (app_nil_r tok) at 1.
    rewrite split_aux_token by exact Hns. rewrite app_nil_r.
    cbn [split_aux]. destruct (rev tok) eqn:E.
    + apply (f_equal (@length _)) in E. rewrite length_rev in E.
      destruct tok; [contradiction|discriminate].
    + rewrite <- E, rev_involutive. reflexivity.
  - change (join [space] (tok :: tok2 :: toks))
      with (tok ++ space :: join [space] (tok2 :: toks)).
    rewrite split_aux_token by exact Hns. rewrite app_nil_r.
    cbn [split_aux]. change (isspace space) with true. cbv iota.
    destruct (rev tok) eqn:E.
    + apply (f_equal (@length _)) in E. rewrite length_rev in E.
      destruct tok; [contradiction|discriminate].
    + rewrite <- E, rev_involutive. rewrite (IH Ht). reflexivity.
Qed.

Lemma rfind_absent (c : char) (s : text) : ~ In c s -> rfind c s = None.
Proof.
  induction s as [|x s IH]; intros H; [reflexivity|].
  cbn [rfind]. rewrite IH by (intros Hin; apply H; right; exact Hin).
  destruct (char_eqb x c) eqn:E; [|reflexivity].
  apply char_eqb_eq in E. exfalso. apply H. left. exact E.
Qed.

Lemma rfind_last (c : char) (base ext : text) :
  ~ In c ext -> rfind c (base ++ c :: ext) = Some (length base).
Proof.
  intros H. induction base as [|x base IH].
  - cbn [app rfind length]. rewrite (rfind_absent c ext H).
    rewrite char_eqb_refl. reflexivity.
  - cbn [app rfind length]. rewrite IH. reflexivity.
Qed.

(** The stem of [base.ext] is [base], for an extension without a dot. *)
Lemma stem_of_name (p : Path) (base ext : text) :
  base <> [] -> ext <> [] -> ~ In dot ext ->
  name p = base ++ dot :: ext -> stem p = base.
Proof.
  intros Hb He Hd Hn. unfold stem. rewrite Hn, rfind_last by exact Hd.
  rewrite length_app. cbn [length].
  destruct base as [|b base]; [contradiction|].
  destruct ext as [|e ext]; [contradiction|].
  cbn [length].
  replace (0 <? S (length base)) with true by (symmetry; apply Nat.ltb_lt; lia).
  replace (S (length base) <? S (length base) + S (S (length ext)) - 1)
    with true by (symmetry; apply Nat.ltb_lt; lia).
  cbn [andb].
  change (S (length base)) with (length (b :: base)).
  rewrite firstn_app, Nat.sub_diag, firstn_all. cbn [firstn].
  apply app_nil_r.
Qed.

Lemma join_snoc_nonempty (toks : list text) (s : text) :
  s <> [] -> join [space] (toks ++ [s]) <> [].
Proof.
  intros Hs. induction toks as [|tok toks IH]; [exact Hs|].
  destruct toks as [|tok2 toks].
  - cbn [app join]. destruct tok; discriminate.
  - change (join [space] ((tok :: tok2 :: toks) ++ [s]))
      with (tok ++ space :: join [space] ((tok2 :: toks) ++ [s])).
    destruct tok; discriminate.
Qed.

Lemma name_parse_path (s : text) :
  no_slash s -> s <> [] -> s <> [dot] -> name (parse_path s) = s.
Proof.
  intros H1 H2 H3. unfold name, parse_path. cbn [parts].
  rewrite parse_parts_entry by assumption. reflexivity.
Qed.

End NameFacts.

(** X3. The classifier and the locator read a file name the same way.
    For a name made of tokens joined by single spaces, a last token [s] and
    an extension without a dot, the classifier returns [s], and the locator
    looks up the tokens before [s], joined by single spaces and followed by
    [.emd], in the metadata directory; with no token before [s] it finds
    nothing. *)
Theorem naming_convention_round_trip :
  forall (w : World) (image_dir emd_dir : Path) (ts : list text)
         (s ext : text),
    Forall is_token ts -> is_token s -> ext <> [] -> ~ In dot ext ->
    no_slash (join [space] (ts ++ [s]) ++ dot :: ext) ->
    let filename := join [space] (ts ++ [s]) ++ dot :: ext in
    extract_source_from_filename filename = s
    /\ find_matching_emd w (child image_dir filename) emd_dir
       = match ts with
         | [] => None
         | _ =>
             let emd_path :=
               child emd_dir (join [space] ts ++ t ".emd") in
             if path_exists w emd_path then Some emd_path else None
         end.
Proof.
  intros w image_dir emd_dir ts s ext Hts Hs He Hd Hns filename.
  assert (Htoks : Forall is_token (ts ++ [s])).
  { apply Forall_app. split; [exact Hts|]. constructor; [exact Hs|constructor]. }
  assert (Hbase : join [space] (ts ++ [s]) <> [])
    by (apply join_snoc_nonempty; apply Hs).
  assert (Hne : filename <> []).
  { unfold filename. destruct (join [space] (ts ++ [s])); discriminate. }
  assert (Hdot : filename <> [dot]).
  { unfold filename. destruct (join [space] (ts ++ [s])) as [|c l];
      [contradiction|].
    destruct l; discriminate. }
  split.
  - unfold extract_source_from_filename.
    rewrite (stem_of_name (parse_path filename) (join [space] (ts ++ [s])) ext)
      by (try assumption; apply name_parse_path; assumption).
    rewrite split_join by exact Htoks.
    destruct (ts ++ [s]) eqn:E; [destruct ts; discriminate|].
    rewrite <- E. unfold last_item. apply last_last.
  - unfold find_matching_emd.
    rewrite (stem_of_name (child image_dir filename)
               (join [space] (ts ++ [s])) ext)
      by (try assumption; apply name_child).
    rewrite split_join by exact Htoks.
    rewrite length_app. cbn [length].
    destruct ts as [|tok ts]; [reflexivity|].
    replace (length (tok :: ts) + 1 <? 2) with false
      by (symmetry; apply Nat.ltb_ge; cbn [length]; lia).
    rewrite slice_drop_last_removelast, removelast_last.
    cbv zeta.
    assert (Hs2 : In tok (tok :: ts)) by (left; reflexivity).
    destruct (emd_name_is_entry (child image_dir filename) (tok :: ts))
      as [H1 [H2 H3]].
    + rewrite name_child. exact Hns.
    + intros x Hx.
      rewrite (stem_of_name (child image_dir filename)
                 (join [space] ((tok :: ts) ++ [s])) ext)
        by (try assumption; apply name_child).
      rewrite split_join by exact Htoks. apply in_or_app. left. exact Hx.
    + rewrite joinpath_entry by assumption. reflexivity.
Qed.

Lemma naming_convention_round_trip_witness :
  extract_source_from_filename (t "NiSi 0001 t1 Foo.png") = t "Foo"
  /\ find_matching_emd Examples.empty_world
       (child Examples.data_dir (t "NiSi 0001 t1 Foo.png")) Examples.data_dir
     = None.
Proof.
  apply (naming_convention_round_trip Examples.empty_world Examples.data_dir
           Examples.data_dir [t "NiSi"; t "0001"; t "t1"] (t "Foo")
           (t "png")).
  - repeat constructor; discriminate.
  - repeat constructor; discriminate.
  - discriminate.
  - intros H. repeat (destruct H as [H|H]; [discriminate|]). exact H.
  - intros H. repeat (destruct H as [H|H]; [discriminate|]). exact H.
Defined.

(* ===================================================================== *)
(** * The order and the sizes of the groups                             *)
(* ===================================================================== *)

Section OrderOfGroups.

Lemma existsb_filter_neq (k x : text) (l : list text) :
  text_eqb k x = false ->
  existsb (text_eqb k) (filter (fun y => negb (text_eqb y x)) l)
  = existsb (text_eqb k) l.
Proof.
  intros Hkx. induction l as [|y l IH]; [reflexivity|].
  cbn [filter existsb]. destruct (text_eqb y x) eqn:E; cbn [negb].
  - rewrite IH. apply text_eqb_eq in E. subst y. rewrite Hkx. reflexivity.
  - cbn [existsb]. rewrite IH. reflexivity.
Qed.

Lemma existsb_distinct (k : text) (l : list text) :
  existsb (text_eqb k) (distinct l) = existsb (text_eqb k) l.
Proof.
  induction l as [|x l IH]; [reflexivity|].
  cbn [distinct existsb]. destruct (text_eqb k x) eqn:E; [reflexivity|].
  cbn [orb]. rewrite existsb_filter_neq by exact E. exact IH.
Qed.

Lemma distinct_snoc (l : list text) (k : text) :
  distinct (l ++ [k])
  = if existsb (text_eqb k) l then distinct l else distinct l ++ [k].
Proof.
  induction l as [|x l IH]; [reflexivity|].
  cbn [app distinct existsb]. rewrite IH.
  destruct (text_eqb k x) eqn:E; cbn [orb].
  - destruct (existsb (text_eqb k) l); [reflexivity|].
    rewrite filter_app. cbn [filter]. rewrite E. cbn [negb].
    rewrite app_nil_r. reflexivity.
  - destruct (existsb (text_eqb k) l); [reflexivity|].
    rewrite filter_app. cbn [filter]. rewrite E. reflexivity.
Qed.

(** The keys of the mapping are the classifier's outputs in the order of
    their first occurrence. *)
Lemma keys_grouping (images : list Path) :
  map fst (grouping images)
  = distinct (map (fun img => extract_source_from_filename (name img))
                  images).
Proof.
  induction images as [|img images IH] using rev_ind; [reflexivity|].
  rewrite grouping_snoc, keys_setdefault_append, IH, map_app.
  cbn [map]. rewrite distinct_snoc, existsb_distinct. reflexivity.
Qed.

Lemma groups_ext (g1 g2 : Groups) :
  map fst g1 = map fst g2 -> NoDup (map fst g1) ->
  (forall k, get g1 k = get g2 k) -> g1 = g2.
Proof.
  revert g2. induction g1 as [|[k v] g1 IH]; intros [|[k2 v2] g2] Hk Hn Hg;
    try discriminate; [reflexivity|].
  cbn [map fst] in Hk, Hn. injection Hk as <- Hk.
  inversion Hn as [|? ? Hnotin Hn']; subst.
  pose proof (Hg k) as Hgk. cbn [get] in Hgk.
  rewrite text_eqb_refl in Hgk. injection Hgk as <-.
  f_equal. apply IH; [exact Hk|exact Hn'|].
  intros k'. pose proof (Hg k') as Hg'. cbn [get] in Hg'.
  destruct (text_eqb k' k) eqn:E; [|exact Hg'].
  apply text_eqb_eq in E. subst k'.
  assert (H1 : get g1 k = None).
  { destruct (get g1 k) eqn:E1; [|reflexivity].
    apply get_In in E1. apply (in_map fst) in E1. contradiction. }
  assert (H2 : get g2 k = None).
  { destruct (get g2 k) eqn:E2; [|reflexivity].
    apply get_In in E2. apply (in_map fst) in E2. rewrite <- Hk in E2.
    contradiction. }
  rewrite H1, H2. reflexivity.
Qed.

Lemma get_map (G : text -> list Path) (ks : list text) (k : text) :
  get (map (fun k => (k, G k)) ks) k
  = if existsb (text_eqb k) ks then Some (G k) else None.
Proof.
  induction ks as [|x ks IH]; [reflexivity|].
  cbn [map get existsb]. destruct (text_eqb k x) eqn:E; [|exact IH].
  apply text_eqb_eq in E. subst x. reflexivity.
Qed.

Lemma classified_nil (k : text) (images : list Path) :
  existsb (text_eqb k)
          (map (fun img => extract_source_from_filename (name img)) images)
  = match classified k images with [] => false | _ => true end.
Proof.
  induction images as [|img images IH]; [reflexivity|].
  cbn [map existsb]. unfold classified in *. cbn [filter].
  destruct (text_eqb k (extract_source_from_filename (name img))) eqn:E.
  - apply text_eqb_eq in E. rewrite <- E, text_eqb_refl. reflexivity.
  - assert (E' : text_eqb (extract_source_from_filename (name img)) k
                 = false).
    { apply text_eqb_neq. apply text_eqb_neq in E. congruence. }
    rewrite E'. exact IH.
Qed.

Lemma grouping_closed_form (images : list Path) :
  grouping images
  = map (fun k => (k, classified k images))
        (distinct (map (fun img => extract_source_from_filename (name img))
                       images)).
Proof.
  apply groups_ext.
  - rewrite map_map. cbn [fst]. rewrite map_id. apply keys_grouping.
  - apply NoDup_keys_grouping.
  - intros k. rewrite get_grouping, get_map, existsb_distinct, classified_nil.
    destruct (classified k images); reflexivity.
Qed.

Lemma total_size_setdefault_append (g : Groups) (s : text) (img : Path) :
  total_size (setdefault_append g s img) = S (total_size g).
Proof.
  unfold total_size, list_sum. induction g as [|[k v] g IH]; [reflexivity|].
  cbn [setdefault_append]. destruct (text_eqb s k).
  - cbn [map fold_right snd]. rewrite length_app. cbn [length]. lia.
  - cbn [map fold_right snd] in *. rewrite IH. lia.
Qed.

Lemma total_size_grouping (images : list Path) :
  total_size (grouping images) = length images.
Proof.
  induction images as [|img images IH] using rev_ind; [reflexivity|].
  rewrite grouping_snoc, total_size_setdefault_append, IH, length_app.
  cbn [length]. lia.
Qed.

Lemma length_flat_map_cons (f : text -> text -> bool) (ps es : list text)
      (e : text) :
  length (flat_map (fun p => filter (f p) (e :: es)) ps)
  = length (filter (fun p => f p e) ps)
    + length (flat_map (fun p => filter (f p) es) ps).
Proof.
  induction ps as [|p ps IH]; [reflexivity|].
  cbn [flat_map]. rewrite !length_app, IH. cbn [filter].
  destruct (f p e); cbn [length]; lia.
Qed.

Lemma length_flat_map_filter (f : text -> text -> bool)
      (ps entries : list text) :
  length (flat_map (fun p => filter (f p) entries) ps)
  = list_sum (map (fun e => length (filter (fun p => f p e) ps)) entries).
Proof.
  unfold list_sum. induction entries as [|e entries IH].
  - induction ps as [|p ps IHp]; [reflexivity|exact IHp].
  - rewrite length_flat_map_cons, IH. reflexivity.
Qed.

Lemma length_filter_unique (A : Type) (f : A -> bool) (l : list A) :
  (forall p q, In p l -> In q l -> f p = true -> f q = true -> p = q) ->
  NoDup l ->
  length (filter f l) = if existsb f l then 1 else 0.
Proof.
  induction l as [|a l IH]; intros Hu Hn; [reflexivity|].
  inversion Hn as [|? ? Hnotin Hn']; subst.
  assert (IH' : length (filter f l) = if existsb f l then 1 else 0).
  { apply IH; [|exact Hn']. intros p q Hp Hq. apply Hu; right; assumption. }
  cbn [filter existsb]. destruct (f a) eqn:Ea; [|exact IH'].
  cbn [orb length]. destruct (existsb f l) eqn:El.
  - apply existsb_exists in El. destruct El as [q [Hq Hfq]].
    exfalso. apply Hnotin.
    rewrite (Hu a q); [exact Hq|left; reflexivity|right; exact Hq|exact Ea
                      |exact Hfq].
  - rewrite IH'. reflexivity.
Qed.

Lemma patterns_matching (n : text) :
  length (filter (fun p => fnmatch p n) image_patterns)
  = if has_image_extension n then 1 else 0.
Proof.
  rewrite <- image_patterns_extensions.
  apply (length_filter_unique text (fun p => fnmatch p n)).
  - intros p q Hp Hq. apply image_patterns_disjoint; assumption.
  - apply NoDup_image_patterns.
Qed.

Lemma length_filter_sum (A : Type) (f : A -> bool) (l : list A) :
  length (filter f l) = list_sum (map (fun a => if f a then 1 else 0) l).
Proof.
  unfold list_sum. induction l as [|a l IH]; [reflexivity|].
  cbn [filter map fold_right]. destruct (f a); cbn [length]; lia.
Qed.

Lemma length_scan_images (w : World) (dir : Path) :
  length (scan_images w dir)
  = length (filter has_image_extension (listing w dir)).
Proof.
  rewrite scan_images_names, length_map, length_flat_map_filter.
  rewrite length_filter_sum. f_equal. apply map_ext. intros n.
  apply patterns_matching.
Qed.

End OrderOfGroups.

(** X4. The mapping the grouper returns, in closed form: its keys are
    the classifier's outputs in the order of their first occurrence in the
    enumeration (all [*.png] in the order of the directory, then [*.jpg],
    [*.jpeg], [*.tif] and [*.tiff]), and the group of a key lists the
    images of that key in the order of the enumeration. *)
Theorem groups_in_enumeration_order :
  forall (w : World) (image_dir : Path),
    group_images_by_source w image_dir
    = Ok (map (fun k => (k, classified k (enumerated w image_dir)))
              (distinct
                 (map (fun img => extract_source_from_filename (name img))
                      (enumerated w image_dir)))).
Proof.
  intros w image_dir. unfold group_images_by_source, enumerated.
  rewrite <- scan_images_names.
  fold (grouping (scan_images w image_dir)).
  rewrite grouping_closed_form. reflexivity.
Qed.

(** X5. The sizes of the groups add up to the number of entries of the
    directory that end with one of the five extensions: no image is
    counted twice, whatever the listing. *)
Theorem group_sizes_add_up :
  forall (w : World) (image_dir : Path) (groups : Groups),
    group_images_by_source w image_dir = Ok groups ->
    total_size groups
    = length (filter has_image_extension (listing w image_dir)).
Proof.
  intros w image_dir groups H. unfold group_images_by_source in H.
  injection H as <-. fold (grouping (scan_images w image_dir)).
  rewrite total_size_grouping. apply length_scan_images.
Qed.

Lemma group_sizes_add_up_witness :
  total_size [(t "Foo", [child Examples.data_dir (t "t1 Foo.png");
                         child Examples.data_dir (t "t2 Foo.png")]);
              (t "Bar", [child Examples.data_dir (t "a Bar.tif")])]
  = 3.
Proof.
  apply (group_sizes_add_up Examples.scan_world Examples.data_dir).
  reflexivity.
Defined.

(* ===================================================================== *)
(** * The volume the assembler returns                                  *)
(* ===================================================================== *)

Section VolumeFacts.
Variable E : Type.
Variable w : World.
Variable emd_dir : Path.
Variable cb : Callbacks E.

(** A stacking loop that is not cancelled does not return [None]. *)
Lemma stack_loop_never_none (records : list (float * Path)) :
  never_cancelled cb ->
  forall n j stack tr,
    fst (stack_loop w cb n j records stack tr) <> Ok None.
Proof.
  intros never.
  induction records as [|[alpha img] rest IH]; intros n j stack tr;
    cbn [stack_loop]; [discriminate|].
  pose proof (poll_never E cb tr never) as P.
  destruct (poll cb tr) as [c tr1]. simpl in P. subst c.
  destruct (image_open w img) as [im|e]; [apply IH|discriminate].
Qed.

(** When every record decodes, a stacking loop that is not cancelled
    returns the decoded images. *)
Lemma stack_loop_all_decode (records : list (float * Path)) :
  never_cancelled cb ->
  (forall r, In r records -> exists im, image_open w (snd r) = Ok im) ->
  forall n j stack tr,
  exists imgs,
    fst (stack_loop w cb n j records stack tr) = Ok (Some (stack ++ imgs))
    /\ Forall2 (fun r im => image_open w (snd r) = Ok im) records imgs.
Proof.
  intros never.
  induction records as [|[alpha img] rest IH]; intros Hdec n j stack tr;
    cbn [stack_loop].
  - exists []. rewrite app_nil_r. split; [reflexivity|constructor].
  - pose proof (poll_never E cb tr never) as P.
    destruct (poll cb tr) as [c tr1]. simpl in P. subst c.
    destruct (Hdec (alpha, img) (or_introl eq_refl)) as [im Him].
    cbn [snd] in Him. rewrite Him.
    destruct (IH (fun r Hr => Hdec r (or_intror Hr)) n (S j) (stack ++ [im])
                 (emit_progress cb
                    (50 + percent (Z.of_nat j + 1)
                                  (Z.max (Z.of_nat n) 1) 50) tr1))
      as [imgs [H1 H2]].
    exists (im :: imgs). rewrite <- app_assoc in H1.
    split; [exact H1|]. constructor; [exact Him|exact H2].
Qed.

Lemma np_stack_shapes (l : list Array2) (v : Volume) :
  np_stack l = Ok v ->
  v = l /\ l <> []
  /\ exists sh, Forall (fun a => shape a = sh) l.
Proof.
  unfold np_stack. destruct l as [|a l]; [discriminate|].
  destruct (forallb _ l) eqn:F; [|discriminate].
  intros H. injection H as <-. split; [reflexivity|].
  split; [discriminate|]. exists (shape a).
  constructor; [reflexivity|].
  rewrite forallb_forall in F. apply Forall_forall. intros b Hb.
  specialize (F b Hb). unfold shape_eqb in F.
  apply andb_true_iff in F. destruct F as [F1 F2].
  apply Nat.eqb_eq in F1, F2.
  destruct (shape b), (shape a). simpl in *. congruence.
Qed.

Lemma np_stack_mismatch (l : list Array2) (a b : Array2) :
  In a l -> In b l -> shape a <> shape b ->
  np_stack l
  = Raise (ValueError (t "all input arrays must have the same shape")).
Proof.
  intros Ha Hb Hne. destruct (np_stack l) as [v|e] eqn:En.
  - apply np_stack_shapes in En. destruct En as [_ [_ [sh Hsh]]].
    rewrite Forall_forall in Hsh. exfalso. apply Hne.
    rewrite (Hsh a Ha), (Hsh b Hb). reflexivity.
  - unfold np_stack in En. destruct l as [|x l]; [contradiction|].
    destruct (forallb _ l); [discriminate|]. symmetry. exact En.
Qed.

Lemma Forall2_In_l (A B : Type) (R : A -> B -> Prop) (l : list A)
      (l' : list B) (x : A) :
  Forall2 R l l' -> In x l -> exists y, In y l' /\ R x y.
Proof.
  induction 1 as [|a b l l' Hab HF IH]; intros Hin; [contradiction|].
  destruct Hin as [->|Hin].
  - exists b. split; [left; reflexivity|exact Hab].
  - destruct (IH Hin) as [y [Hy Hr]]. exists y.
    split; [right; exact Hy|exact Hr].
Qed.

End VolumeFacts.

(** X6. In a run that is not cancelled and in which every container that
    is found opens, the assembler returns "no result" exactly when no image
    of the input has an angle, the empty input included; with one matched
    image or more it returns a volume or raises. *)
Theorem no_match_no_volume :
  forall (E : Type) (w : World) (emd_dir : Path) (cb : Callbacks E)
         (image_files : list Path) (tr : Trace E),
    never_cancelled cb ->
    (forall img emd_path,
        In img image_files ->
        find_matching_emd w img emd_dir = Some emd_path ->
        exists r, extract_alpha_tilt_from_emd w emd_path = Ok r) ->
    (fst (load_images_sorted_by_alpha w emd_dir cb image_files tr) = Ok None
     <-> matched w emd_dir image_files = []).
Proof.
  intros E w emd_dir cb image_files tr never Hopen.
  unfold load_images_sorted_by_alpha.
  pose proof (collect_all_open E w emd_dir cb never image_files Hopen
                (length image_files) 0 [] tr) as Hc.
  destruct (collect w emd_dir cb _ 0 image_files [] tr) as [out tr1].
  simpl in Hc. subst out.
  destruct (matched w emd_dir image_files) as [|r records];
    [split; reflexivity|].
  split; [|discriminate].
  set (sorted := sort ltb (@fst float Path) (r :: records)).
  pose proof (stack_loop_never_none E w cb sorted never (length sorted) 0 []
                tr1) as Hn.
  destruct (stack_loop w cb _ 0 sorted [] tr1) as [res tr2].
  simpl in Hn. destruct res as [[stack|]|e].
  - destruct (np_stack stack); discriminate.
  - contradiction.
  - discriminate.
Qed.

Lemma no_match_no_volume_witness :
  fst (load_images_sorted_by_alpha Examples.empty_world Examples.data_dir
         Examples.silent [Examples.image_t1; Examples.image_t2]
         (mkTrace [] 0)) = Ok None
  <-> matched Examples.empty_world Examples.data_dir
              [Examples.image_t1; Examples.image_t2] = [].
Proof.
  apply (no_match_no_volume unit Examples.empty_world Examples.data_dir
           Examples.silent [Examples.image_t1; Examples.image_t2]
           (mkTrace [] 0)).
  - intros c H. discriminate.
  - intros img emd_path _ H.
    unfold find_matching_emd in H. cbv zeta in H.
    destruct (length (split (stem img)) <? 2); [discriminate|].
    simpl in H. discriminate.
Defined.

(** X7. A volume the assembler returns is not empty, has one slice for
    each matched image of the input, and its slices all have one shape. *)
Theorem volume_is_rectangular :
  forall (E : Type) (w : World) (emd_dir : Path) (cb : Callbacks E)
         (image_files : list Path) (tr tr' : Trace E) (v : Volume),
    load_images_sorted_by_alpha w emd_dir cb image_files tr
    = (Ok (Some v), tr') ->
    v <> []
    /\ length v = length (matched w emd_dir image_files)
    /\ exists sh, Forall (fun slice => shape slice = sh) v.
Proof.
  intros E w emd_dir cb image_files tr tr' v H.
  unfold load_images_sorted_by_alpha in H.
  destruct (collect w emd_dir cb _ 0 image_files [] tr) as [out tr1] eqn:Hc.
  destruct out as [records| |e]; try discriminate.
  apply collect_records in Hc. simpl in Hc. subst records.
  destruct (matched w emd_dir image_files) as [|r records] eqn:Em;
    [discriminate|].
  set (sorted := sort ltb (@fst float Path) (r :: records)) in *.
  destruct (stack_loop w cb _ 0 sorted [] tr1) as [res tr2] eqn:Hl.
  destruct res as [[stack|]|e]; try discriminate.
  apply stack_loop_decoded in Hl. destruct Hl as [imgs [Hst HF]].
  simpl in Hst. subst stack.
  destruct (np_stack imgs) as [v'|e] eqn:Hn; [|discriminate].
  apply np_stack_shapes in Hn. destruct Hn as [-> [Hne Hsh]].
  injection H as <- _. split; [exact Hne|]. split; [|exact Hsh].
  apply Forall2_length in HF. rewrite <- HF. subst sorted.
  symmetry. apply Permutation_length. apply sort_perm.
Qed.

Lemma volume_is_rectangular_witness :
  [Examples.pixel 2; Examples.pixel 3; Examples.pixel 1] <> []
  /\ length [Examples.pixel 2; Examples.pixel 3; Examples.pixel 1]
     = length (matched Examples.tilt_world Examples.data_dir
                       Examples.tilt_files)
  /\ exists sh,
      Forall (fun slice => shape slice = sh)
             [Examples.pixel 2; Examples.pixel 3; Examples.pixel 1].
Proof.
  apply (volume_is_rectangular unit Examples.tilt_world Examples.data_dir
           Examples.silent Examples.tilt_files (mkTrace [] 0)
           (mkTrace [] 0)).
  vm_compute. reflexivity.
Defined.

(** X8. When the matched images all decode and two of them have
    different shapes, a run that is not cancelled raises the [ValueError]
    of [np.stack]: there is no partial volume. *)
Theorem shape_mismatch_raises :
  forall (E : Type) (w : World) (emd_dir : Path) (cb : Callbacks E)
         (image_files : list Path) (tr : Trace E),
    never_cancelled cb ->
    (forall img emd_path,
        In img image_files ->
        find_matching_emd w img emd_dir = Some emd_path ->
        exists r, extract_alpha_tilt_from_emd w emd_path = Ok r) ->
    (forall img alpha,
        In img image_files -> angle_of w emd_dir img = Some alpha ->
        exists im, image_open w img = Ok im) ->
    (exists img1 img2 alpha1 alpha2 im1 im2,
        In img1 image_files /\ In img2 image_files
        /\ angle_of w emd_dir img1 = Some alpha1
        /\ angle_of w emd_dir img2 = Some alpha2
        /\ image_open w img1 = Ok im1 /\ image_open w img2 = Ok im2
        /\ shape im1 <> shape im2) ->
    fst (load_images_sorted_by_alpha w emd_dir cb image_files tr)
    = Raise (ValueError (t "all input arrays must have the same shape")).
Proof.
  intros E w emd_dir cb image_files tr never Hopen Hdec
         [img1 [img2 [a1 [a2 [im1 [im2 [Hi1 [Hi2 [Ha1 [Ha2 [Ho1 [Ho2 Hne]]]]]]]]]]]].
  unfold load_images_sorted_by_alpha.
  pose proof (collect_all_open E w emd_dir cb never image_files Hopen
                (length image_files) 0 [] tr) as Hc.
  destruct (collect w emd_dir cb _ 0 image_files [] tr) as [out tr1].
  simpl in Hc. subst out.
  assert (Hm1 : In (a1, img1) (matched w emd_dir image_files))
    by (apply In_matched; split; assumption).
  assert (Hm2 : In (a2, img2) (matched w emd_dir image_files))
    by (apply In_matched; split; assumption).
  assert (Hall : forall r, In r (matched w emd_dir image_files) ->
                           exists im, image_open w (snd r) = Ok im).
  { intros [a img] Hr. apply In_matched in Hr. destruct Hr as [Hin Ha].
    apply (Hdec img a Hin Ha). }
  destruct (matched w emd_dir image_files) as [|r records] eqn:Em;
    [contradiction|].
  set (sorted := sort ltb (@fst float Path) (r :: records)).
  assert (Hperm : Permutation (r :: records) sorted) by apply sort_perm.
  destruct (stack_loop_all_decode E w cb sorted never) with
    (n := length sorted) (j := 0) (stack := @nil Array2) (tr := tr1)
    as [imgs [Hres HF]].
  { intros x Hx. apply Hall.
    eapply Permutation_in; [apply Permutation_sym; exact Hperm|exact Hx]. }
  destruct (stack_loop w cb _ 0 sorted [] tr1) as [res tr2].
  simpl in Hres. subst res.
  assert (H1 : In im1 imgs).
  { destruct (Forall2_In_l _ _ _ _ _ (a1, img1) HF) as [y [Hy Hr]].
    - eapply Permutation_in; [exact Hperm|exact Hm1].
    - cbn [snd] in Hr. congruence. }
  assert (H2 : In im2 imgs).
  { destruct (Forall2_In_l _ _ _ _ _ (a2, img2) HF) as [y [Hy Hr]].
    - eapply Permutation_in; [exact Hperm|exact Hm2].
    - cbn [snd] in Hr. congruence. }
  rewrite (np_stack_mismatch imgs im1 im2 H1 H2 Hne). reflexivity.
Qed.

Lemma shape_mismatch_raises_witness :
  fst (load_images_sorted_by_alpha Examples.uneven_world Examples.data_dir
         Examples.silent
         [Examples.image_t1; Examples.image_t2; Examples.image_t3]
         (mkTrace [] 0))
  = Raise (ValueError (t "all input arrays must have the same shape")).
Proof.
  apply (shape_mismatch_raises unit Examples.uneven_world Examples.data_dir
           Examples.silent
           [Examples.image_t1; Examples.image_t2; Examples.image_t3]
           (mkTrace [] 0)).
  - intros c H. discriminate.
  - intros img emd_path Hin Hf. simpl in Hin.
    repeat (destruct Hin as [<-|Hin];
            [vm_compute in Hf;
             first [discriminate
                   |injection Hf as <-; eexists; vm_compute; reflexivity]
            |]).
    contradiction.
  - intros img alpha Hin _. simpl in Hin.
    repeat (destruct Hin as [<-|Hin];
            [eexists; vm_compute; reflexivity|]).
    contradiction.
  - exists Examples.image_t1, Examples.image_t2.
    do 4 eexists.
    split; [left; reflexivity|].
    split; [right; left; reflexivity|].
    split; [vm_compute; reflexivity|].
    split; [vm_compute; reflexivity|].
    split; [vm_compute; reflexivity|].
    split; [vm_compute; reflexivity|].
    vm_compute. discriminate.
Defined.

(* ===================================================================== *)
(** * The log of the assembler                                          *)
(* ===================================================================== *)

Section LogFacts.
Variable w : World.
Variable emd_dir : Path.
Variable c : option (nat -> bool).
Hypothesis never : never_cancelled (recording c).

Lemma log_lines_app (l1 l2 : list (entry (text + Z))) :
  log_lines (l1 ++ l2) = log_lines l1 ++ log_lines l2.
Proof. apply flat_map_app. Qed.

Lemma poll_recording (tr : Trace (text + Z)) :
  exists new,
    poll (recording c) tr
    = (false, mkTrace (entries tr ++ new) (polls tr + length new))
    /\ log_lines new = [].
Proof.
  unfold poll. cbn [cancel_flag recording].
  destruct c as [f|] eqn:Ec.
  - exists [Polled false].
    rewrite (never f eq_refl). cbn [length]. rewrite Nat.add_1_r.
    split; reflexivity.
  - exists []. rewrite app_nil_r, Nat.add_0_r. destruct tr.
    split; reflexivity.
Qed.

Lemma collect_logs (files : list Path) :
  (forall img emd_path,
      In img files -> find_matching_emd w img emd_dir = Some emd_path ->
      exists r, extract_alpha_tilt_from_emd w emd_path = Ok r) ->
  forall total idx records tr,
  exists new,
    entries (snd (collect w emd_dir (recording c) total idx files records tr))
    = entries tr ++ new
    /\ log_lines new = flat_map (skip_warning w emd_dir) files.
Proof.
  induction files as [|img rest IH]; intros Hopen total idx records tr;
    cbn [collect].
  - exists []. rewrite app_nil_r. split; reflexivity.
  - destruct (poll_recording tr) as [p [-> Hp]].
    assert (Hrest : forall img' emd_path,
               In img' rest ->
               find_matching_emd w img' emd_dir = Some emd_path ->
               exists r, extract_alpha_tilt_from_emd w emd_path = Ok r).
    { intros img' emd_path Hin. apply Hopen. right. exact Hin. }
    cbn [flat_map]. unfold skip_warning at 1.
    destruct (find_matching_emd w img emd_dir) as [emd_path|] eqn:Ef.
    + destruct (Hopen img emd_path (or_introl eq_refl) Ef) as [r Hr].
      rewrite Hr. destruct r as [alpha|].
      * destruct (IH Hrest total (S idx) (records ++ [(alpha, img)])
                    (emit_progress (recording c)
                       (percent (Z.of_nat idx + 1)
                                (Z.max (Z.of_nat total) 1) 50)
                       (mkTrace (entries tr ++ p) (polls tr + length p))))
          as [new [E1 L1]].
        rewrite E1. cbn [emit_progress recording progress_cb entries].
        eexists. rewrite <- !app_assoc. split; [reflexivity|].
        rewrite !log_lines_app, Hp, L1. reflexivity.
      * destruct (IH Hrest total (S idx) records
                    (emit_log (recording c)
                       (warning_sign ++ t " AlphaTilt not found for: "
                                     ++ name emd_path)
                       (mkTrace (entries tr ++ p) (polls tr + length p))))
          as [new [E1 L1]].
        rewrite E1. cbn [emit_log recording log_cb entries].
        eexists. rewrite <- !app_assoc. split; [reflexivity|].
        rewrite !log_lines_app, Hp, L1. reflexivity.
    + destruct (IH Hrest total (S idx) records
                  (emit_log (recording c)
                     (warning_sign ++ t " EMD not found for: " ++ name img)
                     (mkTrace (entries tr ++ p) (polls tr + length p))))
        as [new [E1 L1]].
      rewrite E1. cbn [emit_log recording log_cb entries].
      eexists. rewrite <- !app_assoc. split; [reflexivity|].
      rewrite !log_lines_app, Hp, L1. reflexivity.
Qed.

Lemma stack_loop_logs (records : list (float * Path)) :
  forall n j stack tr,
  exists new,
    entries (snd (stack_loop w (recording c) n j records stack tr))
    = entries tr ++ new
    /\ log_lines new = [].
Proof.
  induction records as [|[alpha img] rest IH]; intros n j stack tr;
    cbn [stack_loop].
  - exists []. rewrite app_nil_r. split; reflexivity.
  - destruct (poll_recording tr) as [p [-> Hp]].
    destruct (image_open w img) as [im|e].
    + destruct (IH n (S j) (stack ++ [im])
                  (emit_progress (recording c)
                     (50 + percent (Z.of_nat j + 1)
                                   (Z.max (Z.of_nat n) 1) 50)
                     (mkTrace (entries tr ++ p) (polls tr + length p))))
        as [new [E1 L1]].
      rewrite E1. cbn [emit_progress recording progress_cb entries].
      eexists. rewrite <- !app_assoc. split; [reflexivity|].
      rewrite !log_lines_app, Hp, L1. reflexivity.
    + exists p. split; [reflexivity|exact Hp].
Qed.

End LogFacts.

(** X9. In a run that is not cancelled and in which every container that
    is found opens, the log lines of the assembler are the warnings of the
    skipped images, one for each, in input order: "EMD not found for" with
    the name of the image, or "AlphaTilt not found for" with the name of
    the container. The stacking loop logs nothing. *)
Theorem skipped_images_are_logged :
  forall (w : World) (emd_dir : Path) (c : option (nat -> bool))
         (image_files : list Path) (tr : Trace (text + Z)),
    never_cancelled (recording c) ->
    (forall img emd_path,
        In img image_files ->
        find_matching_emd w img emd_dir = Some emd_path ->
        exists r, extract_alpha_tilt_from_emd w emd_path = Ok r) ->
    exists new,
      entries (snd (load_images_sorted_by_alpha w emd_dir (recording c)
                      image_files tr))
      = entries tr ++ new
      /\ log_lines new = flat_map (skip_warning w emd_dir) image_files.
Proof.
  intros w emd_dir c image_files tr never Hopen.
  unfold load_images_sorted_by_alpha.
  destruct (collect_logs w emd_dir c never image_files Hopen
              (length image_files) 0 [] tr) as [new1 [E1 L1]].
  destruct (collect w emd_dir (recording c) _ 0 image_files [] tr)
    as [out tr1].
  cbn [snd] in E1.
  destruct out as [records| |e];
    [|exists new1; split; assumption|exists new1; split; assumption].
  destruct records as [|r records]; [exists new1; split; assumption|].
  set (sorted := sort ltb (@fst float Path) (r :: records)).
  destruct (stack_loop_logs w c never sorted (length sorted) 0 [] tr1)
    as [new2 [E2 L2]].
  destruct (stack_loop w (recording c) _ 0 sorted [] tr1) as [res tr2].
  cbn [snd] in E2.
  assert (H : entries tr2 = entries tr ++ new1 ++ new2
              /\ log_lines (new1 ++ new2)
                 = flat_map (skip_warning w emd_dir) image_files).
  { split; [rewrite E2, E1, <- app_assoc; reflexivity|].
    rewrite log_lines_app, L1, L2, app_nil_r. reflexivity. }
  destruct res as [[stack|]|e].
  - destruct (np_stack stack); exists (new1 ++ new2); exact H.
  - exists (new1 ++ new2); exact H.
  - exists (new1 ++ new2); exact H.
Qed.

Lemma skipped_images_are_logged_witness :
  exists new,
    entries (snd (load_images_sorted_by_alpha Examples.tilt_world
                    Examples.data_dir (recording None) Examples.tilt_files
                    (mkTrace [] 0)))
    = entries (mkTrace [] 0) ++ new
    /\ log_lines new
       = [warning_sign ++ t " EMD not found for: t4 Foo.png"].
Proof.
  apply (skipped_images_are_logged Examples.tilt_world Examples.data_dir
           None Examples.tilt_files (mkTrace [] 0)).
  - intros c H. discriminate.
  - intros img emd_path Hin Hf. simpl in Hin.
    repeat (destruct Hin as [<-|Hin];
            [vm_compute in Hf;
             first [discriminate
                   |injection Hf as <-; eexists; vm_compute; reflexivity]
            |]).
    contradiction.
Defined.

(* ===================================================================== *)
(** * The last report of the assembler                                  *)
(* ===================================================================== *)

Section ExactFacts.
Local Open Scope Z_scope.

Lemma new_location_exact (n : Z) : new_location n 0 = loc_Exact.
Proof.
  unfold new_location, new_location_even, new_location_odd.
  destruct (Z.even n); reflexivity.
Qed.

(** [n / n] is the float 1.0. *)
Lemma truediv_same (n : Z) :
  0 < n -> truediv n n = S754_finite false 4503599627370496 (-52).
Proof.
  intros Hn. unfold truediv, round_quotient.
  destruct n as [|p|p]; try lia.
  unfold SFdiv_core_binary.
  replace (Zdigits2 (Z.pos p) + 0 - (Zdigits2 (Z.pos p) + 0)) with 0 by lia.
  change (Z.min (fexp prec emax 0) (0 - 0)) with (-53).
  change (0 - 0 - -53) with 53.
  cbv iota beta.
  rewrite Z.shiftl_mul_pow2 by lia.
  assert (Hd : Z.div_eucl (Z.pos p * 2 ^ 53) (Z.pos p) = (2 ^ 53, 0)).
  { pose proof (Z.div_mul (2 ^ 53) (Z.pos p) ltac:(lia)) as H1.
    pose proof (Z.mod_mul (2 ^ 53) (Z.pos p) ltac:(lia)) as H2.
    rewrite (Z.mul_comm (2 ^ 53)) in H1, H2.
    unfold Z.div in H1. unfold Z.modulo in H2.
    destruct (Z.div_eucl (Z.pos p * 2 ^ 53) (Z.pos p)) as [q r].
    cbn [fst snd] in H1. subst q. f_equal.
    destruct (Z.pos p) eqn:Ep; try discriminate. exact H2. }
  rewrite Hd. rewrite new_location_exact. vm_compute. reflexivity.
Qed.

(** [int(n / n * 50)] is 50. *)
Lemma percent_full (n : Z) : 0 < n -> percent n n 50 = 50.
Proof.
  intros Hn. unfold percent. rewrite truediv_same by exact Hn.
  vm_compute. reflexivity.
Qed.

End ExactFacts.

(* ===================================================================== *)
(** * The order of the input files                                      *)
(* ===================================================================== *)

Section InputOrder.
Variable w : World.
Variable emd_dir : Path.

Lemma matched_perm (files1 files2 : list Path) :
  Permutation files1 files2 ->
  Permutation (matched w emd_dir files1) (matched w emd_dir files2).
Proof.
  intros H. unfold matched.
  induction H as [|x l l' H IH|x y l|l l' l'' H1 IH1 H2 IH2]; cbn [flat_map].
  - constructor.
  - apply Permutation_app_head. exact IH.
  - rewrite !app_assoc. apply Permutation_app_tail. apply Permutation_app_comm.
  - eapply Permutation_trans; eassumption.
Qed.

Lemma filter_perm (A : Type) (f : A -> bool) (l l' : list A) :
  Permutation l l' -> Permutation (filter f l) (filter f l').
Proof.
  induction 1 as [|x l l' H IH|x y l|l l' l'' H1 IH1 H2 IH2]; cbn [filter].
  - constructor.
  - destruct (f x); [constructor|]; exact IH.
  - destruct (f x), (f y); try apply Permutation_refl. constructor.
  - eapply Permutation_trans; eassumption.
Qed.

Lemma short_perm (A : Type) (l l' : list A) :
  Permutation l l' -> length l <= 1 -> l = l'.
Proof.
  intros H Hl. destruct l as [|x [|y l]]; cbn in Hl; try lia.
  - apply Permutation_nil in H. symmetry. exact H.
  - apply Permutation_length_1_inv in H. symmetry. exact H.
Qed.

Lemma eqb_trans_l (a x y : float) :
  eqb a x = true -> eqb a y = true -> eqb x y = true.
Proof.
  intros H1 H2.
  destruct (eqb_not_nan a x H1) as [Na Nx].
  destruct (eqb_not_nan a y H2) as [_ Ny].
  apply (eqb_key _ _ Na Nx) in H1. apply (eqb_key _ _ Na Ny) in H2.
  apply (eqb_key _ _ Nx Ny). congruence.
Qed.

(** At most one record has a given angle. *)
Lemma distinct_filter (records : list (float * Path)) (a : float) :
  distinct_angles records = true ->
  length (filter (fun r => eqb a (fst r)) records) <= 1.
Proof.
  induction records as [|r rest IH]; intros H; [cbn; lia|].
  cbn [distinct_angles] in H. apply andb_true_iff in H.
  destruct H as [H1 H2]. cbn [filter].
  destruct (eqb a (fst r)) eqn:Ea; [|apply IH; exact H2].
  assert (Hrest : filter (fun r0 => eqb a (fst r0)) rest = []).
  { clear IH H2. induction rest as [|r' rest IH']; [reflexivity|].
    cbn [forallb] in H1. apply andb_true_iff in H1.
    destruct H1 as [Hr Hrest]. cbn [filter].
    destruct (eqb a (fst r')) eqn:Ea'; [|apply IH'; exact Hrest].
    rewrite (eqb_trans_l a (fst r) (fst r') Ea Ea') in Hr. discriminate. }
  rewrite Hrest. cbn. lia.
Qed.

(** Two lists of records with the same members, no two of equal angle, are
    sorted to the same list. *)
Lemma sort_distinct (m1 m2 : list (float * Path)) :
  Forall (fun r => not_nan (fst r)) m1 ->
  Permutation m1 m2 -> distinct_angles m1 = true ->
  sort ltb (@fst float Path) m1 = sort ltb (@fst float Path) m2.
Proof.
  intros Hn Hp Hd.
  assert (Hn2 : Forall (fun r => not_nan (fst r)) m2)
    by (eapply Permutation_Forall; eassumption).
  destruct (sort_records m1 Hn) as [P1 [S1 F1]].
  destruct (sort_records m2 Hn2) as [P2 [S2 F2]].
  cbv zeta in *.
  apply stable_sort_unique.
  - eapply Permutation_Forall; eassumption.
  - eapply Permutation_trans; [apply Permutation_sym; exact P1|].
    eapply Permutation_trans; [exact Hp|exact P2].
  - exact S1.
  - exact S2.
  - intros a. rewrite F1, F2.
    apply short_perm; [|apply distinct_filter; exact Hd].
    apply filter_perm. exact Hp.
Qed.

End InputOrder.

(** X10. The volume does not depend on the order in which the files are
    given, when their angles differ: for two lists of files that are
    permutations of one another, whose containers open, with no
    cancellation and with pairwise different angles among the matched
    files, the assembler returns the same result (the same volume, the
    same absence of one, or the same exception). *)
Theorem input_order_is_irrelevant :
  forall (E1 E2 : Type) (w : World) (emd_dir : Path)
         (cb1 : Callbacks E1) (cb2 : Callbacks E2)
         (files1 files2 : list Path) (tr1 : Trace E1) (tr2 : Trace E2),
    never_cancelled cb1 -> never_cancelled cb2 ->
    (forall img emd_path,
        In img files1 ->
        find_matching_emd w img emd_dir = Some emd_path ->
        exists r, extract_alpha_tilt_from_emd w emd_path = Ok r) ->
    Permutation files1 files2 ->
    distinct_angles (matched w emd_dir files1) = true ->
    fst (load_images_sorted_by_alpha w emd_dir cb1 files1 tr1)
    = fst (load_images_sorted_by_alpha w emd_dir cb2 files2 tr2).
Proof.
  intros E1 E2 w emd_dir cb1 cb2 files1 files2 tr1 tr2 N1 N2 Hopen Hp Hd.
  assert (Hopen2 : forall img emd_path,
             In img files2 ->
             find_matching_emd w img emd_dir = Some emd_path ->
             exists r, extract_alpha_tilt_from_emd w emd_path = Ok r).
  { intros img emd_path Hin. apply Hopen.
    eapply Permutation_in; [apply Permutation_sym; exact Hp|exact Hin]. }
  unfold load_images_sorted_by_alpha.
  pose proof (collect_all_open E1 w emd_dir cb1 N1 files1 Hopen
                (length files1) 0 [] tr1) as C1.
  pose proof (collect_all_open E2 w emd_dir cb2 N2 files2 Hopen2
                (length files2) 0 [] tr2) as C2.
  destruct (collect w emd_dir cb1 _ 0 files1 [] tr1) as [out1 tr1'].
  destruct (collect w emd_dir cb2 _ 0 files2 [] tr2) as [out2 tr2'].
  cbn [fst app] in C1, C2. subst out1 out2.
  pose proof (matched_perm w emd_dir files1 files2 Hp) as Hm.
  pose proof (sort_distinct (matched w emd_dir files1)
                (matched w emd_dir files2)
                (matched_not_nan w emd_dir files1) Hm Hd) as Hs.
  destruct (matched w emd_dir files1) as [|r1 m1] eqn:E1m;
    destruct (matched w emd_dir files2) as [|r2 m2] eqn:E2m.
  - reflexivity.
  - apply Permutation_nil in Hm. discriminate.
  - apply Permutation_sym, Permutation_nil in Hm. discriminate.
  - rewrite <- Hs.
    set (sorted := sort ltb (@fst float Path) (r1 :: m1)).
    pose proof (stack_loop_deterministic E1 E2 w cb1 cb2 N1 N2 sorted
                  (length sorted) 0 (length sorted) 0 [] tr1' tr2') as H.
    destruct (stack_loop w cb1 _ 0 sorted [] tr1') as [res1 tr1''].
    destruct (stack_loop w cb2 _ 0 sorted [] tr2') as [res2 tr2''].
    cbn [fst] in H. subst res2.
    destruct res1 as [[stack|]|e]; try reflexivity.
    destruct (np_stack stack); reflexivity.
Qed.

Lemma input_order_is_irrelevant_witness :
  fst (load_images_sorted_by_alpha Examples.tilt_world Examples.data_dir
         Examples.silent Examples.tilt_files (mkTrace [] 0))
  = fst (load_images_sorted_by_alpha Examples.tilt_world Examples.data_dir
           Examples.silent (rev Examples.tilt_files) (mkTrace [] 0)).
Proof.
  apply (input_order_is_irrelevant unit unit Examples.tilt_world
           Examples.data_dir Examples.silent Examples.silent
           Examples.tilt_files (rev Examples.tilt_files)).
  - intros c H. discriminate.
  - intros c H. discriminate.
  - intros img emd_path Hin Hf. simpl in Hin.
    repeat (destruct Hin as [<-|Hin];
            [vm_compute in Hf;
             first [discriminate
                   |injection Hf as <-; eexists; vm_compute; reflexivity]
            |]).
    contradiction.
  - apply Permutation_rev.
  - vm_compute. reflexivity.
Defined.

(* ===================================================================== *)
(** * What the worker writes                                            *)
(* ===================================================================== *)

Section OutputFacts.
Variable w : World.
Variable self : GUI.Worker.

Lemma writes_app (l1 l2 : list (entry GUI.effect)) :
  writes (l1 ++ l2) = writes l1 ++ writes l2.
Proof. apply flat_map_app. Qed.

Lemma writes_none (l : list (entry GUI.effect)) :
  Forall (fun en => not_a_write en = true) l -> writes l = [].
Proof.
  induction 1 as [|en l Hen Hl IH]; [reflexivity|].
  cbn [writes flat_map]. fold (writes l). rewrite IH.
  destruct en as [[| | | |]|]; try reflexivity. discriminate.
Qed.

Lemma never_callbacks (total i : nat) :
  (forall n, GUI.is_cancelled self n = false) ->
  never_cancelled (GUI.callbacks_of self total i).
Proof.
  intros H c Hc. simpl in Hc. injection Hc as <-. exact H.
Qed.

Lemma never_silent :
  never_cancelled (mkCallbacks None None None : Callbacks unit).
Proof. intros c H. discriminate. Qed.

(** The volumes the loop of a worker that is not cancelled writes. *)
Lemma run_loop_writes (sources : list text) :
  (forall n, GUI.is_cancelled self n = false) ->
  forall total i tr oe tr',
    GUI.run_loop w self total i sources tr = (oe, tr') ->
    exists ws,
      writes (entries tr') = writes (entries tr) ++ ws
      /\ (exists rest, outputs_of w self sources = ws ++ rest)
      /\ (oe = None -> ws = outputs_of w self sources).
Proof.
  intros never.
  induction sources as [|source rest IH]; intros total i tr oe tr';
    cbn [GUI.run_loop].
  - intros H. injection H as <- <-. exists [].
    rewrite app_nil_r. split; [reflexivity|].
    split; [exists []; reflexivity|reflexivity].
  - rewrite never. set (tr2 := GUI.emit _ _).
    assert (W2 : writes (entries tr2) = writes (entries tr)).
    { subst tr2. simpl. rewrite !writes_app. simpl.
      rewrite !app_nil_r. reflexivity. }
    pose proof (load_worker w self total i (files_of self source) tr2) as HL.
    cbv zeta in HL.
    pose proof (load_deterministic GUI.effect unit w (GUI.emd_dir self)
                  (GUI.callbacks_of self total i)
                  (mkCallbacks None None None)
                  (never_callbacks total i never) never_silent
                  (files_of self source) tr2 (mkTrace [] 0)) as HD.
    fold (assembled w (GUI.emd_dir self) (files_of self source)) in HD.
    cbn [outputs_of flat_map]. fold (outputs_of w self rest).
    unfold files_of in HL, HD at 1.
    destruct (load_images_sorted_by_alpha _ _ _ _ tr2) as [r tr3].
    destruct HL as [new [E3 [_ [F3 _]]]]. cbn [fst snd] in E3, HD.
    rewrite <- HD.
    assert (W3 : writes (entries tr3) = writes (entries tr)).
    { rewrite E3, writes_app, W2.
      rewrite (writes_none new (from_assembler_not_a_write new F3)).
      apply app_nil_r. }
    destruct r as [[stack|]|e].
    + fold (out_path_of self source).
      destruct (write_mrc w stack (out_path_of self source)) as [u|e].
      * intros H. apply IH in H. destruct H as [ws [H1 [[rest' H2] H3]]].
        exists ((out_path_of self source, stack) :: ws).
        split; [|split].
        -- rewrite H1. simpl. rewrite !writes_app, W3. simpl.
           rewrite <- !app_assoc. reflexivity.
        -- exists rest'. simpl. rewrite H2. reflexivity.
        -- intros Hoe. simpl. rewrite (H3 Hoe). reflexivity.
      * intros H. injection H as <- <-. exists [].
        rewrite app_nil_r. split; [exact W3|].
        split; [eexists; reflexivity|discriminate].
    + intros H. apply IH in H. destruct H as [ws [H1 [[rest' H2] H3]]].
      exists ws. split; [|split].
      * rewrite H1. simpl. rewrite writes_app, W3. simpl.
        rewrite app_nil_r. reflexivity.
      * exists rest'. exact H2.
      * exact H3.
    + intros H. injection H as <- <-. exists [].
      rewrite app_nil_r. split; [exact W3|].
      split; [eexists; reflexivity|discriminate].
Qed.

End OutputFacts.

(** X11. A worker that is not cancelled writes, in the order of the
    selection, the volume of each selected source whose images assemble to
    one, in the file [<source with underscores for spaces>.mrc] of the
    output directory, and nothing else: the volumes written are a prefix of
    that list, and the whole list when the run ends with [finished]. A
    source the mapping does not hold has no images and no file. *)
Theorem worker_writes_one_volume_per_source :
  forall (w : World) (self : GUI.Worker),
    (forall n, GUI.is_cancelled self n = false) ->
    (exists rest,
        outputs_of w self (GUI.selected_sources self)
        = writes (entries (GUI.run w self)) ++ rest)
    /\ (In (Emitted GUI.finished) (entries (GUI.run w self)) ->
        writes (entries (GUI.run w self))
        = outputs_of w self (GUI.selected_sources self))
    /\ (forall source,
           get (GUI.groups self) source = None ->
           outputs_of w self [source] = []).
Proof.
  intros w self never.
  assert (Hmissing : forall source,
             get (GUI.groups self) source = None ->
             outputs_of w self [source] = []).
  { intros source Hs. unfold outputs_of. cbn [flat_map].
    unfold files_of. rewrite Hs. reflexivity. }
  rewrite <- and_assoc. split; [|exact Hmissing]. clear Hmissing.
  unfold GUI.run.
  destruct (length (GUI.selected_sources self) =? 0) eqn:E0.
  - apply Nat.eqb_eq in E0.
    destruct (GUI.selected_sources self); [|discriminate].
    split; [exists []; reflexivity|reflexivity].
  - destruct (GUI.run_loop w self _ 0 _ _) as [oe tr] eqn:Hrun.
    pose proof (run_loop_no_terminal w self _ _ _ _ _ _ Hrun
                  (Forall_nil _)) as HT.
    apply (run_loop_writes w self _ never) in Hrun.
    destruct Hrun as [ws [H1 [H2 H3]]]. simpl in H1.
    destruct oe as [e|].
    + simpl. rewrite writes_app, H1. simpl. rewrite app_nil_r.
      split; [exact H2|].
      intros Hin. apply in_app_or in Hin.
      destruct Hin as [Hin|[Hin|[]]]; [|discriminate].
      rewrite Forall_forall in HT. apply HT in Hin. discriminate.
    + simpl. rewrite !writes_app, H1. simpl. rewrite !app_nil_r.
      rewrite (H3 eq_refl). split; [exists []; symmetry; apply app_nil_r|reflexivity].
Qed.

Lemma worker_writes_one_volume_per_source_witness :
  writes (entries (GUI.run Examples.tilt_world Examples.worker_foo))
  = [(child (parse_path (t "mrc_output")) (t "Foo.mrc"),
      [Examples.pixel 2; Examples.pixel 3; Examples.pixel 1])].
Proof.
  apply (proj1 (proj2 (worker_writes_one_volume_per_source
                         Examples.tilt_world Examples.worker_foo
                         (fun n => eq_refl)))).
  vm_compute. repeat (first [left; reflexivity | right]).
Defined.

(* ===================================================================== *)
(** * The signals of the worker                                         *)
(* ===================================================================== *)

Section ProtocolFacts.
Variable w : World.
Variable self : GUI.Worker.

(** With a flag that stays set, a loop in which a poll is answered true
    ends without an exception. *)
Lemma run_loop_cancelled_ends (sources : list text) :
  monotone (GUI.is_cancelled self) ->
  forall total i tr oe tr',
    GUI.run_loop w self total i sources tr = (oe, tr') ->
    (In (Polled true) (entries tr) ->
     exists j, j < polls tr /\ GUI.is_cancelled self j = true) ->
    In (Polled true) (entries tr') -> oe = None.
Proof.
  intros Hmono.
  induction sources as [|source rest IH]; intros total i tr oe tr';
    cbn [GUI.run_loop].
  - intros H. injection H as <- <-. reflexivity.
  - destruct (GUI.is_cancelled self (polls tr)) eqn:Hc.
    + intros H. injection H as <- <-. reflexivity.
    + intros H J.
      assert (Q : ~ In (Polled true) (entries tr)).
      { intros Hin. destruct (J Hin) as [j [Hj Hb]].
        rewrite (Hmono j (polls tr)) in Hc; [discriminate|lia|exact Hb]. }
      revert H. set (tr2 := GUI.emit _ _).
      assert (Q2 : ~ In (Polled true) (entries tr2)).
      { subst tr2. simpl. intros Hin.
        apply in_app_or in Hin. destruct Hin as [Hin|[Hin|[]]];
          [|discriminate].
        apply in_app_or in Hin. destruct Hin as [Hin|[Hin|[]]];
          [contradiction|discriminate]. }
      pose proof (load_worker w self total i
                    match get (GUI.groups self) source with
                    | Some l => l
                    | None => []
                    end tr2) as HL.
      cbv zeta in HL.
      destruct (load_images_sorted_by_alpha _ _ _ _ tr2) as [r tr3].
      destruct HL as [new [E3 [L3 [F3 H3]]]]. simpl in E3, L3, H3.
      assert (J3 : In (Polled true) (entries tr3) ->
                   r = Ok None
                   /\ exists j, j < polls tr3
                                /\ GUI.is_cancelled self j = true).
      { rewrite E3. intros Hin. apply in_app_or in Hin.
        destruct Hin as [Hin|Hin]; [contradiction|].
        apply H3. exact Hin. }
      destruct r as [[stack|]|e].
      * assert (Q3 : ~ In (Polled true) (entries tr3)).
        { intros Hin. destruct (J3 Hin) as [Hr _]. discriminate. }
        destruct (write_mrc w stack _) as [u|e].
        -- intros H Hfin. eapply IH; [exact H| |exact Hfin].
           simpl. intros Hin.
           apply in_app_or in Hin. destruct Hin as [Hin|[Hin|[]]];
             [|discriminate].
           apply in_app_or in Hin. destruct Hin as [Hin|[Hin|[]]];
             [contradiction|discriminate].
        -- intros H. injection H as <- <-. intros Hin. contradiction.
      * intros H Hfin. eapply IH; [exact H| |exact Hfin].
        simpl. intros Hin.
        apply in_app_or in Hin. destruct Hin as [Hin|[Hin|[]]];
          [|discriminate].
        apply J3. exact Hin.
      * intros H. injection H as <- <-. intros Hin.
        destruct (J3 Hin) as [Hr _]. discriminate.
Qed.

(** A run ends with one signal, [finished] after a last progress of 100 or
    [error], and emits neither before. *)
Lemma run_terminal (self0 : GUI.Worker) :
  exists pre last,
    entries (GUI.run w self0) = pre ++ [Emitted last]
    /\ (last = GUI.finished
        /\ (exists pre', pre = pre' ++ [Emitted (GUI.progress 100)])
        \/ exists msg, last = GUI.error msg)
    /\ Forall (fun en => is_terminal en = false) pre.
Proof.
  unfold GUI.run.
  destruct (length (GUI.selected_sources self0) =? 0).
  - exists [], (GUI.error (t "No data sources selected.")).
    split; [reflexivity|]. split; [right; eexists; reflexivity|constructor].
  - destruct (GUI.run_loop w self0 _ 0 _ _) as [oe tr] eqn:Hrun.
    pose proof (run_loop_no_terminal w self0 _ _ _ _ _ _ Hrun
                  (Forall_nil _)) as HT.
    destruct oe as [e|].
    + exists (entries tr), (GUI.error (repr_exn e)).
      split; [reflexivity|]. split; [right; eexists; reflexivity|exact HT].
    + exists (entries tr ++ [Emitted (GUI.progress 100)]), GUI.finished.
      split; [reflexivity|]. split.
      * left. split; [reflexivity|]. eexists. reflexivity.
      * apply Forall_app. split; [exact HT|]. repeat constructor.
Qed.

End ProtocolFacts.

(** X12. Every run of the worker ends with one signal, [finished] or
    [error], and emits neither before; [finished] comes right after a
    progress of 100. *)
Theorem run_ends_with_one_signal :
  forall (w : World) (self : GUI.Worker),
  exists pre last,
    entries (GUI.run w self) = pre ++ [Emitted last]
    /\ (last = GUI.finished
        /\ (exists pre', pre = pre' ++ [Emitted (GUI.progress 100)])
        \/ exists msg, last = GUI.error msg)
    /\ Forall (fun en => is_terminal en = false) pre.
Proof.
  intros w self. apply run_terminal.
Qed.

Section AfterCancel.
Variable w : World.
Variable self : GUI.Worker.
Hypothesis Hmono : monotone (GUI.is_cancelled self).

Lemma first_occurrence (A : Type) (x : A) (l1 r1 l2 r2 : list A) :
  l1 ++ x :: r1 = l2 ++ x :: r2 -> ~ In x l1 -> ~ In x l2 ->
  l1 = l2 /\ r1 = r2.
Proof.
  revert l2. induction l1 as [|a l1 IH]; intros [|b l2] H H1 H2.
  - injection H as H. split; [reflexivity|exact H].
  - injection H as <- _. exfalso. apply H2. left. reflexivity.
  - injection H as -> _. exfalso. apply H1. left. reflexivity.
  - injection H as <- H. destruct (IH l2 H) as [-> ->].
    + intros Hin. apply H1. right. exact Hin.
    + intros Hin. apply H2. right. exact Hin.
    + split; reflexivity.
Qed.

Lemma true_poll_dec (E : Type) (l : list (entry E)) :
  In (Polled true) l \/ ~ In (Polled true) l.
Proof.
  induction l as [|en l IH]; [right; intros []|].
  destruct en as [e|[|]].
  - destruct IH as [IH|IH]; [left; right; exact IH|].
    right. intros [H|H]; [discriminate|contradiction].
  - left. left. reflexivity.
  - destruct IH as [IH|IH]; [left; right; exact IH|].
    right. intros [H|H]; [discriminate|contradiction].
Qed.

Lemma run_loop_after_cancel (sources : list text) :
  forall total i tr oe tr' pre post,
    GUI.run_loop w self total i sources tr = (oe, tr') ->
    ~ In (Polled true) (entries tr) ->
    entries tr' = pre ++ Polled true :: post ->
    ~ In (Polled true) pre ->
    In post after_cancellation.
Proof.
  induction sources as [|source rest IH];
    intros total i tr oe tr' pre post; cbn [GUI.run_loop].
  - intros H Q E Hpre. injection H as <- <-. exfalso. apply Q.
    rewrite E. apply in_or_app. right. left. reflexivity.
  - destruct (GUI.is_cancelled self (polls tr)) eqn:Hc.
    + intros H Q E Hpre. injection H as <- <-. cbn in E.
      rewrite <- app_assoc in E. cbn [app] in E.
      destruct (first_occurrence _ _ _ _ _ _ E Q Hpre) as [_ <-].
      left. reflexivity.
    + set (tr2 := GUI.emit _ _).
      assert (Q2 : ~ In (Polled true) (entries tr) ->
                   ~ In (Polled true) (entries tr2)).
      { subst tr2. simpl. intros Q Hin.
        apply in_app_or in Hin. destruct Hin as [Hin|[Hin|[]]];
          [|discriminate].
        apply in_app_or in Hin. destruct Hin as [Hin|[Hin|[]]];
          [contradiction|discriminate]. }
      destruct (load_shape GUI.effect w (GUI.emd_dir self)
                  (GUI.callbacks_of self total i)
                  match get (GUI.groups self) source with
                  | Some l => l
                  | None => []
                  end tr2) as [new [E3 [G3 H3]]].
      destruct (load_images_sorted_by_alpha _ _ _ _ tr2) as [r tr3].
      cbn [fst snd] in E3, G3, H3.
      destruct r as [[stack|]|e].
      * assert (Q3 : ~ In (Polled true) (entries tr) ->
                     ~ In (Polled true) (entries tr3)).
        { intros Q. rewrite E3. intros Hin. apply in_app_or in Hin.
          destruct Hin as [Hin|Hin]; [apply (Q2 Q Hin)|].
          destruct (H3 Hin) as [Hr _]. discriminate. }
        destruct (write_mrc w stack _) as [u|e].
        -- intros H Q. apply (IH _ _ _ _ _ _ _ H).
           simpl. intros Hin.
           apply in_app_or in Hin. destruct Hin as [Hin|[Hin|[]]];
             [|discriminate].
           apply in_app_or in Hin. destruct Hin as [Hin|[Hin|[]]];
             [apply (Q3 Q Hin)|discriminate].
        -- intros H Q E Hpre. injection H as <- <-. exfalso.
           apply (Q3 Q). rewrite E. apply in_or_app. right. left.
           reflexivity.
      * destruct (true_poll_dec _ new) as [Hin|Hnin].
        -- destruct (H3 Hin) as [_ [mid [-> Hmid]]].
           destruct (generated_polled _ _ _ _ _ _ G3 Hin)
             as [c [j [Hcj [Hj Hb]]]].
           cbn in Hcj. injection Hcj as <-.
           assert (Hnext : GUI.is_cancelled self (polls tr3) = true)
             by (apply (Hmono j); [lia|exact Hb]).
           intros H Q E Hpre.
           assert (Hp : ~ In (Polled true) (entries tr2 ++ mid)).
           { intros Hx. apply in_app_or in Hx.
             destruct Hx as [Hx|Hx]; [apply (Q2 Q Hx)|contradiction]. }
           destruct rest as [|source' rest'].
           ++ cbn [GUI.run_loop] in H. injection H as <- <-.
              cbn in E. rewrite E3 in E.
              rewrite app_assoc, <- app_assoc in E. cbn [app] in E.
              destruct (first_occurrence _ _ _ _ _ _ E Hp Hpre) as [_ <-].
              right. right. left. reflexivity.
           ++ cbn [GUI.run_loop] in H. cbn [GUI.emit polls] in H.
              rewrite Hnext in H. injection H as <- <-.
              cbn in E. rewrite E3 in E.
              rewrite (app_assoc (entries tr2)) in E.
              rewrite <- !app_assoc in E. cbn [app] in E.
              rewrite app_assoc in E.
              destruct (first_occurrence _ _ _ _ _ _ E Hp Hpre) as [_ <-].
              right. left. reflexivity.
        -- intros H Q. apply (IH _ _ _ _ _ _ _ H).
           simpl. intros Hin.
           apply in_app_or in Hin. destruct Hin as [Hin|[Hin|[]]];
             [|discriminate].
           rewrite E3 in Hin. apply in_app_or in Hin.
           destruct Hin as [Hin|Hin]; [apply (Q2 Q Hin)|contradiction].
      * intros H Q E Hpre. injection H as <- <-. exfalso.
        assert (Hin : In (Polled true) (entries tr2 ++ new)).
        { rewrite <- E3, E. apply in_or_app. right. left. reflexivity. }
        apply in_app_or in Hin. destruct Hin as [Hin|Hin];
          [apply (Q2 Q Hin)|].
        destruct (H3 Hin) as [Hr _]. discriminate.
Qed.

End AfterCancel.

Section FirstPoll.

Lemma first_true_poll (E : Type) (l : list (entry E)) :
  In (Polled true) l ->
  exists l1 l2, l = l1 ++ Polled true :: l2 /\ ~ In (Polled true) l1.
Proof.
  induction l as [|en l IH]; intros Hin; [contradiction|].
  destruct en as [e|[|]].
  - destruct Hin as [Hin|Hin]; [discriminate|].
    destruct (IH Hin) as [l1 [l2 [-> H1]]].
    exists (Emitted e :: l1), l2. split; [reflexivity|].
    intros [H|H]; [discriminate|contradiction].
  - exists [], l. split; [reflexivity|intros []].
  - destruct Hin as [Hin|Hin]; [discriminate|].
    destruct (IH Hin) as [l1 [l2 [-> H1]]].
    exists (Polled false :: l1), l2. split; [reflexivity|].
    intros [H|H]; [discriminate|contradiction].
Qed.

End FirstPoll.

(** X13. After the first poll that is answered true, a run of the worker
    whose flag stays set processes nothing more and ends like a run that
    completes, with the progress 100 and [finished] and without an
    [error]. Before these two signals it only logs: "Cancelled." when the
    poll was the one at the head of the loop; and when the poll was one of
    the assembler, "Invalid data source, skipping." for the source that
    was being assembled, followed, if a source is left, by the poll at the
    head of the loop and "Cancelled.". *)
Theorem cancelled_run_ends_as_finished :
  forall (w : World) (self : GUI.Worker)
         (pre post : list (entry GUI.effect)),
    monotone (GUI.is_cancelled self) ->
    entries (GUI.run w self) = pre ++ Polled true :: post ->
    ~ In (Polled true) pre ->
    exists tail,
      In tail after_cancellation
      /\ post = tail ++ [Emitted (GUI.progress 100); Emitted GUI.finished].
Proof.
  intros w self pre post Hmono. unfold GUI.run.
  destruct (length (GUI.selected_sources self) =? 0).
  - simpl. intros E _. exfalso.
    assert (Hin : In (Polled true)
                     [Emitted (GUI.error (t "No data sources selected."))])
      by (rewrite E; apply in_or_app; right; left; reflexivity).
    destruct Hin as [Hin|[]]. discriminate.
  - destruct (GUI.run_loop w self _ 0 _ _) as [oe tr] eqn:Hrun.
    intros E Hpre.
    assert (Htr : In (Polled true) (entries tr)).
    { assert (Hin : In (Polled true)
                       (match oe with
                        | Some e =>
                            entries (GUI.emit (GUI.error (repr_exn e)) tr)
                        | None =>
                            entries (GUI.emit GUI.finished
                                       (GUI.emit (GUI.progress 100) tr))
                        end)).
      { destruct oe; rewrite E; apply in_or_app; right; left; reflexivity. }
      destruct oe; simpl in Hin.
      - apply in_app_or in Hin. destruct Hin as [Hin|[Hin|[]]];
          [exact Hin|discriminate].
      - apply in_app_or in Hin. destruct Hin as [Hin|[Hin|[]]];
          [|discriminate].
        apply in_app_or in Hin. destruct Hin as [Hin|[Hin|[]]];
          [exact Hin|discriminate]. }
    assert (Hoe : oe = None).
    { apply (run_loop_cancelled_ends w self _ Hmono _ _ _ _ _ Hrun);
        [intros []|exact Htr]. }
    subst oe. simpl in E.
    destruct (first_true_poll _ _ Htr) as [l1 [l2 [E1 H1]]].
    rewrite E1 in E. rewrite <- !app_assoc in E. cbn [app] in E.
    destruct (first_occurrence _ _ _ _ _ _ E H1 Hpre) as [_ <-].
    exists l2. split; [|reflexivity].
    eapply (run_loop_after_cancel w self Hmono);
      [exact Hrun|intros []|exact E1|exact H1].
Qed.

Lemma cancelled_run_ends_as_finished_witness :
  exists tail,
    In tail after_cancellation
    /\ skipn 7 (entries (GUI.run Examples.tilt_world
                           Examples.worker_cancelled))
       = tail ++ [Emitted (GUI.progress 100); Emitted GUI.finished].
Proof.
  apply (cancelled_run_ends_as_finished Examples.tilt_world
           Examples.worker_cancelled
           (firstn 6 (entries (GUI.run Examples.tilt_world
                                 Examples.worker_cancelled)))).
  - intros i j Hij Hi.
    change (GUI.is_cancelled Examples.worker_cancelled)
      with (fun n => 3 <=? n) in *.
    apply Nat.leb_le. apply Nat.leb_le in Hi. lia.
  - vm_compute. reflexivity.
  - vm_compute. intros H.
    repeat (destruct H as [H|H]; [discriminate|]). exact H.
Defined.

Section OutputNames.

Lemma split_slash_parts (s cur : text) :
  no_slash cur -> Forall no_slash (split_slash cur s).
Proof.
  revert cur. induction s as [|c s IH]; intros cur H; cbn [split_slash].
  - constructor; [|constructor]. intros Hin. apply H.
    apply in_rev. exact Hin.
  - destruct (char_eqb c slash) eqn:E.
    + constructor; [|apply IH; intros []].
      intros Hin. apply H. apply in_rev. exact Hin.
    + apply IH. intros [Hc|Hin]; [|apply H; exact Hin].
      subst c. rewrite char_eqb_refl in E. discriminate.
Qed.

(** No slash in the name of a path. *)
Lemma name_no_slash (s : text) : no_slash (name (parse_path s)).
Proof.
  unfold name, parse_path, parse_parts. cbn [parts].
  assert (H : Forall no_slash
                (filter (fun x => negb (text_eqb x [])
                                  && negb (text_eqb x [dot]))
                        (split_slash [] s))).
  { apply Forall_forall. intros x Hx. apply filter_In in Hx.
    destruct Hx as [Hx _].
    pose proof (split_slash_parts s [] (fun H => H)) as HF.
    rewrite Forall_forall in HF. apply HF. exact Hx. }
  destruct (filter _ (split_slash [] s)) as [|x l] eqn:E; [intros []|].
  rewrite <- E in *. apply (last_Forall _ no_slash _ []) in H; [exact H|].
  rewrite E. discriminate.
Qed.

(** No slash in a source identifier. *)
Lemma extract_source_no_slash (filename : text) :
  no_slash (extract_source_from_filename filename).
Proof.
  unfold extract_source_from_filename, last_item.
  destruct (split (stem (parse_path filename))) as [|x l] eqn:E;
    [intros []|].
  intros Hin. apply (name_no_slash filename).
  apply stem_chars.
  apply (split_chars _ (last (x :: l) [])); [|exact Hin].
  rewrite E.
  destruct (exists_last (l := x :: l) ltac:(discriminate)) as [l' [y Hy]].
  rewrite Hy, last_last. apply in_or_app. right. left. reflexivity.
Qed.

End OutputNames.

(** X14. Two images whose sources differ never share an output file: on
    the identifiers the classifier returns, the name of the output file
    determines the source. *)
Theorem sources_have_output_files_of_their_own :
  forall (self : GUI.Worker) (filename1 filename2 : text),
    out_path_of self (extract_source_from_filename filename1)
    = out_path_of self (extract_source_from_filename filename2) ->
    extract_source_from_filename filename1
    = extract_source_from_filename filename2.
Proof.
  intros self f1 f2. unfold out_path_of.
  assert (Hid : forall f,
             replace space underscore (extract_source_from_filename f)
             = extract_source_from_filename f).
  { intros f. apply replace_id.
    eapply Forall_impl; [|apply extract_source_no_space].
    intros c Hc ->. discriminate. }
  assert (Hentry : forall f,
             joinpath (GUI.output_dir self)
                      (extract_source_from_filename f ++ t ".mrc")
             = child (GUI.output_dir self)
                     (extract_source_from_filename f ++ t ".mrc")).
  { intros f. apply joinpath_entry.
    - intros Hin. apply in_app_or in Hin. destruct Hin as [Hin|Hin].
      + apply (extract_source_no_slash f). exact Hin.
      + simpl in Hin.
        repeat (destruct Hin as [Hin|Hin]; [discriminate|]). exact Hin.
    - destruct (extract_source_from_filename f); discriminate.
    - destruct (extract_source_from_filename f) as [|c [|d l]]; discriminate. }
  rewrite !Hid, !Hentry. intros H. apply child_inj in H.
  apply app_inv_tail in H. exact H.
Qed.

Lemma sources_have_output_files_of_their_own_witness :
  extract_source_from_filename (t "t1 Foo.png")
  = extract_source_from_filename (t "t2 Foo.tif").
Proof.
  apply (sources_have_output_files_of_their_own Examples.worker_foo).
  reflexivity.
Defined.

(* ===================================================================== *)
(** * The progress reports                                              *)
(* ===================================================================== *)

Section ProgressFacts.
Local Open Scope Z_scope.

Lemma progress_cb_range (total_sources i : nat) (p : Z) :
  (i < total_sources)%nat -> 0 <= p < 2 ^ 12 ->
  is_percentage (Emitted (GUI.progress_cb_of total_sources i p)).
Proof.
  intros Hi Hp. unfold GUI.progress_cb_of. cbv zeta. cbn [is_percentage].
  set (span := percent 1 (Z.of_nat total_sources) 100).
  assert (Hbase : 0 <= percent (Z.of_nat i) (Z.of_nat total_sources) 100
                  < 2 ^ (1 + 7 + 3))
    by (apply (percent_int (Z.of_nat i) (Z.of_nat total_sources) 100 1 7);
        pow_bound).
  assert (Hspan : 0 <= span < 2 ^ (1 + 7 + 3))
    by (apply (percent_int 1 (Z.of_nat total_sources) 100 1 7); pow_bound).
  change (1 + 7 + 3) with 11 in Hspan.
  assert (Hs : small (6 + 11 + 3) (mul (truediv p 100) (float_of_Z span))).
  { change (2 ^ 12) with 4096 in Hp.
    apply percent_small; first [lia | change (2 ^ 6) with 64; lia]. }
  apply trunc_small in Hs; lia.
Qed.

Section Reports.
Variable E : Type.
Variable w : World.
Variable emd_dir : Path.
Variable cb : Callbacks E.

Lemma poll_reports (tr : Trace E) (lo hi : Z) :
  exists new,
    entries (snd (poll cb tr)) = entries tr ++ new
    /\ Forall (reports_within cb lo hi) new.
Proof.
  unfold poll. destruct (cancel_flag cb) as [c|].
  - eexists. split; [reflexivity|]. repeat constructor.
  - exists []. rewrite app_nil_r. split; [reflexivity|constructor].
Qed.

Lemma emit_log_reports (s : text) (tr : Trace E) (lo hi : Z) :
  exists new,
    entries (emit_log cb s tr) = entries tr ++ new
    /\ Forall (reports_within cb lo hi) new.
Proof.
  unfold emit_log. destruct (log_cb cb) as [f|] eqn:Hf.
  - eexists. split; [reflexivity|]. constructor; [|constructor].
    left. exists f, s. split; [exact Hf|reflexivity].
  - exists []. rewrite app_nil_r. split; [reflexivity|constructor].
Qed.

Lemma emit_progress_reports (p : Z) (tr : Trace E) (lo hi : Z) :
  lo <= p < hi ->
  exists new,
    entries (emit_progress cb p tr) = entries tr ++ new
    /\ Forall (reports_within cb lo hi) new.
Proof.
  intros Hp. unfold emit_progress. destruct (progress_cb cb) as [g|] eqn:Hg.
  - eexists. split; [reflexivity|]. constructor; [|constructor].
    right. exists g, p. split; [exact Hg|]. split; [reflexivity|exact Hp].
  - exists []. rewrite app_nil_r. split; [reflexivity|constructor].
Qed.

Lemma reports_step (tr tr1 tr2 : Trace E) (n1 : list (entry E))
      (lo hi : Z) :
  entries tr1 = entries tr ++ n1 -> Forall (reports_within cb lo hi) n1 ->
  (exists n2, entries tr2 = entries tr1 ++ n2
              /\ Forall (reports_within cb lo hi) n2) ->
  exists new, entries tr2 = entries tr ++ new
              /\ Forall (reports_within cb lo hi) new.
Proof.
  intros E1 F1 [m [E2 F2]]. exists (n1 ++ m).
  split; [rewrite E2, E1, <- app_assoc; reflexivity|].
  apply Forall_app. split; assumption.
Qed.

(** The first loop reports values that [int] gives without raising, from 0
    up. *)
Lemma collect_reports (files : list Path) :
  forall total idx records tr,
    (idx + length files <= total)%nat ->
    exists new,
      entries (snd (collect w emd_dir cb total idx files records tr))
      = entries tr ++ new
      /\ Forall (reports_within cb 0 (2 ^ 12)) new.
Proof.
  induction files as [|img rest IH]; intros total idx records tr Hidx;
    cbn [collect].
  - exists []. rewrite app_nil_r. split; [reflexivity|constructor].
  - destruct (poll_reports tr 0 (2 ^ 12)) as [n1 [E1 F1]].
    destruct (poll cb tr) as [c tr1]. cbn [snd] in E1.
    cbn [length] in Hidx.
    destruct c; [exists n1; split; assumption|].
    destruct (find_matching_emd w img emd_dir) as [emd_path|].
    + destruct (extract_alpha_tilt_from_emd w emd_path) as [[alpha|]|e].
      * destruct (emit_progress_reports
                    (percent (Z.of_nat idx + 1)
                             (Z.max (Z.of_nat total) 1) 50) tr1 0 (2 ^ 12))
          as [n2 [E2 F2]].
        { pose proof (percent_of_count idx total 50 ltac:(lia) ltac:(lia))
            as [_ H].
          change (Z.of_nat 50) with 50 in H.
          change (2 ^ 11) with 2048 in H. change (2 ^ 12) with 4096. lia. }
        eapply (reports_step tr tr1 _ n1 0 (2 ^ 12));
          [exact E1|exact F1|].
        eapply (reports_step tr1 _ _ n2 0 (2 ^ 12));
          [exact E2|exact F2|].
        apply IH. lia.
      * destruct (emit_log_reports
                    (warning_sign ++ t " AlphaTilt not found for: "
                                  ++ name emd_path) tr1 0 (2 ^ 12))
          as [n2 [E2 F2]].
        eapply (reports_step tr tr1 _ n1 0 (2 ^ 12));
          [exact E1|exact F1|].
        eapply (reports_step tr1 _ _ n2 0 (2 ^ 12));
          [exact E2|exact F2|].
        apply IH. lia.
      * exists n1. split; assumption.
    + destruct (emit_log_reports
                  (warning_sign ++ t " EMD not found for: " ++ name img)
                  tr1 0 (2 ^ 12))
        as [n2 [E2 F2]].
      eapply (reports_step tr tr1 _ n1 0 (2 ^ 12));
        [exact E1|exact F1|].
      eapply (reports_step tr1 _ _ n2 0 (2 ^ 12));
        [exact E2|exact F2|].
      apply IH. lia.
Qed.

Lemma stack_loop_reports (records : list (float * Path)) :
  forall n j stack tr,
    (j + length records <= n)%nat ->
    exists new,
      entries (snd (stack_loop w cb n j records stack tr))
      = entries tr ++ new
      /\ Forall (reports_within cb 0 (2 ^ 12)) new.
Proof.
  induction records as [|[alpha img] rest IH]; intros n j stack tr Hj;
    cbn [stack_loop].
  - exists []. rewrite app_nil_r. split; [reflexivity|constructor].
  - destruct (poll_reports tr 0 (2 ^ 12)) as [n1 [E1 F1]].
    destruct (poll cb tr) as [c tr1]. cbn [snd] in E1.
    cbn [length] in Hj.
    destruct c; [exists n1; split; assumption|].
    destruct (image_open w img) as [im|e]; [|exists n1; split; assumption].
    destruct (emit_progress_reports
                (50 + percent (Z.of_nat j + 1)
                              (Z.max (Z.of_nat n) 1) 50) tr1 0 (2 ^ 12))
      as [n2 [E2 F2]].
    { pose proof (percent_of_count j n 50 ltac:(lia) ltac:(lia))
        as [_ H].
      change (Z.of_nat 50) with 50 in H.
      change (2 ^ 11) with 2048 in H. change (2 ^ 12) with 4096. lia. }
    eapply (reports_step tr tr1 _ n1 0 (2 ^ 12));
      [exact E1|exact F1|].
    eapply (reports_step tr1 _ _ n2 0 (2 ^ 12));
      [exact E2|exact F2|].
    apply IH. lia.
Qed.

Lemma load_reports (files : list Path) (tr : Trace E) :
  exists new,
    entries (snd (load_images_sorted_by_alpha w emd_dir cb files tr))
    = entries tr ++ new
    /\ Forall (reports_within cb 0 (2 ^ 12)) new.
Proof.
  unfold load_images_sorted_by_alpha.
  destruct (collect_reports files (length files) 0 [] tr (le_n _))
    as [n1 [E1 F1]].
  destruct (collect w emd_dir cb _ 0 files [] tr) as [out tr1].
  cbn [snd] in E1.
  destruct out as [records| |e];
    [|exists n1; split; assumption|exists n1; split; assumption].
  destruct records as [|r records]; [exists n1; split; assumption|].
  set (sorted := sort ltb (@fst float Path) (r :: records)).
  destruct (stack_loop_reports sorted (length sorted) 0 [] tr1 (le_n _))
    as [n2 [E2 F2]].
  destruct (stack_loop w cb _ 0 sorted [] tr1) as [res tr2].
  cbn [snd] in E2.
  assert (H : exists new, entries tr2 = entries tr ++ new
                          /\ Forall (reports_within cb 0 (2 ^ 12)) new).
  { exists (n1 ++ n2). split; [rewrite E2, E1, <- app_assoc; reflexivity|].
    apply Forall_app. split; assumption. }
  destruct res as [[stack|]|e]; [|exact H|exact H].
  destruct (np_stack stack); exact H.
Qed.

End Reports.

Lemma run_loop_percentages (w : World) (self : GUI.Worker)
      (sources : list text) :
  forall total i tr oe tr',
    (i + length sources <= total)%nat ->
    GUI.run_loop w self total i sources tr = (oe, tr') ->
    Forall is_percentage (entries tr) ->
    Forall is_percentage (entries tr').
Proof.
  induction sources as [|source rest IH]; intros total i tr oe tr' Hi;
    cbn [GUI.run_loop].
  - intros H. injection H as <- <-. tauto.
  - cbn [length] in Hi.
    destruct (GUI.is_cancelled self (polls tr)).
    + intros H. injection H as <- <-. intros T. simpl.
      rewrite <- app_assoc. apply Forall_app. split; [exact T|].
      repeat constructor.
    + set (tr2 := GUI.emit _ _).
      destruct (load_reports GUI.effect w (GUI.emd_dir self)
                  (GUI.callbacks_of self total i)
                  match get (GUI.groups self) source with
                  | Some l => l
                  | None => []
                  end tr2) as [new [E3 F3]].
      destruct (load_images_sorted_by_alpha _ _ _ _ tr2) as [r tr3].
      cbn [snd] in E3.
      assert (T3 : Forall is_percentage (entries tr) ->
                   Forall is_percentage (entries tr3)).
      { intros T. rewrite E3. subst tr2. simpl. rewrite <- !app_assoc.
        apply Forall_app. split; [exact T|].
        constructor; [exact I|]. constructor; [exact I|].
        eapply Forall_impl; [|exact F3].
        intros [e|b]; [|intros _; exact I].
        intros [[f [s [Hf ->]]]|[g [p [Hg [-> Hp]]]]].
        - simpl in Hf. injection Hf as <-. exact I.
        - simpl in Hg. injection Hg as <-.
          apply progress_cb_range; [lia|exact Hp]. }
      destruct r as [[stack|]|e].
      * destruct (write_mrc w stack _) as [u|e].
        -- intros H T. eapply IH; [|exact H|]; [lia|].
           simpl. rewrite <- app_assoc. apply Forall_app.
           split; [auto|]. repeat constructor.
        -- intros H. injection H as <- <-. exact T3.
      * intros H T. eapply IH; [|exact H|]; [lia|].
        simpl. apply Forall_app. split; [auto|]. repeat constructor.
      * intros H. injection H as <- <-. exact T3.
Qed.

End ProgressFacts.

(** X15. Every progress signal of a run of the worker carries a value
    between 0 and 100. *)
Theorem progress_signals_are_percentages :
  forall (w : World) (self : GUI.Worker) (v : Z),
    In (Emitted (GUI.progress v)) (entries (GUI.run w self)) ->
    (0 <= v <= 100)%Z.
Proof.
  intros w self v Hin.
  assert (H : Forall is_percentage (entries (GUI.run w self))).
  { unfold GUI.run.
    destruct (length (GUI.selected_sources self) =? 0).
    - repeat constructor.
    - destruct (GUI.run_loop w self _ 0 _ _) as [oe tr] eqn:Hrun.
      apply run_loop_percentages in Hrun; [|simpl; lia|constructor].
      destruct oe as [e|]; simpl.
      + apply Forall_app. split; [exact Hrun|]. repeat constructor.
      + rewrite <- app_assoc. apply Forall_app. split; [exact Hrun|].
        constructor; [simpl; lia|]. repeat constructor. }
  rewrite Forall_forall in H. apply (H _ Hin).
Qed.

Lemma progress_signals_are_percentages_witness : (0 <= 66 <= 100)%Z.
Proof.
  apply (progress_signals_are_percentages Examples.tilt_world
           Examples.worker_foo 66).
  vm_compute. repeat (first [left; reflexivity | right]).
Defined.

Section LastReport.
Variable E : Type.
Variable w : World.
Variable emd_dir : Path.
Variable cb : Callbacks E.
Variable g : Z -> E.
Hypothesis Hg : progress_cb cb = Some g.

(** A stacking loop that returns its arrays has reported 100 at last. *)
Lemma stack_loop_last_report (records : list (float * Path)) :
  forall n j stack tr stack' tr',
    records <> [] -> j + length records = n ->
    stack_loop w cb n j records stack tr = (Ok (Some stack'), tr') ->
    exists pre, entries tr' = pre ++ [Emitted (g 100)].
Proof.
  induction records as [|[alpha img] rest IH];
    intros n j stack tr stack' tr' Hne Hn; [contradiction|].
  cbn [stack_loop]. cbn [length] in Hn.
  destruct (poll cb tr) as [c tr1]. destruct c; [discriminate|].
  destruct (image_open w img) as [im|e]; [|discriminate].
  destruct rest as [|r rest].
  - cbn [stack_loop]. intros H. injection H as _ <-.
    unfold emit_progress. rewrite Hg. cbn [entries].
    exists (entries tr1). do 3 f_equal.
    cbn [length] in Hn.
    replace (Z.of_nat j + 1)%Z with (Z.of_nat n) by lia.
    replace (Z.max (Z.of_nat n) 1) with (Z.of_nat n) by lia.
    rewrite percent_full by lia. reflexivity.
  - intros H. apply IH in H; [exact H|discriminate|lia].
Qed.

End LastReport.

(** X16. When the assembler returns a volume, the last thing it did was to
    report the progress 100: [int(n / n * 50)] is 50 for every number [n]
    of slices. *)
Theorem assembly_ends_with_progress_100 :
  forall (E : Type) (w : World) (emd_dir : Path) (cb : Callbacks E)
         (g : Z -> E) (image_files : list Path) (tr tr' : Trace E)
         (v : Volume),
    progress_cb cb = Some g ->
    load_images_sorted_by_alpha w emd_dir cb image_files tr
    = (Ok (Some v), tr') ->
    exists pre, entries tr' = pre ++ [Emitted (g 100%Z)].
Proof.
  intros E w emd_dir cb g image_files tr tr' v Hg H.
  unfold load_images_sorted_by_alpha in H.
  destruct (collect w emd_dir cb _ 0 image_files [] tr) as [out tr1].
  destruct out as [records| |e]; try discriminate.
  destruct records as [|r records]; [discriminate|].
  set (sorted := sort ltb (@fst float Path) (r :: records)) in *.
  destruct (stack_loop w cb _ 0 sorted [] tr1) as [res tr2] eqn:Hl.
  destruct res as [[stack|]|e]; try discriminate.
  destruct (np_stack stack); [|discriminate].
  injection H as _ <-.
  apply (stack_loop_last_report E w cb g Hg) in Hl; [exact Hl| |reflexivity].
  intros Hs. apply (f_equal (@length _)) in Hs.
  pose proof (Permutation_length
                (sort_perm _ _ ltb (@fst float Path) (r :: records))) as Hp.
  fold sorted in Hp. rewrite Hs in Hp. discriminate.
Qed.

Lemma assembly_ends_with_progress_100_witness :
  exists pre,
    entries (snd (load_images_sorted_by_alpha Examples.tilt_world
                    Examples.data_dir
                    (mkCallbacks (Some GUI.log) (Some GUI.progress) None)
                    Examples.tilt_files (mkTrace [] 0)))
    = pre ++ [Emitted (GUI.progress 100)].
Proof.
  apply (assembly_ends_with_progress_100 GUI.effect Examples.tilt_world
           Examples.data_dir
           (mkCallbacks (Some GUI.log) (Some GUI.progress) None)
           GUI.progress Examples.tilt_files (mkTrace [] 0) _
           [Examples.pixel 2; Examples.pixel 3; Examples.pixel 1]).
  - reflexivity.
  - vm_compute. reflexivity.
Defined.

(* ===================================================================== *)
(** * The window                                                        *)
(* ===================================================================== *)

Import MainWindow.

Section WindowFacts.
Variable w : World.

Lemma fold_apply_ui_thread (calls : list GUI.ui) (win : Window) :
  let win' := fold_left apply_ui calls win in
  self_thread win' = self_thread win /\ self_worker win' = self_worker win
  /\ run_btn win' = run_btn win /\ scan_btn win' = scan_btn win
  /\ cancel_btn win' = cancel_btn win
  /\ self_groups win' = self_groups win.
Proof.
  revert win. induction calls as [|u calls IH]; intros win; cbn [fold_left].
  - repeat split.
  - destruct (IH (apply_ui win u)) as [H1 [H2 [H3 [H4 [H5 H6]]]]].
    cbv zeta. rewrite H1, H2, H3, H4, H5, H6.
    destruct u; repeat split.
Qed.

Lemma scan_sources_total (win : Window) :
  exists calls groups,
    GUI.scan_sources w (image_edit win) (self_groups win)
    = Ok (calls, groups)
    /\ scan_sources w win
       = Ok (fold_left apply_ui calls (set_groups groups win)).
Proof.
  unfold scan_sources.
  destruct (GUI.scan_sources w (image_edit win) (self_groups win))
    as [[calls groups]|e] eqn:E.
  - exists calls, groups. split; reflexivity.
  - unfold GUI.scan_sources in E.
    destruct (negb (path_exists w _)); discriminate.
Qed.

Lemma step_consistent (win : Window) (ev : event) :
  consistent win ->
  exists win', step w win ev = Ok win' /\ consistent win'.
Proof.
  intros C. destruct ev; cbn [step];
    try (eexists; split; [reflexivity|]; exact C).
  - eexists; split; [reflexivity|]. unfold browse_image.
    destruct d; exact C.
  - eexists; split; [reflexivity|]. unfold browse_emd.
    destruct d; exact C.
  - eexists; split; [reflexivity|]. unfold browse_out.
    destruct d; exact C.
  - destruct (scan_sources_total win) as [calls [groups [_ ->]]].
    eexists; split; [reflexivity|].
    destruct (fold_apply_ui_thread calls (set_groups groups win))
      as [H1 [H2 [H3 [H4 [H5 _]]]]].
    unfold consistent in *. rewrite H1, H2, H3, H4, H5. exact C.
  - unfold start. unfold consistent in C.
    destruct (self_thread win) as [th|] eqn:Et.
    + eexists; split; [reflexivity|]. unfold consistent. cbn.
      rewrite Et. exact C.
    + destruct (negb (path_exists w _)).
      { eexists; split; [reflexivity|]. unfold consistent. cbn.
        rewrite Et. exact C. }
      destruct (negb (path_exists w _)).
      { eexists; split; [reflexivity|]. unfold consistent. cbn.
        rewrite Et. exact C. }
      assert (Hg : exists g,
                 match self_groups win with
                 | [] => group_images_by_source
                           w (parse_path (strip (image_edit win)))
                 | _ :: _ => Ok (self_groups win)
                 end = Ok g).
      { destruct (self_groups win); eexists; reflexivity. }
      destruct Hg as [g ->]. cbv zeta.
      destruct (selected_data (set_groups g win)).
      * eexists; split; [reflexivity|]. unfold consistent. cbn.
        rewrite Et. exact C.
      * eexists; split; [reflexivity|]. unfold consistent. cbn.
        repeat split. discriminate.
  - eexists; split; [reflexivity|]. unfold cancel, consistent in *.
    destruct (self_worker win) as [o|] eqn:Ew; [|rewrite Ew; exact C].
    cbn. destruct (self_thread win) as [th|].
    + destruct C as [C1 [C2 C3]]. repeat split; try apply C3; try exact C1.
      discriminate.
    + destruct C as [C1 _]. discriminate.
  - eexists; split; [reflexivity|]. unfold consistent. cbn. repeat split.
  - eexists; split; [reflexivity|]. unfold consistent. cbn. repeat split.
Qed.

Lemma steps_consistent (evs : list event) :
  forall win, consistent win ->
  exists win', steps w win evs = Ok win' /\ consistent win'.
Proof.
  induction evs as [|ev evs IH]; intros win C; cbn [steps].
  - exists win. split; [reflexivity|exact C].
  - destruct (step_consistent win ev C) as [win1 [-> C1]].
    apply IH. exact C1.
Qed.

End WindowFacts.

(** X17. Whatever happens to the window, the buttons, the thread and the
    worker agree: either there is no thread and no worker, [scan] and [run]
    are enabled and [cancel] is not, or there is a started thread with a
    worker, [cancel] is enabled and [scan] and [run] are not. *)
Theorem window_runs_one_worker_at_a_time :
  forall (w : World) (evs : list event),
  exists win,
    steps w init evs = Ok win /\ consistent win.
Proof.
  intros w evs. apply steps_consistent.
  unfold consistent. cbn. repeat split.
Qed.

Section ListFacts.
Variable w : World.

(** The list after a sequence of calls on the widgets. *)
Lemma list_after_calls (calls : list GUI.ui) :
  forall win,
    list_widget (fold_left apply_ui calls win)
    = fold_left (fun l u =>
                   match u with
                   | GUI.list_clear => []
                   | GUI.list_add label data => l ++ [mkItem label data false]
                   | _ => l
                   end) calls (list_widget win).
Proof.
  induction calls as [|u calls IH]; intros win; cbn [fold_left];
    [reflexivity|].
  rewrite IH. destruct u; reflexivity.
Qed.

Lemma fold_adds (A : Type) (label data : A -> text) (l : list A) :
  forall items rest,
    fold_left (fun l u =>
                 match u with
                 | GUI.list_clear => []
                 | GUI.list_add label data => l ++ [mkItem label data false]
                 | _ => l
                 end)
              (map (fun a => GUI.list_add (label a) (data a)) l ++ rest)
              items
    = fold_left (fun l u =>
                   match u with
                   | GUI.list_clear => []
                   | GUI.list_add label data =>
                       l ++ [mkItem label data false]
                   | _ => l
                   end) rest
                (items ++ map (fun a => mkItem (label a) (data a) false) l).
Proof.
  induction l as [|a l IH]; intros items rest; cbn [map app fold_left].
  - rewrite app_nil_r. reflexivity.
  - rewrite IH, <- app_assoc. reflexivity.
Qed.

(** The list after a scan: unchanged when the directory does not exist,
    and otherwise one item for each key of the new mapping. *)
Lemma scan_sources_list (win win' : Window) :
  scan_sources w win = Ok win' ->
  (list_widget win' = list_widget win
   /\ self_groups win' = self_groups win)
  \/ Forall (fun it => In (item_data it) (map fst (self_groups win')))
            (list_widget win').
Proof.
  unfold scan_sources, GUI.scan_sources.
  destruct (negb (path_exists w _)).
  - intros H. injection H as <-. left. split; reflexivity.
  - destruct (group_images_by_source w _) as [g|e]; [|discriminate].
    intros H. injection H as <-. right.
    match goal with
    | |- context [fold_left apply_ui ?c ?w0] =>
        destruct (fold_apply_ui_thread c w0) as [_ [_ [_ [_ [_ Hg]]]]]
    end.
    cbv zeta in Hg. rewrite Hg. cbn [set_groups self_groups].
    rewrite list_after_calls. cbn [app fold_left].
    rewrite (fold_adds _ (fun kv => fst kv ++ t "   ("
                                        ++ str_of_nat (length (snd kv))
                                        ++ t " images)")
                       (@fst text (list Path))).
    cbn [fold_left app]. apply Forall_forall. intros it Hit.
    apply in_map_iff in Hit. destruct Hit as [kv [<- Hkv]].
    cbn [item_data]. apply in_map.
    eapply Permutation_in; [apply Permutation_sym, sort_perm|exact Hkv].
Qed.

Lemma toggle_data (P : text -> Prop) (l : list Item) :
  forall i, Forall (fun it => P (item_data it)) l ->
            Forall (fun it => P (item_data it)) (toggle i l).
Proof.
  induction l as [|it l IH]; intros i H; [destruct i; constructor|].
  inversion H as [|? ? H1 H2]; subst.
  destruct i as [|i]; cbn [toggle]; constructor; auto.
Qed.

Lemma selected_data_listed (win : Window) (s : text) :
  In s (selected_data win) ->
  exists it, In it (list_widget win) /\ item_data it = s.
Proof.
  unfold selected_data. intros H. apply in_map_iff in H.
  destruct H as [it [<- Hit]]. apply filter_In in Hit.
  exists it. split; [apply Hit|reflexivity].
Qed.

Lemma step_sources_known (win win' : Window) (ev : event) :
  sources_known win -> step w win ev = Ok win' -> sources_known win'.
Proof.
  intros [K1 K2]. destruct ev; cbn [step];
    try (intros H; injection H as <-; split; [exact K1|exact K2]).
  - intros H; injection H as <-. unfold browse_image.
    destruct d; split; assumption.
  - intros H; injection H as <-. unfold browse_emd.
    destruct d; split; assumption.
  - intros H; injection H as <-. unfold browse_out.
    destruct d; split; assumption.
  - intros H; injection H as <-. split; [|exact K2].
    cbn [set_list list_widget self_groups].
    apply (toggle_data (fun d => In d (map fst (self_groups win)))).
    exact K1.
  - intros H. pose proof (scan_sources_list win win' H) as HL.
    destruct (scan_sources_total w win) as [calls [groups [_ Hs]]].
    rewrite Hs in H. injection H as <-.
    destruct (fold_apply_ui_thread calls (set_groups groups win))
      as [_ [Hw _]].
    cbv zeta in Hw. split; [|rewrite Hw; exact K2].
    destruct HL as [[-> ->]|HL]; [exact K1|exact HL].
  - unfold start. destruct (self_thread win).
    { intros H; injection H as <-. split; assumption. }
    destruct (negb (path_exists w _)).
    { intros H; injection H as <-. split; assumption. }
    destruct (negb (path_exists w _)).
    { intros H; injection H as <-. split; assumption. }
    destruct (self_groups win) as [|kv g] eqn:Eg.
    + assert (Hl : list_widget win = []).
      { destruct (list_widget win) as [|it l]; [reflexivity|].
        inversion K1 as [|? ? Hit _]; subst. contradiction. }
      unfold group_images_by_source. cbv iota beta zeta.
      unfold selected_data. cbn [set_groups list_widget]. rewrite Hl.
      cbn [filter map]. intros H; injection H as <-.
      split; [|exact K2].
      cbn [show set_groups list_widget]. rewrite Hl. constructor.
    + cbv iota beta zeta.
      destruct (selected_data (set_groups (kv :: g) win)) as [|s l] eqn:Es.
      * intros H; injection H as <-. split; [|exact K2].
        cbn [show set_groups list_widget self_groups]. exact K1.
      * intros H; injection H as <-. split.
        -- cbn [list_widget self_groups set_groups]. exact K1.
        -- cbn [self_worker Worker_init selected_sources groups].
           split; [discriminate|]. rewrite <- Es.
           apply Forall_forall. intros x Hx.
           apply selected_data_listed in Hx. destruct Hx as [it [Hit <-]].
           cbn [set_groups list_widget] in Hit.
           rewrite Forall_forall in K1. apply K1. exact Hit.
  - intros H; injection H as <-. unfold cancel.
    destruct (self_worker win) as [o|] eqn:Eo; [|split; [exact K1|]].
    + split; [exact K1|]. cbn. exact K2.
    + rewrite Eo. exact I.
  - intros H; injection H as <-. split; [exact K1|exact I].
  - intros H; injection H as <-. split; [exact K1|exact I].
Qed.

Lemma steps_sources_known (evs : list event) :
  forall win win',
    sources_known win -> steps w win evs = Ok win' -> sources_known win'.
Proof.
  induction evs as [|ev evs IH]; intros win win' K; cbn [steps].
  - intros H; injection H as <-. exact K.
  - destruct (step w win ev) as [win1|e] eqn:E1; [|discriminate].
    apply IH. apply (step_sources_known win win1 ev K E1).
Qed.

Lemma init_sources_known : sources_known init.
Proof. split; [constructor|exact I]. Qed.

End ListFacts.

(** X18. The worker a window holds was given at least one source, and
    each of its sources is a key of the mapping it was given: the lookup
    [groups.get(source, [])] of a run never falls back on its default. *)
Theorem worker_sources_are_keys :
  forall (w : World) (evs : list event) (win : Window)
         (worker : WorkerObject),
    steps w init evs = Ok win ->
    self_worker win = Some worker ->
    selected_sources worker <> []
    /\ forall (c : nat -> bool) (source : text),
        In source (GUI.selected_sources (running worker c)) ->
        exists files,
          get (GUI.groups (running worker c)) source = Some files.
Proof.
  intros w evs win worker Hs Hw. cbn [running GUI.selected_sources GUI.groups].
  assert (Hgoal : selected_sources worker <> []
                  /\ forall source,
                      In source (selected_sources worker) ->
                      exists files, get (groups worker) source = Some files);
    [|split; [apply Hgoal|intros _; apply Hgoal]].
  destruct (steps_sources_known w evs init win init_sources_known Hs)
    as [_ K].
  rewrite Hw in K. destruct K as [K1 K2]. split; [exact K1|].
  intros source Hin. rewrite Forall_forall in K2. specialize (K2 _ Hin).
  clear - K2. induction (groups worker) as [|[k v] g IH]; [contradiction|].
  cbn [get]. destruct (text_eqb source k) eqn:E.
  - exists v. reflexivity.
  - destruct K2 as [K2|K2]; [|apply IH; exact K2].
    cbn [fst] in K2. subst k. rewrite text_eqb_refl in E. discriminate.
Qed.

(** X19. [start] with an empty mapping never launches a worker: the scan
    it makes fills the mapping but not the list, so that nothing is
    selected. *)
Theorem start_without_scan_never_launches :
  forall (w : World) (evs : list event) (win win' : Window),
    steps w init evs = Ok win ->
    self_groups win = [] ->
    start w win = Ok win' ->
    self_thread win' = self_thread win /\ self_worker win' = self_worker win.
Proof.
  intros w evs win win' Hs Hg.
  destruct (steps_sources_known w evs init win init_sources_known Hs)
    as [K _].
  assert (Hl : list_widget win = []).
  { destruct (list_widget win) as [|it l]; [reflexivity|].
    inversion K as [|? ? Hit _]; subst. rewrite Hg in Hit. contradiction. }
  unfold start. destruct (self_thread win) eqn:Et.
  { intros H; injection H as <-. split; [exact Et|reflexivity]. }
  destruct (negb (path_exists w _)).
  { intros H; injection H as <-. split; [exact Et|reflexivity]. }
  destruct (negb (path_exists w _)).
  { intros H; injection H as <-. split; [exact Et|reflexivity]. }
  rewrite Hg. unfold group_images_by_source. cbv iota beta zeta.
  unfold selected_data. cbn [set_groups list_widget]. rewrite Hl.
  cbn [filter map]. intros H; injection H as <-.
  split; [exact Et|reflexivity].
Qed.

Lemma worker_sources_are_keys_witness :
  [t "Bar"] <> []
  /\ forall (c : nat -> bool) (source : text),
      In source [t "Bar"] ->
      exists files,
        get [(t "Foo", [child Examples.data_dir (t "t1 Foo.png");
                        child Examples.data_dir (t "t2 Foo.png")]);
             (t "Bar", [child Examples.data_dir (t "a Bar.tif")])] source
        = Some files.
Proof.
  eapply (worker_sources_are_keys Examples.scan_world
            [click_scan; click_item 0; click_run] _
            (Worker_init Examples.data_dir Examples.data_dir
               (parse_path (t "mrc_output")) [t "Bar"]
               [(t "Foo", [child Examples.data_dir (t "t1 Foo.png");
                           child Examples.data_dir (t "t2 Foo.png")]);
                (t "Bar", [child Examples.data_dir (t "a Bar.tif")])])).
  - vm_compute. reflexivity.
  - vm_compute. reflexivity.
Defined.

Lemma start_without_scan_never_launches_witness :
  self_thread (show (warning
                       (t "No selection")
                       (t "Please select one or more data sources in the list."))
                    (set_groups
                       [(t "Foo", [child Examples.data_dir (t "t1 Foo.png");
                                   child Examples.data_dir (t "t2 Foo.png")]);
                        (t "Bar", [child Examples.data_dir (t "a Bar.tif")])]
                       init))
  = self_thread init
  /\ self_worker (show (warning
                          (t "No selection")
                          (t "Please select one or more data sources in the list."))
                       (set_groups
                          [(t "Foo",
                            [child Examples.data_dir (t "t1 Foo.png");
                             child Examples.data_dir (t "t2 Foo.png")]);
                           (t "Bar",
                            [child Examples.data_dir (t "a Bar.tif")])]
                          init))
     = self_worker init.
Proof.
  apply (start_without_scan_never_launches Examples.scan_world [] init).
  - reflexivity.
  - reflexivity.
  - vm_compute. reflexivity.
Defined.

Section TextOrder.

Lemma text_ltb_irrefl (a : text) : text_ltb a a = false.
Proof.
  induction a as [|x a IH]; [reflexivity|].
  cbn [text_ltb]. rewrite N.ltb_irrefl, N.eqb_refl, IH. reflexivity.
Qed.

Lemma text_ltb_asym (a b : text) :
  text_ltb a b = true -> text_ltb b a = false.
Proof.
  revert b. induction a as [|x a IH]; intros [|y b]; cbn [text_ltb];
    try reflexivity; try discriminate.
  intros H. apply orb_true_iff in H. apply orb_false_iff.
  destruct H as [H|H].
  - apply N.ltb_lt in H. split.
    + apply N.ltb_ge. lia.
    + replace (y =? x)%N with false; [reflexivity|].
      symmetry. apply N.eqb_neq. lia.
  - apply andb_true_iff in H. destruct H as [H1 H2].
    apply N.eqb_eq in H1. subst y. split.
    + apply N.ltb_irrefl.
    + rewrite N.eqb_refl. apply IH. exact H2.
Qed.

Lemma text_ltb_total (a b : text) :
  text_ltb a b = false -> a <> b -> text_ltb b a = true.
Proof.
  revert b. induction a as [|x a IH]; intros [|y b]; cbn [text_ltb];
    try reflexivity; try discriminate; try congruence.
  intros H Hne. apply orb_false_iff in H. destruct H as [H1 H2].
  apply N.ltb_ge in H1. apply orb_true_iff.
  destruct (N.eq_dec x y) as [->|Hxy].
  - right. rewrite N.eqb_refl in *. cbn [andb] in *.
    apply IH; [exact H2|congruence].
  - left. apply N.ltb_lt. lia.
Qed.

Lemma text_ltb_trans (a b c : text) :
  text_ltb a b = true -> text_ltb b c = true -> text_ltb a c = true.
Proof.
  revert b c. induction a as [|x a IH]; intros [|y b] [|z c];
    cbn [text_ltb]; try reflexivity; try discriminate.
  intros H1 H2. apply orb_true_iff in H1, H2. apply orb_true_iff.
  destruct H1 as [H1|H1], H2 as [H2|H2].
  - left. apply N.ltb_lt in H1, H2. apply N.ltb_lt. lia.
  - apply andb_true_iff in H2. destruct H2 as [E _].
    apply N.eqb_eq in E. subst z. left. exact H1.
  - apply andb_true_iff in H1. destruct H1 as [E _].
    apply N.eqb_eq in E. subst y. left. exact H2.
  - apply andb_true_iff in H1, H2. destruct H1 as [E1 L1], H2 as [E2 L2].
    apply N.eqb_eq in E1, E2. subst y z. right.
    rewrite N.eqb_refl. apply (IH b c); assumption.
Qed.

Lemma text_ltb_negtrans (a b c : text) :
  text_ltb a b = false -> text_ltb b c = false -> text_ltb a c = false.
Proof.
  intros H1 H2. destruct (text_ltb a c) eqn:E; [|reflexivity].
  destruct (text_eqb a b) eqn:Eab.
  - apply text_eqb_eq in Eab. subst b. congruence.
  - apply text_eqb_neq in Eab.
    pose proof (text_ltb_total a b H1 Eab) as Hba.
    rewrite (text_ltb_trans b a c Hba E) in H2. discriminate.
Qed.

(** A list sorted by keys that are distinct is strictly ascending. *)
Lemma sorted_strict (A : Type) (key : A -> text) (l : list A) :
  NoDup (map key l) ->
  StronglySorted (fun a b => text_ltb (key b) (key a) = false) l ->
  StronglySorted (fun a b => text_ltb a b = true) (map key l).
Proof.
  induction l as [|x l IH]; intros Hn Hs; [constructor|].
  inversion Hn as [|? ? Hx Hn']; subst.
  inversion Hs as [|? ? Hs' Hall]; subst.
  cbn [map]. constructor; [apply IH; assumption|].
  apply Forall_forall. intros k Hk. apply in_map_iff in Hk.
  destruct Hk as [y [<- Hy]].
  rewrite Forall_forall in Hall. apply text_ltb_total; [apply Hall; exact Hy|].
  intros E. apply Hx. rewrite <- E. apply in_map. exact Hy.
Qed.

End TextOrder.

Section ScanList.
Variable w : World.

Lemma added_items_app (c1 c2 : list GUI.ui) :
  added_items (c1 ++ c2) = added_items c1 ++ added_items c2.
Proof. apply flat_map_app. Qed.

Lemma added_items_adds (A : Type) (label data : A -> text) (l : list A) :
  added_items (map (fun a => GUI.list_add (label a) (data a)) l)
  = map (fun a => (label a, data a)) l.
Proof.
  unfold added_items. induction l as [|a l IH]; [reflexivity|].
  cbn [map flat_map app]. rewrite IH. reflexivity.
Qed.

End ScanList.

(** X20. A scan of an existing directory stores the mapping of the
    grouper and lists its sources in strictly ascending order, one item for
    each key, labelled with the key and the number of its images; the last
    log line gives the number of sources. *)
Theorem scan_lists_the_sources_in_order :
  forall (w : World) (image_edit : text) (groups0 groups : Groups)
         (calls : list GUI.ui),
    path_exists w (parse_path (strip image_edit)) = true ->
    GUI.scan_sources w image_edit groups0 = Ok (calls, groups) ->
    group_images_by_source w (parse_path (strip image_edit)) = Ok groups
    /\ Permutation (map fst groups) (map snd (added_items calls))
    /\ StronglySorted (fun a b => text_ltb a b = true)
                      (map snd (added_items calls))
    /\ Forall (fun item =>
                 exists files,
                   get groups (snd item) = Some files
                   /\ fst item
                      = snd item ++ t "   (" ++ str_of_nat (length files)
                            ++ t " images)")
              (added_items calls)
    /\ exists calls',
        calls = calls'
                  ++ [GUI.append_log
                        ([128193%N] ++ t " Found "
                           ++ str_of_nat (length groups)
                           ++ t " data sources.")].
Proof.
  intros w image_edit groups0 groups calls He H.
  unfold GUI.scan_sources in H. rewrite He in H. cbn [negb] in H.
  destruct (group_images_by_source w _) as [g|e] eqn:Eg; [|discriminate].
  assert (Hkeys : NoDup (map fst g)).
  { unfold group_images_by_source in Eg. injection Eg as <-.
    apply NoDup_keys_grouping. }
  set (sorted := sort text_ltb (@fst text (list Path)) g) in *.
  assert (Hperm : Permutation g sorted) by apply sort_perm.
  assert (Hg : groups = g) by congruence.
  assert (Hc : calls
               = [GUI.append_log ([128269%N] ++ t " Scanning image files"
                                             ++ [8230%N]);
                  GUI.list_clear]
                   ++ map (fun kv =>
                             GUI.list_add
                               (fst kv ++ t "   ("
                                    ++ str_of_nat (length (snd kv))
                                    ++ t " images)") (fst kv)) sorted
                   ++ [GUI.append_log
                         ([128193%N] ++ t " Found "
                            ++ str_of_nat (length g)
                            ++ t " data sources.")])
    by congruence.
  clear H. subst groups.
  assert (Hitems : added_items calls
                   = map (fun kv => (fst kv ++ t "   ("
                                         ++ str_of_nat (length (snd kv))
                                         ++ t " images)", fst kv)) sorted).
  { rewrite Hc, !added_items_app.
    rewrite (added_items_adds _ (fun kv => fst kv ++ t "   ("
                                             ++ str_of_nat (length (snd kv))
                                             ++ t " images)")
                              (@fst text (list Path))).
    cbn [added_items flat_map app]. apply app_nil_r. }
  split; [reflexivity|].
  rewrite Hitems. rewrite map_map. cbn [snd].
  split; [apply Permutation_map; exact Hperm|]. split; [|split].
  - apply sorted_strict.
    + eapply Permutation_NoDup; [apply Permutation_map; exact Hperm|].
      exact Hkeys.
    + apply (sort_sorted _ _ text_ltb (@fst text (list Path))
               (fun _ => True)).
      * intros x y _ _. apply text_ltb_asym.
      * intros x y z _ _ _. apply text_ltb_negtrans.
      * apply Forall_forall. intros; exact I.
  - apply Forall_forall. intros item Hitem. apply in_map_iff in Hitem.
    destruct Hitem as [[k files] [<- Hkv]]. cbn [fst snd].
    exists files. split; [|reflexivity].
    apply In_get; [exact Hkeys|].
    eapply Permutation_in; [apply Permutation_sym; exact Hperm|exact Hkv].
  - eexists. rewrite Hc at 1. rewrite app_assoc. reflexivity.
Qed.

Lemma scan_lists_the_sources_in_order_witness :
  StronglySorted (fun a b => text_ltb a b = true) [t "Bar"; t "Foo"].
Proof.
  destruct (GUI.scan_sources Examples.scan_world (t " data/NiSi ") [])
    as [[calls groups]|e] eqn:E.
  - pose proof (scan_lists_the_sources_in_order Examples.scan_world
                  (t " data/NiSi ") [] groups calls eq_refl E)
      as [_ [_ [H _]]].
    vm_compute in E. injection E as <- <-. exact H.
  - vm_compute in E. discriminate.
Defined.

Section Delivery.
Variable w : World.

Lemma steps_app (evs1 evs2 : list event) :
  forall win,
    steps w win (evs1 ++ evs2)
    = match steps w win evs1 with
      | Ok win' => steps w win' evs2
      | Raise e => Raise e
      end.
Proof.
  induction evs1 as [|ev evs1 IH]; intros win; cbn [app steps];
    [reflexivity|].
  destruct (step w win ev); [apply IH|reflexivity].
Qed.

(** The signals before the last one change the log and the progress bar
    only. *)
Lemma steps_progress_signals (pre : list (entry GUI.effect)) :
  Forall (fun en => is_terminal en = false) pre ->
  forall win,
  exists win',
    steps w win (signals pre) = Ok win'
    /\ self_groups win' = self_groups win
    /\ self_thread win' = self_thread win
    /\ self_worker win' = self_worker win
    /\ list_widget win' = list_widget win
    /\ (scan_btn win', run_btn win', cancel_btn win')
       = (scan_btn win, run_btn win, cancel_btn win)
    /\ dialogs win' = dialogs win.
Proof.
  induction 1 as [|en pre Hen _ IH]; intros win.
  - exists win. repeat split.
  - destruct en as [[s|v| |msg|p v]|b]; try discriminate;
      cbn [signals flat_map app steps step];
      fold (signals pre); try apply IH.
    + destruct (IH (append_log s win)) as [win' [H1 H2]].
      exists win'. split; [exact H1|exact H2].
    + destruct (IH (set_progress v win)) as [win' [H1 H2]].
      exists win'. split; [exact H1|exact H2].
Qed.

End Delivery.

(** X21. The signals of a run of the worker, delivered in order, bring
    the window back to its idle state: no thread, no worker, [scan] and
    [run] enabled, [cancel] disabled, and one message box more, "Complete"
    or "Error"; the mapping and the list are as before, and with
    "Complete" the progress bar is at 100. *)
Theorem run_returns_the_window_to_idle :
  forall (w : World) (self : GUI.Worker) (win : Window),
  exists win' box,
    steps w win (signals (entries (GUI.run w self))) = Ok win'
    /\ self_thread win' = None /\ self_worker win' = None
    /\ run_btn win' = true /\ scan_btn win' = true
    /\ cancel_btn win' = false
    /\ dialogs win' = dialogs win ++ [box]
    /\ (box = information (t "Complete") (t "MRC generation is complete.")
        \/ exists msg, box = critical (t "Error") msg)
    /\ self_groups win' = self_groups win
    /\ list_widget win' = list_widget win
    /\ (box = information (t "Complete") (t "MRC generation is complete.")
        -> progress win' = Some 100%Z).
Proof.
  intros w self win.
  destruct (run_terminal w self) as [pre [last [E [Hlast Hpre]]]].
  rewrite E. unfold signals. rewrite flat_map_app. fold (signals pre).
  rewrite steps_app.
  destruct Hlast as [[-> [pre' ->]]|[msg ->]].
  - apply Forall_app in Hpre. destruct Hpre as [Hpre _].
    unfold signals. rewrite flat_map_app. fold (signals pre').
    rewrite steps_app.
    destruct (steps_progress_signals w pre' Hpre win)
      as [win1 [-> [H1 [H2 [H3 [H4 [H5 H6]]]]]]].
    cbn [flat_map app steps step].
    eexists. eexists. split; [reflexivity|].
    cbn. rewrite H6, H1, H4. repeat split. left. reflexivity.
  - destruct (steps_progress_signals w pre Hpre win)
      as [win1 [-> [H1 [H2 [H3 [H4 [H5 H6]]]]]]].
    cbn [flat_map app steps step].
    eexists. eexists. split; [reflexivity|].
    cbn. rewrite H6, H1, H4. repeat split;
      [right; eexists; reflexivity|discriminate].
Qed.

Section CancelFlag.
Variable w : World.

Lemma init_consistent : consistent init.
Proof. unfold consistent. cbn. repeat split. Qed.

(** One event leaves the worker of the window as it is, but for its flag,
    which a click on [cancel] sets, unless the event is the signal that
    ends the run, after which the window has no worker. *)
Lemma step_keeps_worker (win win' : Window) (ev : event)
      (worker : WorkerObject) :
  consistent win ->
  self_worker win = Some worker ->
  step w win ev = Ok win' ->
  (self_worker win' = None
   /\ (ev = worker_finished \/ exists msg, ev = worker_error msg))
  \/ self_worker win'
     = Some (mkWorkerObject
               (image_dir worker) (emd_dir worker) (output_dir worker)
               (selected_sources worker) (groups worker)
               match ev with
               | click_cancel => true
               | _ => _cancel worker
               end).
Proof.
  intros C Hw.
  assert (Hsame : Some worker
                  = Some (mkWorkerObject
                            (image_dir worker) (emd_dir worker)
                            (output_dir worker) (selected_sources worker)
                            (groups worker) (_cancel worker)))
    by (destruct worker; reflexivity).
  destruct ev; cbn [step];
    try (intros H; injection H as <-; right; rewrite <- Hsame; exact Hw).
  - intros H; injection H as <-. unfold browse_image.
    destruct d; right; rewrite <- Hsame; exact Hw.
  - intros H; injection H as <-. unfold browse_emd.
    destruct d; right; rewrite <- Hsame; exact Hw.
  - intros H; injection H as <-. unfold browse_out.
    destruct d; right; rewrite <- Hsame; exact Hw.
  - destruct (scan_sources_total w win) as [calls [groups [_ ->]]].
    intros H; injection H as <-.
    destruct (fold_apply_ui_thread calls (set_groups groups win))
      as [_ [H2 _]].
    cbv zeta in H2. right. rewrite H2, <- Hsame. exact Hw.
  - unfold start. unfold consistent in C.
    destruct (self_thread win) as [th|].
    + intros H; injection H as <-. right. rewrite <- Hsame. exact Hw.
    + destruct C as [C _]. congruence.
  - intros H; injection H as <-. right. unfold cancel. rewrite Hw.
    reflexivity.
  - intros H; injection H as <-. left.
    split; [reflexivity|left; reflexivity].
  - intros H; injection H as <-. left.
    split; [reflexivity|right; eexists; reflexivity].
Qed.

End CancelFlag.

(** X22. The window keeps the worker it launched, with the directories,
    the sources and the mapping it was given, until the signal that ends
    the run is delivered, after which it has none. Of the worker only the
    flag changes: a click on [cancel] sets it, and no event clears it. *)
Theorem worker_is_kept_until_its_run_ends :
  forall (w : World) (evs : list event) (win win' : Window)
         (worker : WorkerObject) (ev : event),
    steps w init evs = Ok win ->
    self_worker win = Some worker ->
    step w win ev = Ok win' ->
    (self_worker win' = None
     /\ (ev = worker_finished \/ exists msg, ev = worker_error msg))
    \/ self_worker win'
       = Some (mkWorkerObject
                 (image_dir worker) (emd_dir worker) (output_dir worker)
                 (selected_sources worker) (groups worker)
                 match ev with
                 | click_cancel => true
                 | _ => _cancel worker
                 end).
Proof.
  intros w evs win win' worker ev Hs Hw Hstep.
  destruct (steps_consistent w evs init (init_consistent)) as [win0 [E C]].
  rewrite Hs in E. injection E as <-.
  apply (step_keeps_worker w win win' ev worker C Hw Hstep).
Qed.

Lemma worker_is_kept_until_its_run_ends_witness :
  exists win worker,
    steps Examples.scan_world init [click_scan; click_item 0; click_run]
    = Ok win
    /\ self_worker win = Some worker
    /\ ((self_worker (cancel win) = None
         /\ (click_cancel = worker_finished
             \/ exists msg, click_cancel = worker_error msg))
        \/ self_worker (cancel win)
           = Some (mkWorkerObject
                     (image_dir worker) (emd_dir worker) (output_dir worker)
                     (selected_sources worker) (groups worker) true)).
Proof.
  destruct (steps Examples.scan_world init
                  [click_scan; click_item 0; click_run])
    as [win|e] eqn:Es; [|vm_compute in Es; discriminate].
  destruct (self_worker win) as [worker|] eqn:Ew.
  - exists win, worker. split; [reflexivity|]. split; [exact Ew|].
    apply (worker_is_kept_until_its_run_ends Examples.scan_world
             [click_scan; click_item 0; click_run] win (cancel win)
             worker click_cancel Es Ew eq_refl).
  - vm_compute in Es. injection Es as <-. discriminate.
Defined.

